(** * Rain scene: raindrops, lightning, scene population and ground splashes

  A shallow embedding of the simulation layer of the rain animation
  (raindrop.ts, the Lightning and RainScene classes, the guardrails and
  street lamps of the roadside, the two Ground classes, and the intensity
  level and volume of the variant with sound) together with the properties
  its specification states and further properties of the code.

  Numbers.  A JavaScript [number] is modelled as an exact rational [Q];
  rounding of IEEE doubles is not modelled.  A double can round onto the
  upper end of a range that the exact value stays below, so the properties
  state the upper end of a range drawn with [Math.random()] as included
  wherever the doubles reach it.  Where a claim turns on such a value, the
  expression is given once more on binary64 numbers ([Binary64]).
  Counters that the code only ever uses as integers (the raindrop
  population) are [Z].

  Host.  [Math.random()], [Date.now()] and [setTimeout] are the only host
  facilities the modelled code touches.  The values the host returns are
  given by two oracles, [random] and [clock]; the k-th call returns the
  k-th value.  A [World] counts the calls made so far and records the
  timers that were scheduled.  [Math.sin] is a parameter as well. *)

From Stdlib Require Import QArith Qminmax Qround Lqa ZArith List Lia Bool.
From Stdlib Require PrimFloat.
Import ListNotations.

Local Open Scope Q_scope.

(** ** Comparisons on numbers, as booleans *)

Definition Qltb (a b : Q) : bool := negb (Qle_bool b a).
Definition Qleb (a b : Q) : bool := Qle_bool a b.

(** ** The host: random numbers, the wall clock and timers *)

Module JS.

Record World := mkWorld {
  draws : nat;          (* calls of Math.random() so far *)
  reads : nat;          (* calls of Date.now() so far *)
  timers : list Q       (* delays of the callbacks handed to setTimeout *)
}.

Definition M (A : Type) : Type := World -> A * World.

Definition ret {A} (a : A) : M A := fun w => (a, w).

Definition bind {A B} (m : M A) (k : A -> M B) : M B :=
  fun w => let (a, w') := m w in k a w'.

Definition Math_random (random : nat -> Q) : M Q :=
  fun w => (random (draws w), mkWorld (S (draws w)) (reads w) (timers w)).

Definition Date_now (clock : nat -> Q) : M Q :=
  fun w => (clock (reads w), mkWorld (draws w) (S (reads w)) (timers w)).

Definition setTimeout (delay : Q) : M unit :=
  fun w => (tt, mkWorld (draws w) (reads w) (timers w ++ [delay])).

(** [for (let i = from; ...; i++) arr.push(body(i))], run [count] times. *)
Fixpoint for_push {A} (count from : nat) (body : nat -> M A) (arr : list A)
  : M (list A) :=
  match count with
  | O => ret arr
  | S c => bind (body from) (fun a => for_push c (S from) body (arr ++ [a]))
  end.

(** [arr.forEach(f)] where [f] replaces each element in place. *)
Fixpoint forEach {A} (f : A -> M A) (arr : list A) : M (list A) :=
  match arr with
  | [] => ret []
  | a :: rest =>
      bind (f a)
        (fun a' => bind (forEach f rest) (fun rest' => ret (a' :: rest')))
  end.

Definition start : World := mkWorld 0 0 [].

End JS.

Notation "x <- m ;; k" := (JS.bind m (fun x => k))
  (at level 61, m at next level, right associativity).

(** A computation that at most draws random numbers: it reads no clock and
    schedules no timer. *)
Definition quiet {A} (m : JS.M A) : Prop :=
  forall w,
    JS.reads (snd (m w)) = JS.reads w /\
    JS.timers (snd (m w)) = JS.timers w.

(** The most recent [k] entries of an array: [arr.slice(-k)]. *)
Definition slice_last {A} (k : nat) (arr : list A) : list A :=
  skipn (List.length arr - k) arr.

(** [arr.filter(f)] where [f] first updates the element it is given and then
    answers whether to keep it. *)
Fixpoint filter_step {A} (step : A -> A) (keep : A -> bool) (arr : list A)
  : list A :=
  match arr with
  | [] => []
  | a :: rest =>
      let a1 := step a in
      if keep a1 then a1 :: filter_step step keep rest
      else filter_step step keep rest
  end.

(** The cap on a pool, in the words of the specification: [pool] is what
    is left of the array [pushed]: all of it up to 200 entries, and beyond
    that its most recent 150, the oldest dropped. *)
Definition trimmed {A} (pushed pool : list A) : Prop :=
  ((List.length pushed <= 200)%nat -> pool = pushed) /\
  ((200 < List.length pushed)%nat ->
   List.length pool = 150%nat /\ exists oldest, pushed = oldest ++ pool).

(** The canvas element: the scene sets its size, the ground reads it. *)
Module Canvas.

Record t := mk { width : Q; height : Q }.

End Canvas.

(** ** raindrop.ts *)

Module Raindrop.

Record t := mk {
  x : Q;
  y : Q;
  speed : Q;
  length : Q;
  opacity : Q;
  width : Q;
  velocityY : Q;
  acceleration : Q;
  terminalVelocity : Q;
  mass : Q
}.

Section Code.

Variable random : nat -> Q.
Variable sin : Q -> Q.

Let rnd := JS.Math_random random.

Definition new (canvasWidth canvasHeight : Q) : JS.M t :=
  r1 <- rnd ;;
  r2 <- rnd ;;
  r3 <- rnd ;;
  r4 <- rnd ;;
  r5 <- rnd ;;
  r6 <- rnd ;;
  r7 <- rnd ;;
  r8 <- rnd ;;
  let x0 := r1 * canvasWidth in
  let y0 := r2 * canvasHeight - canvasHeight in
  let speed0 := r3 * 10 + 5 in
  let length0 := r4 * 20 + 10 in
  let opacity0 := r5 * 0.6 + 0.4 in
  let width0 := r6 * 2 + 1 in
  let velocityY0 := r7 * 2 + 1 in
  let mass0 := width0 * length0 * 0.1 in
  let acceleration0 := 0.3 + r8 * 0.2 in
  let terminalVelocity0 := 8 + mass0 * 2 in
  JS.ret (mk x0 y0 speed0 length0 opacity0 width0 velocityY0
             acceleration0 terminalVelocity0 mass0).

(** The vertical velocity after one frame. *)
Definition fall (d : t) : Q :=
  if Qltb (velocityY d) (terminalVelocity d) then
    let v1 := velocityY d + acceleration d in
    let airResistance := v1 * 0.02 in
    let v2 := v1 - airResistance in
    Qmin v2 (terminalVelocity d)
  else velocityY d.

Definition update (d : t) (canvasHeight : Q) : t :=
  let v := fall d in
  let y1 := y d + v in
  let windEffect := sin (y1 * 0.008) * 0.3 + sin (y1 * 0.015) * 0.2 in
  mk (x d + windEffect) y1 v (length d) (opacity d) (width d) v
     (acceleration d) (terminalVelocity d) (mass d).

Definition isOutOfBounds (d : t) (canvasHeight : Q) : bool :=
  Qltb (canvasHeight + length d) (y d).

Definition reset (d : t) (canvasWidth : Q) : JS.M t :=
  r1 <- rnd ;;
  let x1 := r1 * canvasWidth in
  let y1 := - length d in
  r2 <- rnd ;;
  let length1 := r2 * 20 + 10 in
  r3 <- rnd ;;
  let opacity1 := r3 * 0.6 + 0.4 in
  r4 <- rnd ;;
  let velocityY1 := r4 * 2 + 1 in
  let mass1 := width d * length1 * 0.1 in
  r5 <- rnd ;;
  let acceleration1 := 0.3 + r5 * 0.2 in
  let terminalVelocity1 := 8 + mass1 * 2 in
  JS.ret (mk x1 y1 velocityY1 length1 opacity1 (width d) velocityY1
             acceleration1 terminalVelocity1 mass1).

(** The states a raindrop can be in: built by the constructor, then
    updated and reset any number of times. *)
Inductive reachable : t -> Prop :=
  | reach_new : forall cw ch w, reachable (fst (new cw ch w))
  | reach_update : forall d ch, reachable d -> reachable (update d ch)
  | reach_reset : forall d cw w, reachable d -> reachable (fst (reset d cw w)).

(** [n] successive frames. *)
Fixpoint frames (heights : list Q) (d : t) : t :=
  match heights with
  | [] => d
  | h :: rest => frames rest (update d h)
  end.

End Code.

(** What every frame and every reset keeps true of a raindrop: the width is
    not negative, the velocity is at most the terminal velocity, and it is
    below the velocity at which drag balances the acceleration
    (0.98 * (v + a) = v at v = 49 * a). *)
Definition steady (d : t) : Prop :=
  0 <= width d /\
  velocityY d <= terminalVelocity d /\
  velocityY d < 49 * acceleration d.

(** What the constructor and [reset] draw and every frame keeps: the ranges
    of the size and of the physics constants, the mass and the terminal
    velocity as derived from the size, and a velocity of at least 1. *)
Definition seeded (d : t) : Prop :=
  10 <= length d < 30 /\
  1 <= width d <= 3 /\
  0.4 <= opacity d < 1 /\
  0.3 <= acceleration d <= 0.5 /\
  mass d == width d * length d * 0.1 /\
  terminalVelocity d == 8 + mass d * 2 /\
  1 <= velocityY d.

End Raindrop.

(** ** The Lightning class *)

Module Lightning.

Record Point := mkPoint { px : Q; py : Q }.

Record LightningBranch := mkBranch {
  startX : Q;
  startY : Q;
  endX : Q;
  endY : Q;
  segments : list Point
}.

Record t := mk {
  isActive : bool;
  duration : Q;
  maxDuration : Q;
  intensity : Q;
  branches : list LightningBranch;
  lastStrike : Q;
  nextStrikeDelay : Q;
  onStrikeCallback : bool   (* whether the constructor was given a callback *)
}.

(** How often the body of [for (let i = from; i < bound; i++)] runs, for a
    bound that need not be an integer. *)
Definition loop_count (from : Z) (bound : Q) : nat :=
  Z.to_nat (Qceiling bound - from).

Definition of_index (i : nat) : Q := inject_Z (Z.of_nat i).

Section Code.

Variable random : nat -> Q.
Variable clock : nat -> Q.

Let rnd := JS.Math_random random.

Definition generateLightningPath (startX startY endX endY : Q)
  : JS.M (list Point) :=
  r <- rnd ;;
  let numSegments := 8 + r * 8 in
  segs <- JS.for_push (loop_count 1 numSegments) 1
            (fun i =>
               let progress := of_index i / numSegments in
               r' <- rnd ;;
               let x := startX + (endX - startX) * progress + (r' - 0.5) * 50 in
               let y := startY + (endY - startY) * progress in
               JS.ret (mkPoint x y))
            [mkPoint startX startY] ;;
  JS.ret (segs ++ [mkPoint endX endY]).

Definition createBranches (canvasWidth canvasHeight : Q)
  : JS.M (list LightningBranch) :=
  r <- rnd ;;
  let numBranches := r * 3 + 2 in
  JS.for_push (loop_count 0 numBranches) 0
    (fun _ =>
       r1 <- rnd ;;
       let startX := r1 * canvasWidth in
       let startY := 0 in
       r2 <- rnd ;;
       let endX := startX + (r2 - 0.5) * canvasWidth * 0.3 in
       r3 <- rnd ;;
       let endY := r3 * canvasHeight * 0.6 + canvasHeight * 0.2 in
       segs <- generateLightningPath startX startY endX endY ;;
       JS.ret (mkBranch startX startY endX endY segs))
    [].

(** [scheduleNextStrike] returns the new [nextStrikeDelay]. *)
Definition scheduleNextStrike : JS.M Q :=
  r <- rnd ;;
  JS.ret (r * 8000 + 2000).

Definition new (callback : bool) : JS.M t :=
  delay <- scheduleNextStrike ;;
  JS.ret (mk false 0 200 0 [] 0 delay callback).

Definition strike (l : t) (canvasWidth canvasHeight : Q) : JS.M t :=
  r <- rnd ;;
  let intensity1 := r * 0.8 + 0.2 in
  branches1 <- createBranches canvasWidth canvasHeight ;;
  now <- JS.Date_now clock ;;
  delay <- scheduleNextStrike ;;
  _ <- (if onStrikeCallback l
        then r' <- rnd ;; JS.setTimeout (100 + r' * 300)
        else JS.ret tt) ;;
  JS.ret (mk true 0 (maxDuration l) intensity1 branches1 now delay
             (onStrikeCallback l)).

Definition update (l : t) (canvasWidth canvasHeight deltaTime : Q) : JS.M t :=
  if isActive l then
    let duration1 := duration l + deltaTime in
    let isActive1 :=
      if Qleb (maxDuration l) duration1 then false else isActive l in
    JS.ret (mk isActive1 duration1 (maxDuration l) (intensity l) (branches l)
               (lastStrike l) (nextStrikeDelay l) (onStrikeCallback l))
  else
    now <- JS.Date_now clock ;;
    if Qltb (nextStrikeDelay l) (now - lastStrike l) then
      r <- rnd ;;
      if Qltb r 0.3 then strike l canvasWidth canvasHeight else JS.ret l
    else JS.ret l.

(** The states a Lightning object can be in: constructed, then struck and
    updated (with a frame time that is not negative) in any order. *)
Inductive reachable : t -> Prop :=
  | reach_new : forall cb w, reachable (fst (new cb w))
  | reach_strike : forall l cw ch w,
      reachable l -> reachable (fst (strike l cw ch w))
  | reach_update : forall l cw ch dt w,
      reachable l -> 0 <= dt -> reachable (fst (update l cw ch dt w)).

End Code.

(** The fraction of the flash that has elapsed. *)
Definition progress (l : t) : Q := duration l / maxDuration l.

Definition getFlashIntensity (l : t) : Q :=
  if negb (isActive l) then 0
  else
    let p := progress l in
    if Qltb p 0.1 then intensity l * (p / 0.1)
    else intensity l * (1 - (p - 0.1) / 0.9).

Definition active (l : t) : bool := isActive l.

(** [update] called once per entry of [deltaTimes], the world threaded
    through. *)
Fixpoint updates (random clock : nat -> Q) (canvasWidth canvasHeight : Q)
  (deltaTimes : list Q) (l : t) (w : JS.World) : t * JS.World :=
  match deltaTimes with
  | [] => (l, w)
  | deltaTime :: rest =>
      let (l1, w1) :=
        update random clock l canvasWidth canvasHeight deltaTime w in
      updates random clock canvasWidth canvasHeight rest l1 w1
  end.

(** A path from (startX, startY) to (endX, endY): the two end points, and
    between them 7 to 15 points, the k-th of which lies at the fraction
    k / numSegments of the way down and within 25 of the straight line
    sideways. *)
Definition jagged (numSegments startX startY endX endY : Q)
  (path : list Point) : Prop :=
  exists inner,
    path = mkPoint startX startY :: inner ++ [mkPoint endX endY] /\
    (7 <= List.length inner <= 15)%nat /\
    forall k pt, nth_error inner k = Some pt ->
      let t := of_index (S k) / numSegments in
      0 < t < 1 /\
      py pt == startY + (endY - startY) * t /\
      - 25 <= px pt - (startX + (endX - startX) * t) <= 25.

(** A branch as [createBranches] makes them on a canvas: from the top edge
    down to between 20% and 80% of the height, ending at most 15% of the
    width to either side of where it starts, along a jagged path. *)
Definition branching (canvasWidth canvasHeight : Q) (b : LightningBranch)
  : Prop :=
  startY b = 0 /\
  0 <= startX b < canvasWidth /\
  - (0.15 * canvasWidth) <= endX b - startX b <= 0.15 * canvasWidth /\
  canvasHeight * 0.2 <= endY b <= canvasHeight * 0.8 /\
  exists numSegments,
    8 <= numSegments <= 16 /\
    jagged numSegments (startX b) (startY b) (endX b) (endY b) (segments b).

(** What construction, [strike] and [update] keep true of the schedule and
    of the branches. *)
Definition armed (l : t) : Prop :=
  2000 <= nextStrikeDelay l <= 10000 /\
  (isActive l = true -> (2 <= List.length (branches l) <= 5)%nat).

(** What construction, [strike] and [update] keep true. *)
Definition sound (l : t) : Prop :=
  maxDuration l = 200 /\
  0 <= intensity l <= 1 /\
  0 <= duration l /\
  (isActive l = true -> 0.2 <= intensity l /\ duration l < maxDuration l).

End Lightning.

(** ** The flash on IEEE 754 doubles

    Whether the flash can reach full intensity turns on how
    [Math.random() * 0.8 + 0.2] rounds.  The fields of the Lightning class
    that the flash depends on, and the three methods that set and read
    them, are given here on binary64 numbers, operation by operation as the
    code computes them. *)

Module Binary64.

Import PrimFloat.
Local Open Scope float_scope.

Record Lightning := mk {
  isActive : bool;
  duration : float;
  maxDuration : float;
  intensity : float
}.

(** The field initialisers. *)
Definition new : Lightning := mk false 0 200 0.

(** [strike], where [r] is what [Math.random()] returns for the
    intensity. *)
#[warnings="-inexact-float"]
Definition strike (l : Lightning) (r : float) : Lightning :=
  mk true 0 (maxDuration l) (r * 0.8 + 0.2).

(** [update] while a flash is active.  An idle lightning consults the clock
    and may strike ([Lightning.update]); that branch is not repeated here,
    and an idle lightning is returned as it is. *)
Definition update (l : Lightning) (deltaTime : float) : Lightning :=
  if isActive l then
    let duration1 := duration l + deltaTime in
    let isActive1 :=
      if maxDuration l <=? duration1 then false else isActive l in
    mk isActive1 duration1 (maxDuration l) (intensity l)
  else l.

#[warnings="-inexact-float"]
Definition getFlashIntensity (l : Lightning) : float :=
  if negb (isActive l) then 0
  else
    let progress := duration l / maxDuration l in
    if progress <? 0.1 then intensity l * (progress / 0.1)
    else intensity l * (1 - (progress - 0.1) / 0.9).

(** The largest double below 1, 1 - 2^-53. *)
Definition below_one : float := 0x1.fffffffffffffp-1.

End Binary64.

(** ** The RainScene class (rainScene.ts)

    The fields and methods that draw or that talk to the animation-frame
    scheduler ([animationId], [stop], [render], [animate]) keep no
    simulation state and are left out; of [start] and of the drawing only
    what the properties below are about is modelled, after the class. *)

Module RainScene.

Record Star := mkStar {
  star_x : Q;
  star_y : Q;
  brightness : Q;
  twinkle : Q
}.

Record t := mk {
  canvas : Canvas.t;
  raindrops : list Raindrop.t;
  lightning : Lightning.t;
  lastTime : Q;
  rainEnabled : bool;
  lightningEnabled : bool;
  rainIntensity : Z;          (* number of raindrops *)
  stars : list Star
}.

(** [Math.PI], the double nearest to pi. *)
Definition Math_PI : Q := 884279719003555 # 281474976710656.

Section Code.

Variable random : nat -> Q.
Variable clock : nat -> Q.
Variable sin : Q -> Q.

Let rnd := JS.Math_random random.

Definition createStars (c : Canvas.t) : JS.M (list Star) :=
  let numStars := 150%nat in
  JS.for_push numStars 0
    (fun _ =>
       r1 <- rnd ;;
       r2 <- rnd ;;
       r3 <- rnd ;;
       r4 <- rnd ;;
       JS.ret (mkStar (r1 * Canvas.width c) (r2 * Canvas.height c * 0.6)
                      (r3 * 0.8 + 0.2) (r4 * Math_PI * 2)))
    [].

Definition createRain (c : Canvas.t) (rainIntensity : Z)
  : JS.M (list Raindrop.t) :=
  JS.for_push (Z.to_nat rainIntensity) 0
    (fun _ => Raindrop.new random (Canvas.width c) (Canvas.height c))
    [].

(** [window.innerWidth] and [window.innerHeight] are the arguments. *)
Definition resizeCanvas (s : t) (innerWidth innerHeight : Q) : JS.M t :=
  let c := Canvas.mk innerWidth innerHeight in
  stars1 <- createStars c ;;
  drops1 <- createRain c (rainIntensity s) ;;
  JS.ret (mk c drops1 (lightning s) (lastTime s) (rainEnabled s)
             (lightningEnabled s) (rainIntensity s) stars1).

Definition new (innerWidth innerHeight : Q) : JS.M t :=
  l <- Lightning.new random false ;;
  let s0 := mk (Canvas.mk innerWidth innerHeight) [] l 0 true true 200 [] in
  s1 <- resizeCanvas s0 innerWidth innerHeight ;;
  stars2 <- createStars (canvas s1) ;;
  drops2 <- createRain (canvas s1) (rainIntensity s1) ;;
  JS.ret (mk (canvas s1) drops2 (lightning s1) (lastTime s1) (rainEnabled s1)
             (lightningEnabled s1) (rainIntensity s1) stars2).

Definition changeRainIntensity (s : t) (delta : Z) : JS.M t :=
  let newIntensity := Z.max 50 (Z.min 500 (rainIntensity s + delta)) in
  drops1 <-
    (if (rainIntensity s <? newIntensity)%Z then
       let toAdd := (newIntensity - rainIntensity s)%Z in
       JS.for_push (Z.to_nat toAdd) 0
         (fun _ =>
            Raindrop.new random (Canvas.width (canvas s))
              (Canvas.height (canvas s)))
         (raindrops s)
     else if (newIntensity <? rainIntensity s)%Z then
       JS.ret (firstn (Z.to_nat newIntensity) (raindrops s))
     else JS.ret (raindrops s)) ;;
  JS.ret (mk (canvas s) drops1 (lightning s) (lastTime s) (rainEnabled s)
             (lightningEnabled s) newIntensity (stars s)).

(** The four buttons. *)
Definition toggleRain (s : t) : t :=
  mk (canvas s) (raindrops s) (lightning s) (lastTime s)
     (negb (rainEnabled s)) (lightningEnabled s) (rainIntensity s) (stars s).

Definition toggleLightning (s : t) : t :=
  mk (canvas s) (raindrops s) (lightning s) (lastTime s)
     (rainEnabled s) (negb (lightningEnabled s)) (rainIntensity s) (stars s).

Definition increaseIntensity (s : t) : JS.M t := changeRainIntensity s 50.

Definition decreaseIntensity (s : t) : JS.M t := changeRainIntensity s (-50).

Definition update (s : t) (currentTime : Q) : JS.M t :=
  let deltaTime := currentTime - lastTime s in
  l1 <-
    (if lightningEnabled s then
       Lightning.update random clock (lightning s)
         (Canvas.width (canvas s)) (Canvas.height (canvas s)) deltaTime
     else JS.ret (lightning s)) ;;
  drops1 <-
    (if rainEnabled s then
       JS.forEach
         (fun raindrop =>
            let raindrop1 :=
              Raindrop.update sin raindrop (Canvas.height (canvas s)) in
            if Raindrop.isOutOfBounds raindrop1 (Canvas.height (canvas s))
            then Raindrop.reset random raindrop1 (Canvas.width (canvas s))
            else JS.ret raindrop1)
         (raindrops s)
     else JS.ret (raindrops s)) ;;
  JS.ret (mk (canvas s) drops1 l1 currentTime (rainEnabled s)
             (lightningEnabled s) (rainIntensity s) (stars s)).

(** The states of a scene: constructed, then any sequence of window
    resizes, button clicks and animation frames. *)
Inductive reachable : t -> Prop :=
  | reach_new : forall iw ih w, reachable (fst (new iw ih w))
  | reach_resize : forall s iw ih w,
      reachable s -> reachable (fst (resizeCanvas s iw ih w))
  | reach_toggleRain : forall s, reachable s -> reachable (toggleRain s)
  | reach_toggleLightning : forall s,
      reachable s -> reachable (toggleLightning s)
  | reach_increase : forall s w,
      reachable s -> reachable (fst (increaseIntensity s w))
  | reach_decrease : forall s w,
      reachable s -> reachable (fst (decreaseIntensity s w))
  | reach_update : forall s time w,
      reachable s -> reachable (fst (update s time w)).

End Code.

(** [drawLightningFlash], when it is called: the alpha of the white
    rectangle it fills the canvas with, or [None] when it draws nothing. *)
Definition drawLightningFlash (s : t) : option Q :=
  let flashIntensity := Lightning.getFlashIntensity (lightning s) in
  if Qltb 0 flashIntensity then Some (flashIntensity * 0.3) else None.

(** [render], as far as the flash goes: it calls [drawLightningFlash] only
    while the lightning is enabled.  The result is the alpha of the overlay
    that the frame shows, or [None] when it shows none.  The background,
    the raindrops and the bolts that [render] also draws are not
    modelled. *)
Definition render (s : t) : option Q :=
  if lightningEnabled s then drawLightningFlash s else None.

(** [start] at the time [now] that [performance.now()] returns: the first
    frame, at that same time. *)
Definition start (random clock : nat -> Q) (sin : Q -> Q) (s : t) (now : Q)
  : JS.M t :=
  update random clock sin
    (mk (canvas s) (raindrops s) (lightning s) now (rainEnabled s)
        (lightningEnabled s) (rainIntensity s) (stars s))
    now.

(** The states of a scene whose frames come at times that do not go back. *)
Inductive played (random clock : nat -> Q) (sin : Q -> Q) : t -> Prop :=
  | played_new : forall iw ih w,
      played random clock sin (fst (new random iw ih w))
  | played_start : forall s now w,
      played random clock sin s ->
      played random clock sin (fst (start random clock sin s now w))
  | played_frame : forall s time w,
      played random clock sin s -> lastTime s <= time ->
      played random clock sin (fst (update random clock sin s time w))
  | played_resize : forall s iw ih w,
      played random clock sin s ->
      played random clock sin (fst (resizeCanvas random s iw ih w))
  | played_toggleRain : forall s,
      played random clock sin s -> played random clock sin (toggleRain s)
  | played_toggleLightning : forall s,
      played random clock sin s -> played random clock sin (toggleLightning s)
  | played_increase : forall s w,
      played random clock sin s ->
      played random clock sin (fst (increaseIntensity random s w))
  | played_decrease : forall s w,
      played random clock sin s ->
      played random clock sin (fst (decreaseIntensity random s w)).


(** What the constructor, the buttons, resizes and frames keep true: there
    are [rainIntensity] raindrops, and [rainIntensity] is 50 times a level
    from 1 to 10. *)
Definition populated (s : t) : Prop :=
  Z.of_nat (List.length (raindrops s)) = rainIntensity s /\
  exists level, (1 <= level <= 10)%Z /\ rainIntensity s = (50 * level)%Z.

End RainScene.

(** ** The Guardrails class *)

Module Guardrails.

Record GuardrailPost := mkPost {
  x : Q;
  y : Q;
  height : Q;
  width : Q;
  weathering : Q
}.

Record t := mk {
  canvas : Canvas.t;
  posts : list GuardrailPost;
  railHeight : Q;
  postSpacing : Q
}.

Section Code.

Variable random : nat -> Q.

Let rnd := JS.Math_random random.

Definition createGuardrails (g : t) : JS.M t :=
  let postCount :=
    (Qceiling (Canvas.width (canvas g) / postSpacing g) + 1)%Z in
  posts1 <- JS.for_push (Z.to_nat postCount) 0
              (fun i =>
                 let baseX := inject_Z (Z.of_nat i) * postSpacing g - 50 in
                 r1 <- rnd ;;
                 let x := baseX + (r1 - 0.5) * 20 in
                 let groundY := Canvas.height (canvas g) - 80 in
                 let railY := groundY - railHeight g in
                 r2 <- rnd ;;
                 JS.ret (mkPost x railY (railHeight g) 8 (r2 * 0.3 + 0.1)))
              [] ;;
  JS.ret (mk (canvas g) posts1 (railHeight g) (postSpacing g)).

Definition new (canvas : Canvas.t) : JS.M t :=
  createGuardrails (mk canvas [] 50 150).

Definition onCanvasResize (g : t) : JS.M t :=
  createGuardrails (mk (canvas g) [] (railHeight g) (postSpacing g)).

End Code.

(** [drawPosts] leaves out the posts that are off the screen. *)
Definition drawn (g : t) (post : GuardrailPost) : bool :=
  negb (Qltb (x post) (- 20) || Qltb (Canvas.width (canvas g) + 20) (x post)).

End Guardrails.

(** ** The StreetLamps class (streetLamps.ts) *)

Module StreetLamps.

Record StreetLamp := mkLamp {
  x : Q;
  y : Q;
  height : Q;
  poleWidth : Q;
  lightIntensity : Q;
  flickerPhase : Q;
  lightRadius : Q
}.

Record t := mk {
  canvas : Canvas.t;
  lamps : list StreetLamp;
  lampCount : nat;
  lampHeight : Q
}.

Section Code.

Variable random : nat -> Q.

Let rnd := JS.Math_random random.

(** [positions[i]] is [undefined] past the second entry; the loop never gets
    there, since [lampCount] is 2. *)
Definition createStreetLamps (s : t) : JS.M t :=
  let groundY := Canvas.height (canvas s) - 80 in
  let lampY := groundY - lampHeight s in
  let positions :=
    [Canvas.width (canvas s) * 0.25; Canvas.width (canvas s) * 0.75] in
  lamps1 <- JS.for_push (lampCount s) 0
              (fun i =>
                 let baseX := nth i positions 0 in
                 r1 <- rnd ;;
                 let x := baseX + (r1 - 0.5) * 20 in
                 r2 <- rnd ;;
                 JS.ret (mkLamp x lampY (lampHeight s) 24 0.9 0
                           (400 + r2 * 80)))
              [] ;;
  JS.ret (mk (canvas s) lamps1 (lampCount s) (lampHeight s)).

Definition new (canvas : Canvas.t) : JS.M t :=
  createStreetLamps (mk canvas [] 2 700).

Definition onCanvasResize (s : t) : JS.M t :=
  createStreetLamps (mk (canvas s) [] (lampCount s) (lampHeight s)).

(** The lamps do not move. *)
Definition update (s : t) (deltaTime : Q) : t := s.

End Code.

End StreetLamps.

(** ** The first Ground class (ground.ts): splashes only *)

Module SimpleGround.

Module Splash.

Record t := mk {
  x : Q;
  y : Q;
  velocityX : Q;
  velocityY : Q;
  life : Q;
  maxLife : Q;
  size : Q
}.

End Splash.

Record t := mk {
  canvas : Canvas.t;
  groundHeight : Q;
  splashes : list Splash.t
}.

Definition getGroundY (g : t) : Q := Canvas.height (canvas g) - groundHeight g.

Definition new (canvas : Canvas.t) : t := mk canvas 80 [].

Section Code.

Variable random : nat -> Q.

Let rnd := JS.Math_random random.

Definition addSplash (g : t) (x y : Q) : JS.M t :=
  r <- rnd ;;
  let particleCount := (3 + Qfloor (r * 4))%Z in
  pushed <- JS.for_push (Z.to_nat particleCount) 0
              (fun _ =>
                 r1 <- rnd ;;
                 r2 <- rnd ;;
                 r3 <- rnd ;;
                 r4 <- rnd ;;
                 r5 <- rnd ;;
                 JS.ret (Splash.mk (x + (r1 - 0.5) * 8) y ((r2 - 0.5) * 60)
                           (- 20 - r3 * 30) 1.0 (0.3 + r4 * 0.4) (1 + r5 * 2)))
              (splashes g) ;;
  let splashes1 :=
    if (200 <? List.length pushed)%nat then slice_last 150 pushed
    else pushed in
  JS.ret (mk (canvas g) (groundHeight g) splashes1).

(** One frame of a splash particle. *)
Definition step (deltaTime : Q) (s : Splash.t) : Splash.t :=
  let x1 := Splash.x s + Splash.velocityX s * deltaTime * 0.001 in
  let y1 := Splash.y s + Splash.velocityY s * deltaTime * 0.001 in
  let velocityY1 := Splash.velocityY s + 980 * deltaTime * 0.001 in
  let velocityX2 := Splash.velocityX s * 0.98 in
  let velocityY2 := velocityY1 * 0.995 in
  let life1 := Splash.life s - deltaTime * 0.001 / Splash.maxLife s in
  Splash.mk x1 y1 velocityX2 velocityY2 life1 (Splash.maxLife s)
    (Splash.size s).

Definition update (g : t) (deltaTime : Q) : t :=
  mk (canvas g) (groundHeight g)
     (filter_step (step deltaTime)
        (fun splash =>
           Qltb 0 (Splash.life splash) &&
           Qltb (Splash.y splash) (getGroundY g + 10))
        (splashes g)).

End Code.

End SimpleGround.

(** ** The puddle-aware Ground class *)

Module Ground.

Module Splash.

Record t := mk {
  x : Q;
  y : Q;
  velocityX : Q;
  velocityY : Q;
  life : Q;
  maxLife : Q;
  size : Q;
  impactY : Q
}.

End Splash.

Module Ripple.

Record t := mk {
  x : Q;
  y : Q;
  radius : Q;
  opacity : Q;
  maxRadius : Q;
  time : Q
}.

End Ripple.

Module Puddle.

(** The extra properties of the compound puddle. *)
Record Compound := mkCompound {
  smallerWidth : Q;
  smallerHeight : Q;
  overlapOffset : Q
}.

(** [compound] is [Some _] exactly when [isCompound] is set. *)
Record t := mk {
  x : Q;
  width : Q;
  height : Q;
  ripples : list Ripple.t;
  compound : option Compound
}.

Definition isCompound (p : t) : bool :=
  match compound p with Some _ => true | None => false end.

End Puddle.

Record t := mk {
  canvas : Canvas.t;
  groundHeight : Q;
  splashes : list Splash.t;
  puddles : list Puddle.t
}.

Definition getGroundY (g : t) : Q := Canvas.height (canvas g) - groundHeight g.

Definition getMaxPuddleHeight (g : t) : Q :=
  match puddles g with
  | [] => 20
  | p :: rest =>
      fold_left (fun m q => Qmax m (Puddle.height q)) rest (Puddle.height p)
  end.

(** The bounds check that ends [createPuddles]. *)
Definition keepOnScreen (screenWidth : Q) (puddle : Puddle.t) : Puddle.t :=
  let x1 := if Qltb (Puddle.x puddle) 10 then 10 else Puddle.x puddle in
  let x2 :=
    if Qltb (screenWidth - 10) (x1 + Puddle.width puddle)
    then screenWidth - Puddle.width puddle - 10
    else x1 in
  Puddle.mk x2 (Puddle.width puddle) (Puddle.height puddle)
    (Puddle.ripples puddle) (Puddle.compound puddle).

(** The test of one puddle in the loop of [addSplash]. *)
Definition hits (groundY x y : Q) (puddle : Puddle.t) : bool :=
  match Puddle.compound puddle with
  | Some c =>
      let mainLeft := Puddle.x puddle in
      let mainRight := Puddle.x puddle + Puddle.width puddle in
      let smallerWidth := Puddle.smallerWidth c in
      let overlapOffset := Puddle.overlapOffset c in
      let smallerLeft := Puddle.x puddle + overlapOffset in
      let smallerRight := smallerLeft + smallerWidth in
      let hitMain := Qleb mainLeft x && Qleb x mainRight in
      let hitSmaller := Qleb smallerLeft x && Qleb x smallerRight in
      let puddleBottom := groundY + Puddle.height puddle + 5 in
      (hitMain || hitSmaller) && Qltb groundY y && Qleb y puddleBottom
  | None =>
      let puddleLeft := Puddle.x puddle in
      let puddleRight := Puddle.x puddle + Puddle.width puddle in
      let puddleBottom := groundY + Puddle.height puddle + 5 in
      Qleb puddleLeft x && Qleb x puddleRight &&
      Qltb groundY y && Qleb y puddleBottom
  end.

Definition addRipple (puddle : Puddle.t) (x y : Q) : Puddle.t :=
  let puddleCenterX := Puddle.x puddle + Puddle.width puddle / 2 in
  let avgPuddleSize := (Puddle.width puddle + Puddle.height puddle) / 2 in
  let maxRadius :=
    Qmin (Qmin (Puddle.width puddle * 0.4) (Puddle.height puddle * 0.4))
         (avgPuddleSize * 0.6) in
  let pushed :=
    Puddle.ripples puddle
    ++ [Ripple.mk (x - puddleCenterX) 0 0 1 maxRadius 0] in
  let ripples1 :=
    if (6 <? List.length pushed)%nat then tl pushed else pushed in
  Puddle.mk (Puddle.x puddle) (Puddle.width puddle) (Puddle.height puddle)
    ripples1 (Puddle.compound puddle).

(** The loop over the puddles in [addSplash], up to its [break]: the
    puddles afterwards, and whether one was hit. *)
Fixpoint hitFirst (groundY x y : Q) (puddles : list Puddle.t)
  : list Puddle.t * bool :=
  match puddles with
  | [] => ([], false)
  | puddle :: rest =>
      if hits groundY x y puddle then (addRipple puddle x y :: rest, true)
      else
        let (rest1, hitPuddle) := hitFirst groundY x y rest in
        (puddle :: rest1, hitPuddle)
  end.

(** One frame of a splash particle, and whether it stays. *)
Definition step (deltaTime : Q) (s : Splash.t) : Splash.t :=
  let x1 := Splash.x s + Splash.velocityX s * deltaTime * 0.001 in
  let y1 := Splash.y s + Splash.velocityY s * deltaTime * 0.001 in
  let velocityY1 := Splash.velocityY s + 980 * deltaTime * 0.001 in
  let velocityX2 := Splash.velocityX s * 0.98 in
  let velocityY2 := velocityY1 * 0.995 in
  let life1 := Splash.life s - deltaTime * 0.001 / Splash.maxLife s in
  Splash.mk x1 y1 velocityX2 velocityY2 life1 (Splash.maxLife s)
    (Splash.size s) (Splash.impactY s).

Definition stays (splash : Splash.t) : bool :=
  Qltb 0 (Splash.life splash) && Qleb (Splash.y splash) (Splash.impactY splash).

(** One frame of a ripple, and whether it stays. *)
Definition spread (deltaTime : Q) (r : Ripple.t) : Ripple.t :=
  let time1 := Ripple.time r + deltaTime * 0.001 in
  let radius1 := time1 * 20 in
  let opacity1 := Qmax 0 (1 - time1 * 1.2) in
  Ripple.mk (Ripple.x r) (Ripple.y r) radius1 opacity1 (Ripple.maxRadius r)
    time1.

Definition visible (ripple : Ripple.t) : bool :=
  Qltb (Ripple.radius ripple) (Ripple.maxRadius ripple) &&
  Qltb 0 (Ripple.opacity ripple).

Definition updateRipples (deltaTime : Q) (puddle : Puddle.t) : Puddle.t :=
  Puddle.mk (Puddle.x puddle) (Puddle.width puddle) (Puddle.height puddle)
    (filter_step (spread deltaTime) visible (Puddle.ripples puddle))
    (Puddle.compound puddle).

Definition update (g : t) (deltaTime : Q) : t :=
  mk (canvas g) (groundHeight g)
     (filter_step (step deltaTime) stays (splashes g))
     (map (updateRipples deltaTime) (puddles g)).

(** The scene resizes the canvas that the ground was given. *)
Definition canvasResized (g : t) (c : Canvas.t) : t :=
  mk c (groundHeight g) (splashes g) (puddles g).

Section Code.

Variable random : nat -> Q.

Let rnd := JS.Math_random random.

(** Three puddles: medium, compound, small; then the bounds check. *)
Definition createPuddles (canvas : Canvas.t) : JS.M (list Puddle.t) :=
  let screenWidth := Canvas.width canvas in
  let section1 := screenWidth * 0.2 in
  let section2 := screenWidth * 0.5 in
  let section3 := screenWidth * 0.8 in
  r1 <- rnd ;;
  let mediumWidth := 120 + r1 * 40 in
  r2 <- rnd ;;
  let mediumHeight := 20 + r2 * 10 in
  let medium :=
    Puddle.mk (section1 - mediumWidth / 2) mediumWidth mediumHeight [] None in
  r3 <- rnd ;;
  let mainWidth := 220 + r3 * 60 in
  r4 <- rnd ;;
  let mainHeight := 35 + r4 * 15 in
  let compoundX := section2 - mainWidth / 2 in
  r5 <- rnd ;;
  r6 <- rnd ;;
  let main :=
    Puddle.mk compoundX mainWidth mainHeight []
      (Some (Puddle.mkCompound (80 + r5 * 30) (18 + r6 * 12)
               (mainWidth * 0.7))) in
  r7 <- rnd ;;
  let smallWidth := 50 + r7 * 30 in
  r8 <- rnd ;;
  let smallHeight := 12 + r8 * 6 in
  let small :=
    Puddle.mk (section3 - smallWidth / 2) smallWidth smallHeight [] None in
  JS.ret (map (keepOnScreen screenWidth) [medium; main; small]).

Definition new (canvas : Canvas.t) : JS.M t :=
  puddles1 <- createPuddles canvas ;;
  JS.ret (mk canvas 80 [] puddles1).

Definition onCanvasResize (g : t) : JS.M t :=
  puddles1 <- createPuddles (canvas g) ;;
  JS.ret (mk (canvas g) (groundHeight g) (splashes g) puddles1).

(** The particles that [createSplashParticles] pushes, before the cap. *)
Definition pushSplashParticles (x y : Q) (splashes : list Splash.t)
  : JS.M (list Splash.t) :=
  r <- rnd ;;
  let particleCount := (3 + Qfloor (r * 4))%Z in
  JS.for_push (Z.to_nat particleCount) 0
    (fun _ =>
       r1 <- rnd ;;
       r2 <- rnd ;;
       r3 <- rnd ;;
       r4 <- rnd ;;
       r5 <- rnd ;;
       JS.ret (Splash.mk (x + (r1 - 0.5) * 8) y ((r2 - 0.5) * 60)
                 (- 20 - r3 * 30) 1.0 (0.3 + r4 * 0.4) (1 + r5 * 2) y))
    splashes.

(** The cap that ends [createSplashParticles]. *)
Definition capSplashes (splashes : list Splash.t) : list Splash.t :=
  if (200 <? List.length splashes)%nat then slice_last 150 splashes
  else splashes.

Definition createSplashParticles (x y : Q) (splashes : list Splash.t)
  : JS.M (list Splash.t) :=
  pushed <- pushSplashParticles x y splashes ;;
  JS.ret (capSplashes pushed).

(** [maxPuddleHeight] and [puddleDepthRange] are computed by the source and
    never read; they are not computed here. *)
Definition addSplash (g : t) (x y : Q) : JS.M t :=
  let groundY := getGroundY g in
  let (puddles1, hitPuddle) := hitFirst groundY x y (puddles g) in
  splashes1 <-
    (if hitPuddle then createSplashParticles x y (splashes g)
     else JS.ret (splashes g)) ;;
  splashes2 <-
    (if negb hitPuddle && Qltb groundY y
     then createSplashParticles x y splashes1
     else JS.ret splashes1) ;;
  JS.ret (mk (canvas g) (groundHeight g) splashes2 puddles1).

(** The states of the ground: constructed, then impacts, frames and
    resizes in any order.  Rendering draws random numbers for the ground
    texture and changes nothing else, so every step may start in any
    world. *)
Inductive reachable : t -> Prop :=
  | reach_new : forall c w, reachable (fst (new c w))
  | reach_addSplash : forall g x y w,
      reachable g -> reachable (fst (addSplash g x y w))
  | reach_update : forall g dt, reachable g -> reachable (update g dt)
  | reach_canvas : forall g c, reachable g -> reachable (canvasResized g c)
  | reach_resize : forall g w,
      reachable g -> reachable (fst (onCanvasResize g w)).

End Code.

(** The horizontal test of the specification: [x] lies in the span of the
    puddle, or, for the compound puddle, in the span of its smaller part. *)
Definition withinSpan (x : Q) (puddle : Puddle.t) : Prop :=
  Puddle.x puddle <= x <= Puddle.x puddle + Puddle.width puddle \/
  match Puddle.compound puddle with
  | Some c =>
      Puddle.x puddle + Puddle.overlapOffset c <= x
      <= Puddle.x puddle + Puddle.overlapOffset c + Puddle.smallerWidth c
  | None => False
  end.

(** The hit test of the specification: within the span, strictly below the
    ground line, and no deeper than the puddle's height plus 5. *)
Definition inPuddle (groundY x y : Q) (puddle : Puddle.t) : Prop :=
  withinSpan x puddle /\
  groundY < y /\ y <= groundY + Puddle.height puddle + 5.

(** The ripple that an impact at [x] starts on a puddle: at the offset of
    [x] from the centre of the puddle, with radius 0, full opacity, and a
    greatest radius in proportion to the puddle. *)
Definition ripplesFrom (x : Q) (puddle : Puddle.t) (r : Ripple.t) : Prop :=
  Ripple.x r = x - (Puddle.x puddle + Puddle.width puddle / 2) /\
  Ripple.y r = 0 /\
  Ripple.radius r = 0 /\
  Ripple.opacity r = 1 /\
  Ripple.time r = 0 /\
  Ripple.maxRadius r
  = Qmin (Qmin (Puddle.width puddle * 0.4) (Puddle.height puddle * 0.4))
         ((Puddle.width puddle + Puddle.height puddle) / 2 * 0.6).

(** Three to six particles were pushed at the point of impact, and the pool
    was capped. *)
Definition spawned (y : Q) (before after : list Splash.t) : Prop :=
  exists fresh,
    (3 <= List.length fresh <= 6)%nat /\
    Forall (fun s => Splash.y s = y /\ Splash.impactY s = y) fresh /\
    after = (if (200 <? List.length (before ++ fresh))%nat
             then slice_last 150 (before ++ fresh)
             else before ++ fresh).

(** The three kinds of puddle that [createPuddles] makes. *)
Definition medium (p : Puddle.t) : Prop :=
  Puddle.compound p = None /\
  120 <= Puddle.width p <= 160 /\
  20 <= Puddle.height p <= 30.

Definition twofold (p : Puddle.t) : Prop :=
  exists c,
    Puddle.compound p = Some c /\
    220 <= Puddle.width p <= 280 /\
    35 <= Puddle.height p <= 50 /\
    80 <= Puddle.smallerWidth c <= 110 /\
    18 <= Puddle.smallerHeight c <= 30 /\
    Puddle.overlapOffset c == Puddle.width p * 0.7.

Definition small (p : Puddle.t) : Prop :=
  Puddle.compound p = None /\
  50 <= Puddle.width p <= 80 /\
  12 <= Puddle.height p <= 18.

(** A medium puddle, the compound one, and a small one, in that order. *)
Definition laidOut (puddles : list Puddle.t) : Prop :=
  exists a b c,
    puddles = [a; b; c] /\ medium a /\ twofold b /\ small c.

(** The bounds check: the right edge is at least 10 inside the screen, and
    so is the left edge on a screen at least 300 wide. *)
Definition onScreen (screenWidth : Q) (p : Puddle.t) : Prop :=
  Puddle.x p + Puddle.width p <= screenWidth - 10 /\
  (300 <= screenWidth -> 10 <= Puddle.x p).

(** Two states of one puddle: only the ripples may differ. *)
Definition sameBasin (p p1 : Puddle.t) : Prop :=
  Puddle.x p1 = Puddle.x p /\
  Puddle.width p1 = Puddle.width p /\
  Puddle.height p1 = Puddle.height p /\
  Puddle.compound p1 = Puddle.compound p.

(** The ripples of a puddle: six at most, each capped at 0.4 times the
    height of the puddle, smaller than its cap and not yet transparent. *)
Definition rippling (p : Puddle.t) : Prop :=
  (List.length (Puddle.ripples p) <= 6)%nat /\
  forall r, In r (Puddle.ripples p) ->
    Ripple.maxRadius r == Puddle.height p * 0.4 /\
    Ripple.radius r < Ripple.maxRadius r /\
    0 < Ripple.opacity r.

(** A particle as [createSplashParticles] launches it from (x, y): upwards,
    with full life. *)
Definition launched (x y : Q) (s : Splash.t) : Prop :=
  - 4 <= Splash.x s - x <= 4 /\
  Splash.y s = y /\
  Splash.impactY s = y /\
  - 30 <= Splash.velocityX s < 30 /\
  - 50 <= Splash.velocityY s <= - 20 /\
  Splash.life s == 1 /\
  0.3 <= Splash.maxLife s < 0.7 /\
  1 <= Splash.size s <= 3.

(** A particle of the pool: it has life left, is not below the point it was
    launched from, and its lifetime and size are in their ranges. *)
Definition alive (s : Splash.t) : Prop :=
  0 < Splash.life s /\
  Splash.y s <= Splash.impactY s /\
  0.3 <= Splash.maxLife s < 0.7 /\
  1 <= Splash.size s <= 3.

(** What a ripple made by [addRipple] and moved by [update] satisfies. *)
Definition timed (r : Ripple.t) : Prop :=
  Ripple.radius r == Ripple.time r * 20 /\
  Ripple.opacity r == Qmax 0 (1 - Ripple.time r * 1.2).

(** What construction, impacts, frames and resizes keep true. *)
Definition sound (g : t) : Prop :=
  (List.length (splashes g) <= 200)%nat /\
  forall p r, In p (puddles g) -> In r (Puddle.ripples p) -> timed r.

End Ground.

(** ** The variant with sound: AudioManager and its RainScene *)

(** The AudioManager.  The sound itself (the samples in the buffers, the
    sources that play them) is not modelled; what is kept is whether audio
    is enabled, whether the rain is playing, the volumes, and in [nodes]
    the values last set on the gain nodes and on the filter.  The
    constructor makes the audio context, the nodes and the buffers in one
    try block, and the model takes them to be made all or none: [nodes] is
    [None] when the Web Audio API is not available, and then there is no
    context and there are no buffers either.  [rainSource] is not null
    whenever [isRainPlaying] is set, so it needs no field of its own. *)
Module AudioManager.

Record Nodes := mkNodes {
  masterGain : Q;
  rainGain : Q;
  filterFrequency : Q
}.

Record t := mk {
  nodes : option Nodes;
  isEnabled : bool;
  isRainPlaying : bool;
  masterVolume : Q;
  rainVolume : Q;
  thunderVolume : Q
}.

(** Whether there is an audio context, a rain buffer, and how many thunder
    buffers there are. *)
Definition audioContext (a : t) : bool :=
  match nodes a with Some _ => true | None => false end.

Definition rainBuffer (a : t) : bool := audioContext a.

Definition thunderBuffers (a : t) : nat :=
  if audioContext a then 3%nat else 0%nat.

(** The constructor, with [createAudioNodes]. *)
Definition new (supported : bool) : t :=
  let masterVolume0 := 0.7 in
  let rainVolume0 := 0.5 in
  let thunderVolume0 := 0.8 in
  mk (if supported then Some (mkNodes masterVolume0 rainVolume0 2000)
      else None)
     true false masterVolume0 rainVolume0 thunderVolume0.

(** [startRain]; [started] says whether the calls of the Web Audio API in
    its try block succeed. *)
Definition startRain (a : t) (started : bool) : t :=
  if negb (isEnabled a) || negb (audioContext a) || negb (rainBuffer a)
     || isRainPlaying a
  then a
  else if started
  then mk (nodes a) (isEnabled a) true (masterVolume a) (rainVolume a)
          (thunderVolume a)
  else a.

(** [stopRain]; [stopped] says whether the calls in its try block
    succeed. *)
Definition stopRain (a : t) (stopped : bool) : t :=
  if isRainPlaying a && stopped
  then mk (nodes a) (isEnabled a) false (masterVolume a) (rainVolume a)
          (thunderVolume a)
  else a.

Definition updateRainIntensity (a : t) (level : Q) : t :=
  match nodes a with
  | None => a
  | Some n =>
      let intensityVolume := Qmin 1 (level / 10 * 1.5) in
      let filterFreq := 1000 + level * 300 in
      mk (Some (mkNodes (masterGain n) (rainVolume a * intensityVolume)
                  filterFreq))
         (isEnabled a) (isRainPlaying a) (masterVolume a) (rainVolume a)
         (thunderVolume a)
  end.

Definition setMasterVolume (a : t) (volume : Q) : t :=
  let masterVolume1 := Qmax 0 (Qmin 1 volume) in
  mk (match nodes a with
      | Some n =>
          Some (mkNodes masterVolume1 (rainGain n) (filterFrequency n))
      | None => None
      end)
     (isEnabled a) (isRainPlaying a) masterVolume1 (rainVolume a)
     (thunderVolume a).

Definition toggleAudio (a : t) (stopped : bool) : t :=
  let a1 :=
    mk (nodes a) (negb (isEnabled a)) (isRainPlaying a) (masterVolume a)
       (rainVolume a) (thunderVolume a) in
  if negb (isEnabled a1) then stopRain a1 stopped else a1.

(** [playThunder] draws a random number to pick one of the thunder buffers
    and plays it; it changes no field. *)
Definition playThunder (random : nat -> Q) (a : t) : JS.M t :=
  if negb (isEnabled a) || negb (audioContext a)
     || (thunderBuffers a =? 0)%nat
  then JS.ret a
  else
    r <- JS.Math_random random ;;
    let randomIndex := Qfloor (r * inject_Z (Z.of_nat (thunderBuffers a))) in
    JS.ret a.

(** The gain of the rain and the frequency of its filter that
    [updateRainIntensity] sets for a level. *)
Definition tuned (a : t) (level : Z) (n : Nodes) : Prop :=
  rainGain n == rainVolume a * Qmin 1 (inject_Z level * 0.15) /\
  filterFrequency n == 1000 + inject_Z level * 300.

(** What the scene keeps true of the settings of the sound at a level: the
    rain volume is 0.5, the master volume lies within 0 and 1 and is the
    master gain, and the gain of the rain and the frequency of its filter
    are as constructed or are the ones of the level. *)
Definition settled (a : t) (level : Z) : Prop :=
  rainVolume a = 0.5 /\
  0 <= masterVolume a <= 1 /\
  forall n, nodes a = Some n ->
    masterGain n = masterVolume a /\
    ((rainGain n = 0.5 /\ filterFrequency n = 2000) \/ tuned a level n).

End AudioManager.

(** The RainScene class of the variant with sound.  The status texts it
    writes into the page and what it draws are not modelled. *)
Module SoundScene.

Record t := mk {
  canvas : Canvas.t;
  raindrops : list Raindrop.t;
  lightning : Lightning.t;
  audioManager : AudioManager.t;
  lastTime : Q;
  rainEnabled : bool;
  lightningEnabled : bool;
  intensityLevel : Z;         (* rain level *)
  baseRainCount : Z;          (* raindrops per level *)
  rainIntensity : Z;          (* number of raindrops *)
  stars : list RainScene.Star
}.

(** The scene after a call on its AudioManager. *)
Definition withAudioManager (s : t) (a : AudioManager.t) : t :=
  mk (canvas s) (raindrops s) (lightning s) a (lastTime s) (rainEnabled s)
     (lightningEnabled s) (intensityLevel s) (baseRainCount s)
     (rainIntensity s) (stars s).

Section Code.

Variable random : nat -> Q.
Variable clock : nat -> Q.
Variable sin : Q -> Q.

(** [window.innerWidth] and [window.innerHeight] are the arguments. *)
Definition resizeCanvas (s : t) (innerWidth innerHeight : Q) : JS.M t :=
  let c := Canvas.mk innerWidth innerHeight in
  stars1 <- RainScene.createStars random c ;;
  drops1 <- RainScene.createRain random c (rainIntensity s) ;;
  JS.ret (mk c drops1 (lightning s) (audioManager s) (lastTime s)
             (rainEnabled s) (lightningEnabled s) (intensityLevel s)
             (baseRainCount s) (rainIntensity s) stars1).

(** The constructor, from the AudioManager it has just constructed: the
    world is the one that construction leaves, after the sound buffers have
    been filled with noise.  [started] is the argument of the [startRain]
    that ends the constructor. *)
Definition new (manager : AudioManager.t) (innerWidth innerHeight : Q)
  (started : bool) : JS.M t :=
  l <- Lightning.new random true ;;
  let level := 1%Z in
  let base := 100%Z in
  let s0 :=
    mk (Canvas.mk innerWidth innerHeight) [] l manager 0 true true
       level base (base * level) [] in
  s1 <- resizeCanvas s0 innerWidth innerHeight ;;
  stars2 <- RainScene.createStars random (canvas s1) ;;
  drops2 <- RainScene.createRain random (canvas s1) (rainIntensity s1) ;;
  let manager1 :=
    if rainEnabled s1 then AudioManager.startRain (audioManager s1) started
    else audioManager s1 in
  JS.ret (mk (canvas s1) drops2 (lightning s1) manager1
             (lastTime s1) (rainEnabled s1) (lightningEnabled s1)
             (intensityLevel s1) (baseRainCount s1) (rainIntensity s1)
             stars2).

(** [enableAudioAndStartRain], which the handlers of every control but the
    rain toggle await first.  Resuming the audio context changes no field
    that is modelled. *)
Definition enableAudioAndStartRain (s : t) (started : bool) : t :=
  if rainEnabled s && negb (AudioManager.isRainPlaying (audioManager s))
  then withAudioManager s (AudioManager.startRain (audioManager s) started)
  else s.

Definition changeIntensityLevel (s : t) (delta : Z) : JS.M t :=
  let newLevel := Z.max 1 (Z.min 10 (intensityLevel s + delta)) in
  if negb (newLevel =? intensityLevel s)%Z then
    let newIntensity := (baseRainCount s * newLevel)%Z in
    drops1 <-
      (if (rainIntensity s <? newIntensity)%Z then
         let toAdd := (newIntensity - rainIntensity s)%Z in
         JS.for_push (Z.to_nat toAdd) 0
           (fun _ =>
              Raindrop.new random (Canvas.width (canvas s))
                (Canvas.height (canvas s)))
           (raindrops s)
       else if (newIntensity <? rainIntensity s)%Z then
         JS.ret (firstn (Z.to_nat newIntensity) (raindrops s))
       else JS.ret (raindrops s)) ;;
    JS.ret (mk (canvas s) drops1 (lightning s)
               (AudioManager.updateRainIntensity (audioManager s)
                  (inject_Z newLevel))
               (lastTime s) (rainEnabled s) (lightningEnabled s) newLevel
               (baseRainCount s) newIntensity (stars s))
  else JS.ret s.

(** The rain toggle, after its await; [ok] says whether the calls of the
    Web Audio API in [startRain] or [stopRain] succeed. *)
Definition toggleRain (s : t) (ok : bool) : t :=
  let rainEnabled1 := negb (rainEnabled s) in
  mk (canvas s) (raindrops s) (lightning s)
     (if rainEnabled1 then AudioManager.startRain (audioManager s) ok
      else AudioManager.stopRain (audioManager s) ok)
     (lastTime s) rainEnabled1 (lightningEnabled s) (intensityLevel s)
     (baseRainCount s) (rainIntensity s) (stars s).

(** The other controls, after their await of [enableAudioAndStartRain]. *)
Definition toggleLightning (s : t) : t :=
  mk (canvas s) (raindrops s) (lightning s) (audioManager s) (lastTime s)
     (rainEnabled s) (negb (lightningEnabled s)) (intensityLevel s)
     (baseRainCount s) (rainIntensity s) (stars s).

Definition toggleAudio (s : t) (stopped : bool) : t :=
  withAudioManager s (AudioManager.toggleAudio (audioManager s) stopped).

Definition setVolume (s : t) (volume : Q) : t :=
  withAudioManager s (AudioManager.setMasterVolume (audioManager s) volume).

(** The callback that the lightning was constructed with, run by the timer
    of a strike. *)
Definition playThunder (s : t) : JS.M t :=
  a1 <- AudioManager.playThunder random (audioManager s) ;;
  JS.ret (withAudioManager s a1).

Definition update (s : t) (currentTime : Q) : JS.M t :=
  let deltaTime := currentTime - lastTime s in
  l1 <-
    (if lightningEnabled s then
       Lightning.update random clock (lightning s)
         (Canvas.width (canvas s)) (Canvas.height (canvas s)) deltaTime
     else JS.ret (lightning s)) ;;
  drops1 <-
    (if rainEnabled s then
       JS.forEach
         (fun raindrop =>
            let raindrop1 :=
              Raindrop.update sin raindrop (Canvas.height (canvas s)) in
            if Raindrop.isOutOfBounds raindrop1 (Canvas.height (canvas s))
            then Raindrop.reset random raindrop1 (Canvas.width (canvas s))
            else JS.ret raindrop1)
         (raindrops s)
     else JS.ret (raindrops s)) ;;
  JS.ret (mk (canvas s) drops1 l1 (audioManager s) currentTime
             (rainEnabled s) (lightningEnabled s) (intensityLevel s)
             (baseRainCount s) (rainIntensity s) (stars s)).

(** [start] at the time [now] that [performance.now()] returns: the first
    frame, at that same time. *)
Definition start (s : t) (now : Q) : JS.M t :=
  update
    (mk (canvas s) (raindrops s) (lightning s) (audioManager s) now
        (rainEnabled s) (lightningEnabled s) (intensityLevel s)
        (baseRainCount s) (rainIntensity s) (stars s))
    now.

(** The states of the scene: constructed, then started, and frames, window
    resizes, the controls and the thunder of a strike in any order.  The
    handler of every control but the rain toggle awaits
    [enableAudioAndStartRain] before it acts; frames and other handlers
    can run in between, so that first half is a step of its own. *)
Inductive reachable : t -> Prop :=
  | reach_new : forall supported iw ih started w,
      reachable (fst (new (AudioManager.new supported) iw ih started w))
  | reach_start : forall s now w,
      reachable s -> reachable (fst (start s now w))
  | reach_update : forall s time w,
      reachable s -> reachable (fst (update s time w))
  | reach_resize : forall s iw ih w,
      reachable s -> reachable (fst (resizeCanvas s iw ih w))
  | reach_enableAudio : forall s started,
      reachable s -> reachable (enableAudioAndStartRain s started)
  | reach_toggleRain : forall s ok,
      reachable s -> reachable (toggleRain s ok)
  | reach_toggleLightning : forall s,
      reachable s -> reachable (toggleLightning s)
  | reach_increase : forall s w,
      reachable s -> reachable (fst (changeIntensityLevel s 1 w))
  | reach_decrease : forall s w,
      reachable s -> reachable (fst (changeIntensityLevel s (-1) w))
  | reach_toggleAudio : forall s stopped,
      reachable s -> reachable (toggleAudio s stopped)
  | reach_volume : forall s volume,
      reachable s -> reachable (setVolume s volume)
  | reach_thunder : forall s w,
      reachable s -> reachable (fst (playThunder s w)).

End Code.

(** What the scene keeps true of its population: the level is between 1
    and 10 and there are 100 raindrops per level. *)
Definition leveled (s : t) : Prop :=
  (1 <= intensityLevel s <= 10)%Z /\
  baseRainCount s = 100%Z /\
  rainIntensity s = (100 * intensityLevel s)%Z /\
  Z.of_nat (List.length (raindrops s)) = rainIntensity s.

End SoundScene.

(** ** A host to run the model on *)

Module Sample.

(** Every call of [Math.random()] returns one half. *)
Definition random : nat -> Q := fun _ => 0.5.

(** [Date.now()] advances by 16 ms per call. *)
Definition clock : nat -> Q := fun k => 16 * inject_Z (Z.of_nat k).

(** A stand-in for [Math.sin]. *)
Definition sin : Q -> Q := fun _ => 0.

(** A raindrop fresh from the constructor on an 800 x 600 canvas. *)
Definition drop : Raindrop.t := fst (Raindrop.new random 800 600 JS.start).

(** A raindrop of length 10 that has reached its terminal velocity and has
    fallen below a canvas of height 600. *)
Definition fallen : Raindrop.t := Raindrop.mk 400 615 10 10 0.4 1 10 0.3 10 1.

(** A lightning object just after an explicit strike. *)
Definition struck : Lightning.t :=
  fst (Lightning.strike random clock (fst (Lightning.new random false JS.start))
         800 600 JS.start).

(** Three moments of one flash of intensity 0.6: 10, 20 and 110 ms after the
    strike. *)
Definition rising : Lightning.t :=
  Lightning.mk true 10 200 0.6 [] 0 6000 false.

Definition peak : Lightning.t :=
  Lightning.mk true 20 200 0.6 [] 0 6000 false.

Definition fading : Lightning.t :=
  Lightning.mk true 110 200 0.6 [] 0 6000 false.

(** The puddle-aware ground of an 800 x 600 canvas (ground line at 520),
    and the same ground after a raindrop has struck dry ground at
    (20, 521). *)
Definition ground : Ground.t :=
  fst (Ground.new random (Canvas.mk 800 600) JS.start).

Definition struckGround : Ground.t :=
  fst (Ground.addSplash random ground 20 521 JS.start).

(** One of the particles of that splash. *)
Definition particle : Ground.Splash.t :=
  hd (Ground.Splash.mk 0 0 0 0 0 0 0 0) (Ground.splashes struckGround).

(** The first puddle of [ground] (it spans 90 to 230), and the ground after
    a raindrop has struck it at (160, 521). *)
Definition medium : Ground.Puddle.t :=
  hd (Ground.Puddle.mk 0 0 0 [] None) (Ground.puddles ground).

Definition wetGround : Ground.t :=
  fst (Ground.addSplash random ground 160 521 JS.start).

Definition wetMedium : Ground.Puddle.t :=
  hd (Ground.Puddle.mk 0 0 0 [] None) (Ground.puddles wetGround).

(** The first ground of the same canvas. *)
Definition simpleGround : SimpleGround.t :=
  SimpleGround.new (Canvas.mk 800 600).

(** A scene just constructed in an 800 x 600 window. *)
Definition scene : RainScene.t := fst (RainScene.new random 800 600 JS.start).

(** A scene of the variant with sound, in the same window, with the Web
    Audio API available. *)
Definition soundScene : SoundScene.t :=
  fst (SoundScene.new random (AudioManager.new true) 800 600 true JS.start).

End Sample.

(** * Properties *)

(** ** Comparisons *)

Lemma Qleb_le (a b : Q) : Qleb a b = true <-> a <= b.
Proof. apply Qle_bool_iff. Qed.

Lemma Qleb_gt (a b : Q) : Qleb a b = false <-> b < a.
Proof.
  unfold Qleb. split; intro H.
  - apply Qnot_le_lt. intro L. apply Qle_bool_iff in L. congruence.
  - destruct (Qle_bool a b) eqn:E; [|reflexivity].
    apply Qle_bool_iff in E. exfalso. apply (Qlt_not_le _ _ H E).
Qed.

Lemma Qltb_lt (a b : Q) : Qltb a b = true <-> a < b.
Proof.
  unfold Qltb. rewrite negb_true_iff. apply Qleb_gt.
Qed.

Lemma Qltb_ge (a b : Q) : Qltb a b = false <-> b <= a.
Proof.
  unfold Qltb. rewrite negb_false_iff. apply Qle_bool_iff.
Qed.

(** ** Running the host monad *)

Lemma bind_run {A B} (m : JS.M A) (k : A -> JS.M B) (w : JS.World) :
  JS.bind m k w = k (fst (m w)) (snd (m w)).
Proof. unfold JS.bind. destruct (m w); reflexivity. Qed.

(** Runs a sequence of binds that ends in a [ret] down to its result. *)
Ltac run_js := cbv zeta; rewrite ?bind_run; unfold JS.ret; cbn [fst snd].

(** ** Loops *)

Lemma for_push_run {A} (P : A -> Prop) (body : nat -> JS.M A) :
  (forall i w, P (fst (body i w))) ->
  forall count from arr w,
  exists fresh,
    fst (JS.for_push count from body arr w) = arr ++ fresh /\
    List.length fresh = count /\
    Forall P fresh.
Proof.
  intro Hbody. induction count as [|c IH]; intros from arr w.
  - exists []. cbn. rewrite app_nil_r. auto.
  - cbn [JS.for_push]. rewrite bind_run.
    destruct (IH (S from) (arr ++ [fst (body from w)]) (snd (body from w)))
      as (fresh & E & Hlen & HP).
    exists (fst (body from w) :: fresh). rewrite E, <- app_assoc. cbn.
    repeat split; [congruence|]. constructor; [apply Hbody | exact HP].
Qed.

Lemma for_push_length {A} (body : nat -> JS.M A) count from arr w :
  List.length (fst (JS.for_push count from body arr w))
  = (List.length arr + count)%nat.
Proof.
  destruct (for_push_run (fun _ => True) body (fun _ _ => I) count from arr w)
    as (fresh & E & Hlen & _).
  rewrite E, length_app, Hlen. reflexivity.
Qed.

Lemma forEach_length {A} (f : A -> JS.M A) (arr : list A) (w : JS.World) :
  List.length (fst (JS.forEach f arr w)) = List.length arr.
Proof.
  revert w. induction arr as [|a rest IH]; intro w.
  - reflexivity.
  - cbn [JS.forEach]. rewrite !bind_run. unfold JS.ret. cbn. rewrite IH.
    reflexivity.
Qed.

(** ** Arrays *)

Lemma slice_last_length {A} (k : nat) (arr : list A) :
  List.length (slice_last k arr) = Nat.min k (List.length arr).
Proof. unfold slice_last. rewrite length_skipn. lia. Qed.

Lemma slice_last_suffix {A} (k : nat) (arr : list A) :
  exists dropped, arr = dropped ++ slice_last k arr.
Proof.
  exists (firstn (List.length arr - k) arr). unfold slice_last.
  symmetry. apply firstn_skipn.
Qed.

Lemma filter_step_In {A} (step : A -> A) (keep : A -> bool) (arr : list A)
  (b : A) :
  In b (filter_step step keep arr) <->
  exists a, In a arr /\ b = step a /\ keep b = true.
Proof.
  induction arr as [|a rest IH]; cbn.
  - split; [intros [] | intros (a & [] & _)].
  - destruct (keep (step a)) eqn:E; cbn; rewrite IH; split.
    + intros [<- | (a' & Hin & Hb & Hk)]; eauto 6.
    + intros (a' & [<- | Hin] & Hb & Hk); [left; auto | right; eauto].
    + intros (a' & Hin & Hb & Hk); eauto 6.
    + intros (a' & [<- | Hin] & Hb & Hk); [congruence | eauto].
Qed.

Lemma filter_step_length {A} (step : A -> A) (keep : A -> bool) (arr : list A) :
  (List.length (filter_step step keep arr) <= List.length arr)%nat.
Proof.
  induction arr as [|a rest IH]; cbn; [lia|].
  destruct (keep (step a)); cbn; lia.
Qed.

(** [3 + Math.floor(Math.random() * 4)] is 3, 4, 5 or 6. *)
Lemma particleCount_range (r : Q) :
  0 <= r < 1 -> (3 <= Z.to_nat (3 + Qfloor (r * 4)) <= 6)%nat.
Proof.
  intros [H0 H1].
  assert (Hlo : (0 <= Qfloor (r * 4))%Z).
  { rewrite <- (Qfloor_Z 0). apply Qfloor_resp_le.
    change (0 <= r * 4). lra. }
  assert (Hhi : (Qfloor (r * 4) < 4)%Z).
  { rewrite Zlt_Qlt. eapply Qle_lt_trans; [apply Qfloor_le|].
    change (r * 4 < 4). lra. }
  lia.
Qed.

(** ** Raindrops *)

Section RaindropFacts.

Variable random : nat -> Q.
Variable sin : Q -> Q.
Hypothesis random_unit : forall n, 0 <= random n < 1.

Lemma fall_le_terminal (d : Raindrop.t) :
  Raindrop.velocityY d <= Raindrop.terminalVelocity d ->
  Raindrop.fall d <= Raindrop.terminalVelocity d.
Proof.
  intro H. unfold Raindrop.fall.
  destruct (Qltb _ _); [apply Q.le_min_r | exact H].
Qed.

Lemma fall_below_balance (d : Raindrop.t) :
  Raindrop.velocityY d < 49 * Raindrop.acceleration d ->
  Raindrop.fall d < 49 * Raindrop.acceleration d.
Proof.
  intro H. unfold Raindrop.fall.
  destruct (Qltb _ _); [|exact H].
  cbv zeta. eapply Qle_lt_trans; [apply Q.le_min_l|]. lra.
Qed.

Lemma fall_rises (d : Raindrop.t) :
  Raindrop.velocityY d < 49 * Raindrop.acceleration d ->
  Raindrop.velocityY d < Raindrop.terminalVelocity d ->
  Raindrop.velocityY d < Raindrop.fall d.
Proof.
  intros Hb Ht. unfold Raindrop.fall.
  apply Qltb_lt in Ht as E. rewrite E. cbv zeta.
  apply Q.min_glb_lt; [lra | exact Ht].
Qed.

Lemma reachable_steady (d : Raindrop.t) :
  Raindrop.reachable random sin d -> Raindrop.steady d.
Proof.
  induction 1 as [cw ch w | d ch _ IH | d cw w _ IH];
    unfold Raindrop.steady in *.
  - cbn.
    pose proof (random_unit (3 + JS.draws w)) as H4.
    pose proof (random_unit (5 + JS.draws w)) as H6.
    pose proof (random_unit (6 + JS.draws w)) as H7.
    pose proof (random_unit (7 + JS.draws w)) as H8.
    cbn in H4, H6, H7, H8.
    repeat split; nra.
  - cbn. destruct IH as (Hw & Ht & Hb). repeat split.
    + exact Hw.
    + apply fall_le_terminal; exact Ht.
    + apply fall_below_balance; exact Hb.
  - cbn. destruct IH as (Hw & _ & _).
    pose proof (random_unit (1 + JS.draws w)) as H2.
    pose proof (random_unit (3 + JS.draws w)) as H4.
    pose proof (random_unit (4 + JS.draws w)) as H5.
    cbn in H2, H4, H5.
    repeat split; nra.
Qed.

Lemma frames_reachable (heights : list Q) (d : Raindrop.t) :
  Raindrop.reachable random sin d ->
  Raindrop.reachable random sin (Raindrop.frames sin heights d).
Proof.
  revert d. induction heights as [|h rest IH]; intros d H; cbn.
  - exact H.
  - apply IH. apply Raindrop.reach_update. exact H.
Qed.

(** C2.  A raindrop that the constructor built, however often it has been
    updated and reset since, never has a [velocityY] above its
    [terminalVelocity], after any number of further [update] calls. *)
Theorem velocity_never_exceeds_terminal (d : Raindrop.t) (heights : list Q) :
  Raindrop.reachable random sin d ->
  Raindrop.velocityY (Raindrop.frames sin heights d)
  <= Raindrop.terminalVelocity (Raindrop.frames sin heights d).
Proof.
  intro H. apply (frames_reachable heights) in H.
  apply reachable_steady in H. exact (proj1 (proj2 H)).
Qed.

(** C4.  On an [update] made while [velocityY] is below [terminalVelocity],
    the new velocity is the old one plus the acceleration, less a drag of
    0.02 times that sum, clamped to the terminal velocity; it is not lower
    than the old velocity and at most the terminal velocity. *)
Theorem velocity_rises_below_terminal (d : Raindrop.t) (canvasHeight : Q) :
  Raindrop.reachable random sin d ->
  Raindrop.velocityY d < Raindrop.terminalVelocity d ->
  let d1 := Raindrop.update sin d canvasHeight in
  let v1 := Raindrop.velocityY d + Raindrop.acceleration d in
  Raindrop.velocityY d1 = Qmin (v1 - v1 * 0.02) (Raindrop.terminalVelocity d) /\
  Raindrop.velocityY d <= Raindrop.velocityY d1 /\
  Raindrop.velocityY d1 <= Raindrop.terminalVelocity d1.
Proof.
  intros Hr Ht d1 v1.
  destruct (reachable_steady d Hr) as (_ & Hle & Hb).
  assert (Hv : Raindrop.velocityY d1 = Raindrop.fall d) by reflexivity.
  assert (Hrise : Raindrop.velocityY d < Raindrop.fall d)
    by (apply fall_rises; assumption).
  rewrite Hv. repeat split.
  - unfold Raindrop.fall. apply Qltb_lt in Ht. rewrite Ht. reflexivity.
  - apply Qlt_le_weak. exact Hrise.
  - change (Raindrop.fall d <= Raindrop.terminalVelocity d).
    apply fall_le_terminal. exact Hle.
Qed.

(** C5, as the code has it.  After [reset(canvasWidth)] with a positive
    canvas width, [y] is minus the length the raindrop had when [reset] was
    called, and [x] lies in [0, canvasWidth). *)
Theorem reset_places_at_top (d : Raindrop.t) (canvasWidth : Q) (w : JS.World) :
  0 < canvasWidth ->
  let d1 := fst (Raindrop.reset random d canvasWidth w) in
  Raindrop.y d1 = - Raindrop.length d /\
  0 <= Raindrop.x d1 /\ Raindrop.x d1 < canvasWidth.
Proof.
  intros Hw d1. subst d1. cbn.
  pose proof (random_unit (JS.draws w)) as H1.
  repeat split; nra.
Qed.

End RaindropFacts.

Lemma sample_random_unit : forall n, 0 <= Sample.random n < 1.
Proof. intro n. unfold Sample.random. lra. Qed.

Lemma velocity_never_exceeds_terminal_witness :
  Raindrop.reachable Sample.random Sample.sin Sample.drop /\
  Raindrop.velocityY (Raindrop.frames Sample.sin [600; 600; 600] Sample.drop)
  <= Raindrop.terminalVelocity
       (Raindrop.frames Sample.sin [600; 600; 600] Sample.drop).
Proof.
  assert (H : Raindrop.reachable Sample.random Sample.sin Sample.drop)
    by apply Raindrop.reach_new.
  split; [exact H|].
  exact (velocity_never_exceeds_terminal Sample.random Sample.sin
           sample_random_unit Sample.drop [600; 600; 600] H).
Defined.

Lemma velocity_rises_below_terminal_witness :
  Raindrop.velocityY Sample.drop < Raindrop.terminalVelocity Sample.drop /\
  Raindrop.velocityY Sample.drop
  <= Raindrop.velocityY (Raindrop.update Sample.sin Sample.drop 600).
Proof.
  assert (Ht : Raindrop.velocityY Sample.drop
               < Raindrop.terminalVelocity Sample.drop)
    by (vm_compute; reflexivity).
  split; [exact Ht|].
  exact (proj1 (proj2
           (velocity_rises_below_terminal Sample.random Sample.sin
              sample_random_unit Sample.drop 600
              (Raindrop.reach_new _ _ _ _ _) Ht))).
Defined.

Lemma reset_places_at_top_witness :
  0 < 800 /\
  Raindrop.y (fst (Raindrop.reset Sample.random Sample.fallen 800 JS.start))
  = - Raindrop.length Sample.fallen.
Proof.
  assert (Hw : 0 < 800) by reflexivity.
  split; [exact Hw|].
  exact (proj1 (reset_places_at_top Sample.random sample_random_unit
                  Sample.fallen 800 JS.start Hw)).
Defined.

(** C5 as stated fails.  The raindrop [Sample.fallen] is out of bounds;
    after [reset] its [y] is -10, minus the old length, while its new
    [length] is 20.  And on a canvas of width 0 the new [x] is 0, which is
    not in the empty interval [0, 0). *)
Lemma reset_y_is_not_minus_new_length :
  let d1 := fst (Raindrop.reset Sample.random Sample.fallen 800 JS.start) in
  let d0 := fst (Raindrop.reset Sample.random Sample.fallen 0 JS.start) in
  Raindrop.isOutOfBounds Sample.fallen 600 = true /\
  Raindrop.y d1 == - 10 /\
  Raindrop.length d1 == 20 /\
  ~ (Raindrop.y d1 == - Raindrop.length d1) /\
  ~ (0 <= Raindrop.x d0 /\ Raindrop.x d0 < 0).
Proof.
  split; [reflexivity|].
  split; [reflexivity|].
  split; [reflexivity|].
  split; [vm_compute; discriminate|].
  intros [_ H]. vm_compute in H. discriminate H.
Qed.

(** ** Lightning *)

Section LightningFacts.

Variable random : nat -> Q.
Variable clock : nat -> Q.
Hypothesis random_unit : forall n, 0 <= random n < 1.

(** What [strike] leaves behind: an active flash at duration 0 with a freshly
    drawn intensity. *)
Lemma strike_result (l : Lightning.t) (cw ch : Q) (w : JS.World) :
  exists b n d,
    fst (Lightning.strike random clock l cw ch w)
    = Lightning.mk true 0 (Lightning.maxDuration l)
        (random (JS.draws w) * 0.8 + 0.2) b n d (Lightning.onStrikeCallback l).
Proof.
  unfold Lightning.strike. run_js. do 3 eexists. reflexivity.
Qed.

Lemma strike_sound (l : Lightning.t) (cw ch : Q) (w : JS.World) :
  Lightning.sound l ->
  Lightning.sound (fst (Lightning.strike random clock l cw ch w)).
Proof.
  intros (Hm & _).
  destruct (strike_result l cw ch w) as (b & n & d & E). rewrite E.
  pose proof (random_unit (JS.draws w)) as Hr.
  unfold Lightning.sound. cbn. rewrite Hm.
  repeat split; try lra.
Qed.

Lemma update_sound (l : Lightning.t) (cw ch dt : Q) (w : JS.World) :
  0 <= dt ->
  Lightning.sound l ->
  Lightning.sound (fst (Lightning.update random clock l cw ch dt w)).
Proof.
  intros Hdt Hs. unfold Lightning.update.
  destruct (Lightning.isActive l) eqn:Ea.
  - destruct Hs as (Hm & Hi & Hd & Hact).
    destruct (Hact Ea) as [Hlow _].
    unfold Lightning.sound. cbn.
    split; [exact Hm|]. split; [exact Hi|]. split; [lra|].
    destruct (Qleb _ _) eqn:E; [discriminate|].
    intros _. apply Qleb_gt in E. split; [exact Hlow | exact E].
  - cbv zeta. rewrite bind_run.
    destruct (Qltb _ _); [|exact Hs]. rewrite bind_run.
    destruct (Qltb _ _); [|exact Hs].
    apply strike_sound. exact Hs.
Qed.

Lemma reachable_sound (l : Lightning.t) :
  Lightning.reachable random clock l -> Lightning.sound l.
Proof.
  induction 1 as [cb w | l cw ch w _ IH | l cw ch dt w _ IH Hdt].
  - unfold Lightning.sound. cbn.
    split; [reflexivity|]. split; [lra|]. split; [lra|]. discriminate.
  - apply strike_sound. exact IH.
  - apply update_sound; assumption.
Qed.

(** The envelope, for a flash whose intensity and progress are in range. *)
Lemma flash_in_range (l : Lightning.t) :
  0 <= Lightning.intensity l <= 1 ->
  0 <= Lightning.progress l < 1 ->
  0 <= Lightning.getFlashIntensity l <= 1.
Proof.
  intros Hi Hp. unfold Lightning.getFlashIntensity.
  destruct (negb _); [lra|]. cbv zeta.
  set (p := Lightning.progress l) in *. set (i := Lightning.intensity l) in *.
  destruct (Qltb p 0.1) eqn:E.
  - apply Qltb_lt in E.
    assert (Hq : p / 0.1 == 10 * p) by (field).
    rewrite Hq. split; nra.
  - apply Qltb_ge in E.
    assert (Hq : (p - 0.1) / 0.9 == (10 * p - 1) / 9) by (field).
    assert (Hq' : (10 * p - 1) / 9 == (10 # 9) * p - (1 # 9)) by (field).
    rewrite Hq, Hq'. split; nra.
Qed.

(** C10, as the code has it.  In every state that construction, [strike]
    and [update] (with frame times that are not negative) lead to, an
    active flash has lasted less than [maxDuration], which is 200;
    [getFlashIntensity] is in [0, 1], the value 1 included, and so the
    alpha of the overlay, 0.3 times it, is between 0 and 1. *)
Theorem flash_stays_in_range (l : Lightning.t) :
  Lightning.reachable random clock l ->
  Lightning.maxDuration l = 200 /\
  (Lightning.isActive l = true ->
   Lightning.duration l < Lightning.maxDuration l) /\
  0 <= Lightning.getFlashIntensity l /\
  Lightning.getFlashIntensity l <= 1 /\
  0 <= Lightning.getFlashIntensity l * 0.3 <= 1.
Proof.
  intro Hr. destruct (reachable_sound l Hr) as (Hm & Hi & Hd & Hact).
  assert (Hf : 0 <= Lightning.getFlashIntensity l <= 1).
  { destruct (Lightning.isActive l) eqn:Ea.
    - destruct (Hact eq_refl) as [_ Hlt].
      apply flash_in_range; [exact Hi|].
      unfold Lightning.progress. rewrite Hm in *.
      assert (Hq : Lightning.duration l / 200
                   == (1 # 200) * Lightning.duration l) by field.
      rewrite Hq. lra.
    - unfold Lightning.getFlashIntensity. rewrite Ea. cbn. lra. }
  repeat split; try lra; try assumption.
  intro Ea. destruct (Hact Ea) as [_ H]. exact H.
Qed.

End LightningFacts.

Lemma flash_rising (l : Lightning.t) :
  Lightning.isActive l = true ->
  Lightning.progress l < 0.1 ->
  Lightning.getFlashIntensity l
  = Lightning.intensity l * (Lightning.progress l / 0.1).
Proof.
  intros Ea Hp. unfold Lightning.getFlashIntensity. rewrite Ea. cbn [negb].
  cbv zeta. apply Qltb_lt in Hp. rewrite Hp. reflexivity.
Qed.

Lemma flash_fading (l : Lightning.t) :
  Lightning.isActive l = true ->
  0.1 <= Lightning.progress l ->
  Lightning.getFlashIntensity l
  = Lightning.intensity l * (1 - (Lightning.progress l - 0.1) / 0.9).
Proof.
  intros Ea Hp. unfold Lightning.getFlashIntensity. rewrite Ea. cbn [negb].
  cbv zeta. apply Qltb_ge in Hp. rewrite Hp. reflexivity.
Qed.

Lemma rise_linear (i p : Q) : i * (p / 0.1) == 10 * (i * p).
Proof. field. Qed.

Lemma fade_linear (i p : Q) :
  i * (1 - (p - 0.1) / 0.9) == (10 # 9) * (i - i * p).
Proof. field. Qed.

(** C3.  [getFlashIntensity] is 0 while the lightning is not active.  While
    it is active, with p = duration / maxDuration, it is
    intensity * (p / 0.1) for p < 0.1 and intensity * (1 - (p - 0.1) / 0.9)
    otherwise: the intensity itself at p = 0.1 and 0 at p = 1.  Of two
    active states with the same intensity (which is not negative), the one
    further along has the larger value up to p = 0.1 and the smaller value
    from p = 0.1 on. *)
Theorem flash_envelope (l l' : Lightning.t) :
  Lightning.progress l = Lightning.duration l / Lightning.maxDuration l /\
  (Lightning.isActive l = false -> Lightning.getFlashIntensity l = 0) /\
  (Lightning.isActive l = true ->
   (Lightning.progress l < 0.1 ->
    Lightning.getFlashIntensity l
    = Lightning.intensity l * (Lightning.progress l / 0.1)) /\
   (0.1 <= Lightning.progress l ->
    Lightning.getFlashIntensity l
    = Lightning.intensity l * (1 - (Lightning.progress l - 0.1) / 0.9)) /\
   (Lightning.progress l == 0.1 ->
    Lightning.getFlashIntensity l == Lightning.intensity l) /\
   (Lightning.progress l == 1 -> Lightning.getFlashIntensity l == 0)) /\
  (Lightning.isActive l = true -> Lightning.isActive l' = true ->
   Lightning.intensity l == Lightning.intensity l' ->
   0 <= Lightning.intensity l ->
   Lightning.progress l <= Lightning.progress l' ->
   (Lightning.progress l' <= 0.1 ->
    Lightning.getFlashIntensity l <= Lightning.getFlashIntensity l') /\
   (0.1 <= Lightning.progress l ->
    Lightning.getFlashIntensity l' <= Lightning.getFlashIntensity l)).
Proof.
  split; [reflexivity|]. split; [|split].
  - intro Ea. unfold Lightning.getFlashIntensity. rewrite Ea. reflexivity.
  - intro Ea. split; [|split; [|split]].
    + apply flash_rising; exact Ea.
    + apply flash_fading; exact Ea.
    + intro Hp. rewrite flash_fading; [|exact Ea|lra].
      rewrite fade_linear. nra.
    + intro Hp. rewrite flash_fading; [|exact Ea|lra].
      rewrite fade_linear. nra.
  - intros Ea Ea' Hi H0 Hpp. split.
    + intro Hp'.
      assert (Hl' : Lightning.getFlashIntensity l'
                    == 10 * (Lightning.intensity l' * Lightning.progress l')).
      { destruct (Qlt_le_dec (Lightning.progress l') 0.1) as [Hlt|Hge].
        - rewrite (flash_rising l' Ea' Hlt). apply rise_linear.
        - rewrite (flash_fading l' Ea' Hge). rewrite fade_linear. nra. }
      assert (Hl : Lightning.getFlashIntensity l
                   == 10 * (Lightning.intensity l * Lightning.progress l)).
      { destruct (Qlt_le_dec (Lightning.progress l) 0.1) as [Hlt|Hge].
        - rewrite (flash_rising l Ea Hlt). apply rise_linear.
        - rewrite (flash_fading l Ea Hge). rewrite fade_linear. nra. }
      rewrite Hl, Hl'. nra.
    + intro Hp.
      rewrite (flash_fading l Ea Hp).
      rewrite (flash_fading l' Ea'); [|lra].
      rewrite !fade_linear. nra.
Qed.

Lemma flash_stays_in_range_witness :
  Lightning.reachable Sample.random Sample.clock Sample.struck /\
  Lightning.isActive Sample.struck = true /\
  Lightning.getFlashIntensity Sample.struck <= 1.
Proof.
  assert (H : Lightning.reachable Sample.random Sample.clock Sample.struck)
    by (apply Lightning.reach_strike, Lightning.reach_new).
  split; [exact H|]. split; [reflexivity|].
  exact (proj1 (proj2 (proj2 (proj2
           (flash_stays_in_range Sample.random Sample.clock
              sample_random_unit Sample.struck H))))).
Defined.

Lemma flash_envelope_witness :
  Lightning.getFlashIntensity Sample.rising
  <= Lightning.getFlashIntensity Sample.peak /\
  Lightning.getFlashIntensity Sample.fading
  <= Lightning.getFlashIntensity Sample.peak.
Proof.
  split.
  - refine (proj1 (proj2 (proj2 (proj2
             (flash_envelope Sample.rising Sample.peak)))
             eq_refl eq_refl _ _ _) _);
      vm_compute; try reflexivity; discriminate.
  - refine (proj2 (proj2 (proj2 (proj2
             (flash_envelope Sample.peak Sample.fading)))
             eq_refl eq_refl _ _ _) _);
      vm_compute; try reflexivity; discriminate.
Defined.

(** C10 as stated fails on doubles.  [Math.random()] may return the largest
    double below 1; [strike] then sets the intensity to that number times
    0.8 plus 0.2, which rounds to 1.  After a frame of 20 ms the flash is
    still active, a tenth of [maxDuration] has passed, and
    [getFlashIntensity] returns exactly 1. *)
Section FlashOnDoubles.

Import PrimFloat.
Local Open Scope float_scope.

Lemma flash_intensity_reaches_one :
  let r := Binary64.below_one in
  let l := Binary64.update (Binary64.strike Binary64.new r) 20 in
  (0 <=? r) = true /\
  (r <? 1) = true /\
  Binary64.isActive l = true /\
  Binary64.intensity l = 1 /\
  Binary64.getFlashIntensity l = 1.
Proof. vm_compute. repeat split. Qed.

End FlashOnDoubles.

(** ** The scene *)

Section RainSceneFacts.

Variable random : nat -> Q.
Variable clock : nat -> Q.
Variable sin : Q -> Q.

Lemma createRain_length (c : Canvas.t) (n : Z) (w : JS.World) :
  List.length (fst (RainScene.createRain random c n w)) = Z.to_nat n.
Proof.
  unfold RainScene.createRain. rewrite for_push_length. reflexivity.
Qed.

Lemma resizeCanvas_result (s : RainScene.t) (iw ih : Q) (w : JS.World) :
  RainScene.rainIntensity (fst (RainScene.resizeCanvas random s iw ih w))
  = RainScene.rainIntensity s /\
  List.length
    (RainScene.raindrops (fst (RainScene.resizeCanvas random s iw ih w)))
  = Z.to_nat (RainScene.rainIntensity s).
Proof.
  unfold RainScene.resizeCanvas. run_js.
  cbn [RainScene.rainIntensity RainScene.raindrops].
  split; [reflexivity | apply createRain_length].
Qed.

(** What [changeRainIntensity] does to the population. *)
Lemma changeRainIntensity_result (s : RainScene.t) (delta : Z) (w : JS.World) :
  let s1 := fst (RainScene.changeRainIntensity random s delta w) in
  RainScene.rainIntensity s1
  = Z.max 50 (Z.min 500 (RainScene.rainIntensity s + delta)) /\
  ((RainScene.rainIntensity s < RainScene.rainIntensity s1)%Z ->
   exists fresh,
     RainScene.raindrops s1 = RainScene.raindrops s ++ fresh /\
     Z.of_nat (List.length fresh)
     = (RainScene.rainIntensity s1 - RainScene.rainIntensity s)%Z /\
     Forall
       (fun d => exists w',
          d = fst (Raindrop.new random (Canvas.width (RainScene.canvas s))
                     (Canvas.height (RainScene.canvas s)) w'))
       fresh) /\
  ((RainScene.rainIntensity s1 < RainScene.rainIntensity s)%Z ->
   RainScene.raindrops s1
   = firstn (Z.to_nat (RainScene.rainIntensity s1)) (RainScene.raindrops s)) /\
  (RainScene.rainIntensity s1 = RainScene.rainIntensity s ->
   RainScene.raindrops s1 = RainScene.raindrops s).
Proof.
  unfold RainScene.changeRainIntensity. cbv zeta. rewrite bind_run.
  set (n := Z.max 50 (Z.min 500 (RainScene.rainIntensity s + delta))).
  destruct (RainScene.rainIntensity s <? n)%Z eqn:Eup;
    [|destruct (n <? RainScene.rainIntensity s)%Z eqn:Edown];
    unfold JS.ret; cbn [fst RainScene.rainIntensity RainScene.raindrops];
    (split; [reflexivity|]).
  - apply Z.ltb_lt in Eup. split; [|split]; [|lia|lia].
    intros _.
    destruct (for_push_run
                (fun d => exists w',
                   d = fst (Raindrop.new random
                              (Canvas.width (RainScene.canvas s))
                              (Canvas.height (RainScene.canvas s)) w'))
                (fun _ : nat =>
                   Raindrop.new random (Canvas.width (RainScene.canvas s))
                     (Canvas.height (RainScene.canvas s)))
                (fun _ w' => ex_intro _ w' eq_refl)
                (Z.to_nat (n - RainScene.rainIntensity s)) 0%nat
                (RainScene.raindrops s) w)
      as (fresh & E & Hlen & HP).
    exists fresh. rewrite E. repeat split; [lia | exact HP].
  - apply Z.ltb_ge in Eup. apply Z.ltb_lt in Edown.
    split; [lia|]. split; [reflexivity | lia].
  - apply Z.ltb_ge in Eup. apply Z.ltb_ge in Edown.
    split; [lia|]. split; [lia | reflexivity].
Qed.

Lemma changeRainIntensity_populated (s : RainScene.t) (delta : Z)
  (w : JS.World) :
  (delta = 50 \/ delta = -50)%Z ->
  RainScene.populated s ->
  RainScene.populated (fst (RainScene.changeRainIntensity random s delta w)).
Proof.
  intros Hd (Hlen & level & Hlevel & Hi).
  destruct (changeRainIntensity_result s delta w) as (Hn & Hup & Hdown & Hsame).
  cbv zeta in *. unfold RainScene.populated.
  set (s1 := fst (RainScene.changeRainIntensity random s delta w)) in *.
  split.
  - destruct (Z.lt_total (RainScene.rainIntensity s)
                (RainScene.rainIntensity s1)) as [H|[H|H]].
    + destruct (Hup H) as (fresh & E & Hf & _). rewrite E, length_app. lia.
    + rewrite (Hsame (eq_sym H)). lia.
    + rewrite (Hdown H), length_firstn. lia.
  - rewrite Hn, Hi.
    destruct Hd as [-> | ->].
    + exists (Z.min 10 (level + 1)). lia.
    + exists (Z.max 1 (level - 1)). lia.
Qed.

Lemma update_population (s : RainScene.t) (time : Q) (w : JS.World) :
  RainScene.rainIntensity (fst (RainScene.update random clock sin s time w))
  = RainScene.rainIntensity s /\
  List.length
    (RainScene.raindrops (fst (RainScene.update random clock sin s time w)))
  = List.length (RainScene.raindrops s).
Proof.
  unfold RainScene.update. cbv zeta. rewrite !bind_run.
  unfold JS.ret at 1. cbn [fst RainScene.rainIntensity RainScene.raindrops].
  split; [reflexivity|].
  destruct (RainScene.rainEnabled s); [apply forEach_length | reflexivity].
Qed.

Lemma new_populated (iw ih : Q) (w : JS.World) :
  RainScene.populated (fst (RainScene.new random iw ih w)).
Proof.
  unfold RainScene.new. cbv zeta. rewrite !bind_run.
  match goal with
  | |- context [RainScene.resizeCanvas random ?s0 ?a ?b ?w0] =>
      destruct (resizeCanvas_result s0 a b w0) as [Hi _];
      set (s1 := fst (RainScene.resizeCanvas random s0 a b w0)) in *;
      set (w1 := snd (RainScene.resizeCanvas random s0 a b w0)) in *
  end.
  change (RainScene.rainIntensity s1 = 200%Z) in Hi.
  unfold JS.ret, RainScene.populated.
  cbn [fst RainScene.rainIntensity RainScene.raindrops].
  rewrite createRain_length, Hi. split; [reflexivity|].
  exists 4%Z. lia.
Qed.

Lemma reachable_populated (s : RainScene.t) :
  RainScene.reachable random clock sin s -> RainScene.populated s.
Proof.
  induction 1 as [iw ih w | s iw ih w _ IH | s _ IH | s _ IH
                  | s w _ IH | s w _ IH | s time w _ IH].
  - apply new_populated.
  - destruct IH as (Hlen & level & Hlevel & Hi).
    destruct (resizeCanvas_result s iw ih w) as [Hi1 Hlen1].
    unfold RainScene.populated. rewrite Hi1, Hlen1. split; [lia|].
    exists level. auto.
  - exact IH.
  - exact IH.
  - apply changeRainIntensity_populated; [left; reflexivity | exact IH].
  - apply changeRainIntensity_populated; [right; reflexivity | exact IH].
  - destruct IH as (Hlen & level & Hlevel & Hi).
    destruct (update_population s time w) as [Hi1 Hlen1].
    unfold RainScene.populated. rewrite Hi1, Hlen1. split; [exact Hlen|].
    exists level. auto.
Qed.

(** C9.  In every state of the scene (constructed, then resized, clicked and
    animated in any order) the raindrop array has [rainIntensity] entries,
    and [rainIntensity] is 50 times a level between 1 and 10, so it lies in
    [50, 500].  A change of intensity that raises the number appends that
    many raindrops fresh from the constructor; one that lowers it keeps the
    first [rainIntensity] raindrops and drops the tail. *)
Theorem population_tracks_intensity (s : RainScene.t) :
  RainScene.reachable random clock sin s ->
  Z.of_nat (List.length (RainScene.raindrops s)) = RainScene.rainIntensity s /\
  (exists level, (1 <= level <= 10)%Z /\
                 RainScene.rainIntensity s = (50 * level)%Z) /\
  (50 <= RainScene.rainIntensity s <= 500)%Z /\
  forall delta w,
    let s1 := fst (RainScene.changeRainIntensity random s delta w) in
    RainScene.rainIntensity s1
    = Z.max 50 (Z.min 500 (RainScene.rainIntensity s + delta)) /\
    ((RainScene.rainIntensity s < RainScene.rainIntensity s1)%Z ->
     exists fresh,
       RainScene.raindrops s1 = RainScene.raindrops s ++ fresh /\
       Z.of_nat (List.length fresh)
       = (RainScene.rainIntensity s1 - RainScene.rainIntensity s)%Z /\
       Forall
         (fun d => exists w',
            d = fst (Raindrop.new random (Canvas.width (RainScene.canvas s))
                       (Canvas.height (RainScene.canvas s)) w'))
         fresh) /\
    ((RainScene.rainIntensity s1 < RainScene.rainIntensity s)%Z ->
     RainScene.raindrops s1
     = firstn (Z.to_nat (RainScene.rainIntensity s1))
         (RainScene.raindrops s)) /\
    (RainScene.rainIntensity s1 = RainScene.rainIntensity s ->
     RainScene.raindrops s1 = RainScene.raindrops s).
Proof.
  intro Hr. destruct (reachable_populated s Hr) as (Hlen & level & Hlevel & Hi).
  split; [exact Hlen|]. split; [exists level; auto|]. split; [lia|].
  intros delta w. apply changeRainIntensity_result.
Qed.

End RainSceneFacts.

Lemma population_tracks_intensity_witness :
  RainScene.reachable Sample.random Sample.clock Sample.sin Sample.scene /\
  Z.of_nat (List.length (RainScene.raindrops Sample.scene))
  = RainScene.rainIntensity Sample.scene.
Proof.
  assert (H : RainScene.reachable Sample.random Sample.clock Sample.sin
                Sample.scene) by apply RainScene.reach_new.
  split; [exact H|].
  exact (proj1 (population_tracks_intensity Sample.random Sample.clock
                  Sample.sin Sample.scene H)).
Defined.

(** ** The ground *)

Section GroundFacts.

Variable random : nat -> Q.
Hypothesis random_unit : forall n, 0 <= random n < 1.

Lemma createSplashParticles_spawned (x y : Q) (pool : list Ground.Splash.t)
  (w : JS.World) :
  Ground.spawned y pool (fst (Ground.createSplashParticles random x y pool w)).
Proof.
  unfold Ground.createSplashParticles. rewrite bind_run.
  unfold JS.ret. cbn [fst].
  unfold Ground.pushSplashParticles. cbv zeta. rewrite bind_run.
  match goal with
  | |- context [JS.for_push ?c ?f ?b ?a ?w0] =>
      destruct (for_push_run
                  (fun s =>
                     Ground.Splash.y s = y /\ Ground.Splash.impactY s = y)
                  b (fun _ _ => conj eq_refl eq_refl) c f a w0)
        as (fresh & E & Hlen & HP)
  end.
  exists fresh. split; [|split].
  - rewrite Hlen. apply particleCount_range. apply random_unit.
  - exact HP.
  - unfold Ground.capSplashes. rewrite E. reflexivity.
Qed.

Lemma spawned_capped (y : Q) (before after : list Ground.Splash.t) :
  Ground.spawned y before after -> (List.length after <= 200)%nat.
Proof.
  intros (fresh & _ & _ & ->).
  destruct (200 <? _)%nat eqn:E.
  - rewrite slice_last_length. lia.
  - apply Nat.ltb_ge in E. exact E.
Qed.

(** The test of one puddle, in the words of the specification. *)
Lemma hits_spec (groundY x y : Q) (p : Ground.Puddle.t) :
  Ground.hits groundY x y p = true <->
  Ground.withinSpan x p /\
  groundY < y /\ y <= groundY + Ground.Puddle.height p + 5.
Proof.
  unfold Ground.hits, Ground.withinSpan.
  destruct (Ground.Puddle.compound p) as [c|]; cbv zeta;
    rewrite ?andb_true_iff, ?orb_true_iff, ?andb_true_iff,
            ?Qleb_le, ?Qltb_lt; tauto.
Qed.

Lemma hitFirst_miss (groundY x y : Q) (puddles : list Ground.Puddle.t) :
  (forall p, In p puddles -> Ground.hits groundY x y p = false) ->
  Ground.hitFirst groundY x y puddles = (puddles, false).
Proof.
  induction puddles as [|p rest IH]; intro H; cbn.
  - reflexivity.
  - rewrite (H p (or_introl eq_refl)).
    rewrite IH; [reflexivity|]. intros q Hq. apply H. right. exact Hq.
Qed.

Lemma hitFirst_hit (groundY x y : Q) (before after : list Ground.Puddle.t)
  (p : Ground.Puddle.t) :
  (forall q, In q before -> Ground.hits groundY x y q = false) ->
  Ground.hits groundY x y p = true ->
  Ground.hitFirst groundY x y (before ++ p :: after)
  = (before ++ Ground.addRipple p x y :: after, true).
Proof.
  induction before as [|q rest IH]; intros Hb Hp; cbn.
  - rewrite Hp. reflexivity.
  - rewrite (Hb q (or_introl eq_refl)).
    rewrite IH; [reflexivity | | exact Hp].
    intros q' Hq'. apply Hb. right. exact Hq'.
Qed.

(** Either no puddle is hit, or there is a first one that is. *)
Lemma first_hit (groundY x y : Q) (puddles : list Ground.Puddle.t) :
  (forall p, In p puddles -> Ground.hits groundY x y p = false) \/
  exists before p after,
    puddles = before ++ p :: after /\
    (forall q, In q before -> Ground.hits groundY x y q = false) /\
    Ground.hits groundY x y p = true.
Proof.
  induction puddles as [|p rest IH].
  - left. intros p [].
  - destruct (Ground.hits groundY x y p) eqn:E.
    + right. exists [], p, rest. split; [reflexivity|].
      split; [intros q []|exact E].
    + destruct IH as [Hmiss | (before & q & after & -> & Hb & Hq)].
      * left. intros q [<- | Hq]; [exact E | apply Hmiss; exact Hq].
      * right. exists (p :: before), q, after. split; [reflexivity|].
        split; [|exact Hq].
        intros q' [<- | Hq']; [exact E | apply Hb; exact Hq'].
Qed.

(** What [addRipple] does to a puddle: one ripple is pushed, and the oldest
    one is shifted out if there were six already. *)
Lemma addRipple_spec (p : Ground.Puddle.t) (x y : Q) :
  exists r,
    Ground.ripplesFrom x p r /\
    Ground.Puddle.ripples (Ground.addRipple p x y)
    = (if (6 <=? List.length (Ground.Puddle.ripples p))%nat
       then tl (Ground.Puddle.ripples p)
       else Ground.Puddle.ripples p) ++ [r] /\
    Ground.Puddle.x (Ground.addRipple p x y) = Ground.Puddle.x p /\
    Ground.Puddle.width (Ground.addRipple p x y) = Ground.Puddle.width p /\
    Ground.Puddle.height (Ground.addRipple p x y) = Ground.Puddle.height p /\
    Ground.Puddle.compound (Ground.addRipple p x y) = Ground.Puddle.compound p.
Proof.
  unfold Ground.addRipple. cbv zeta.
  cbn [Ground.Puddle.ripples Ground.Puddle.x Ground.Puddle.width
       Ground.Puddle.height Ground.Puddle.compound].
  eexists. split; [|split; [|repeat split]].
  2:{ rewrite length_app. cbn [List.length].
      destruct (Ground.Puddle.ripples p) as [|r0 rest] eqn:El.
      - cbn. reflexivity.
      - destruct (6 <=? List.length (r0 :: rest))%nat eqn:E6.
        + apply Nat.leb_le in E6.
          assert (E7 : (6 <? List.length (r0 :: rest) + 1)%nat = true)
            by (apply Nat.ltb_lt; lia).
          rewrite E7. reflexivity.
        + apply Nat.leb_gt in E6.
          assert (E7 : (6 <? List.length (r0 :: rest) + 1)%nat = false)
            by (apply Nat.ltb_ge; lia).
          rewrite E7. reflexivity. }
  unfold Ground.ripplesFrom. cbn. repeat split.
Qed.

(** What [addSplash] does when the loop hits nothing. *)
Lemma addSplash_miss (g : Ground.t) (x y : Q) (w : JS.World) :
  (forall p, In p (Ground.puddles g) ->
             Ground.hits (Ground.getGroundY g) x y p = false) ->
  let g1 := fst (Ground.addSplash random g x y w) in
  Ground.puddles g1 = Ground.puddles g /\
  Ground.canvas g1 = Ground.canvas g /\
  Ground.groundHeight g1 = Ground.groundHeight g /\
  (y <= Ground.getGroundY g -> Ground.splashes g1 = Ground.splashes g) /\
  (Ground.getGroundY g < y ->
   Ground.spawned y (Ground.splashes g) (Ground.splashes g1)).
Proof.
  intro Hmiss. unfold Ground.addSplash. cbv zeta.
  rewrite (hitFirst_miss _ _ _ _ Hmiss). cbn [negb andb].
  rewrite !bind_run. unfold JS.ret at 1 2 3. cbn [fst snd].
  destruct (Qltb (Ground.getGroundY g) y) eqn:E.
  - apply Qltb_lt in E.
    cbn [Ground.puddles Ground.canvas Ground.groundHeight Ground.splashes].
    repeat split; [lra|].
    intros _. apply createSplashParticles_spawned.
  - apply Qltb_ge in E. unfold JS.ret.
    cbn [fst Ground.puddles Ground.canvas Ground.groundHeight Ground.splashes].
    repeat split; lra.
Qed.

(** What [addSplash] does when the loop hits a puddle. *)
Lemma addSplash_hit (g : Ground.t) (x y : Q) (w : JS.World)
  (before after : list Ground.Puddle.t) (p : Ground.Puddle.t) :
  Ground.puddles g = before ++ p :: after ->
  (forall q, In q before -> Ground.hits (Ground.getGroundY g) x y q = false) ->
  Ground.hits (Ground.getGroundY g) x y p = true ->
  let g1 := fst (Ground.addSplash random g x y w) in
  Ground.puddles g1 = before ++ Ground.addRipple p x y :: after /\
  Ground.canvas g1 = Ground.canvas g /\
  Ground.groundHeight g1 = Ground.groundHeight g /\
  Ground.spawned y (Ground.splashes g) (Ground.splashes g1).
Proof.
  intros Ep Hb Hp. unfold Ground.addSplash. cbv zeta.
  rewrite Ep, (hitFirst_hit _ _ _ _ _ _ Hb Hp). cbn [negb andb].
  rewrite !bind_run. unfold JS.ret at 2 3.
  cbn [fst Ground.puddles Ground.canvas Ground.groundHeight Ground.splashes].
  repeat split. apply createSplashParticles_spawned.
Qed.

Lemma inPuddle_hits (groundY x y : Q) (p : Ground.Puddle.t) :
  Ground.hits groundY x y p = true <-> Ground.inPuddle groundY x y p.
Proof. apply hits_spec. Qed.

Lemma not_inPuddle_hits (groundY x y : Q) (p : Ground.Puddle.t) :
  ~ Ground.inPuddle groundY x y p -> Ground.hits groundY x y p = false.
Proof.
  intro H. destruct (Ground.hits groundY x y p) eqn:E; [|reflexivity].
  exfalso. apply H. apply inPuddle_hits. exact E.
Qed.

(** C1.  [addSplash(x, y)] on the puddle-aware ground.  The loop tests each
    puddle for: [x] within its span (or, for the compound puddle, within the
    span of its smaller part) and groundY < y <= groundY + height + 5.
    Nothing changes when y <= groundY.  When no puddle passes the test and
    y > groundY, the puddles are unchanged and three to six splash
    particles are pushed (so too when there are no puddles).  When [p] is
    the first puddle that passes, [p] gets one new ripple at the end of its
    ripples, the puddles before and after it are unchanged, and three to
    six splash particles are pushed.  One of the two cases always holds. *)
Theorem addSplash_resolution (g : Ground.t) (x y : Q) (w : JS.World) :
  let groundY := Ground.getGroundY g in
  let g1 := fst (Ground.addSplash random g x y w) in
  (forall p,
     Ground.hits groundY x y p = true <-> Ground.inPuddle groundY x y p) /\
  (y <= groundY -> g1 = g) /\
  ((forall p, In p (Ground.puddles g) -> ~ Ground.inPuddle groundY x y p) ->
   groundY < y ->
   Ground.puddles g1 = Ground.puddles g /\
   Ground.spawned y (Ground.splashes g) (Ground.splashes g1)) /\
  (Ground.puddles g = [] -> groundY < y ->
   Ground.puddles g1 = [] /\
   Ground.spawned y (Ground.splashes g) (Ground.splashes g1)) /\
  (forall before p after,
     Ground.puddles g = before ++ p :: after ->
     (forall q, In q before -> ~ Ground.inPuddle groundY x y q) ->
     Ground.inPuddle groundY x y p ->
     Ground.puddles g1 = before ++ Ground.addRipple p x y :: after /\
     (exists r,
        Ground.ripplesFrom x p r /\
        Ground.Puddle.ripples (Ground.addRipple p x y)
        = (if (6 <=? List.length (Ground.Puddle.ripples p))%nat
           then tl (Ground.Puddle.ripples p)
           else Ground.Puddle.ripples p) ++ [r] /\
        Ground.Puddle.x (Ground.addRipple p x y) = Ground.Puddle.x p /\
        Ground.Puddle.width (Ground.addRipple p x y) = Ground.Puddle.width p /\
        Ground.Puddle.height (Ground.addRipple p x y)
        = Ground.Puddle.height p /\
        Ground.Puddle.compound (Ground.addRipple p x y)
        = Ground.Puddle.compound p) /\
     Ground.spawned y (Ground.splashes g) (Ground.splashes g1)) /\
  ((forall p, In p (Ground.puddles g) -> ~ Ground.inPuddle groundY x y p) \/
   exists before p after,
     Ground.puddles g = before ++ p :: after /\
     (forall q, In q before -> ~ Ground.inPuddle groundY x y q) /\
     Ground.inPuddle groundY x y p).
Proof.
  intros groundY g1.
  assert (Hdry : (forall p, In p (Ground.puddles g) ->
                            ~ Ground.inPuddle groundY x y p) ->
                 forall p, In p (Ground.puddles g) ->
                           Ground.hits groundY x y p = false).
  { intros H p Hp. apply not_inPuddle_hits. apply H. exact Hp. }
  split; [intro p; apply inPuddle_hits|].
  split; [|split; [|split; [|split]]].
  - intro Hy.
    assert (Hmiss : forall p, In p (Ground.puddles g) ->
                              Ground.hits groundY x y p = false).
    { intros p _. apply not_inPuddle_hits. intros (_ & Hlt & _). lra. }
    destruct (addSplash_miss g x y w Hmiss)
      as (Hp & Hc & Hh & Hs & _).
    specialize (Hs Hy). fold g1 in Hp, Hc, Hh, Hs.
    destruct g1 as [c1 h1 s1 p1], g as [c0 h0 s0 p0]. cbn in *. congruence.
  - intros Hnone Hy.
    destruct (addSplash_miss g x y w (Hdry Hnone))
      as (Hp & _ & _ & _ & Hs).
    split; [exact Hp | apply Hs; exact Hy].
  - intros Hempty Hy.
    assert (Hnone : forall p, In p (Ground.puddles g) ->
                              Ground.hits groundY x y p = false).
    { rewrite Hempty. intros p []. }
    destruct (addSplash_miss g x y w Hnone)
      as (Hp & _ & _ & _ & Hs).
    split; [rewrite <- Hempty; exact Hp | apply Hs; exact Hy].
  - intros before p after Ep Hb Hp.
    destruct (addSplash_hit g x y w before after p Ep)
      as (Hp1 & _ & _ & Hs).
    + intros q Hq. apply not_inPuddle_hits. apply Hb. exact Hq.
    + apply inPuddle_hits. exact Hp.
    + split; [exact Hp1|]. split; [|exact Hs].
      destruct (addRipple_spec p x y) as (r & Hr & Hl & Hx & Hw & Hh & Hc).
      exists r. split; [exact Hr|]. split; [exact Hl|]. auto.
  - destruct (first_hit groundY x y (Ground.puddles g))
      as [Hmiss | (before & p & after & Ep & Hb & Hp)].
    + left. intros p Hin Hp. apply inPuddle_hits in Hp.
      rewrite (Hmiss p Hin) in Hp. discriminate.
    + right. exists before, p, after. split; [exact Ep|]. split.
      * intros q Hq Hin. apply inPuddle_hits in Hin.
        rewrite (Hb q Hq) in Hin. discriminate.
      * apply inPuddle_hits. exact Hp.
Qed.

(** *** The invariant *)

Lemma createPuddles_dry (c : Canvas.t) (w : JS.World) (p : Ground.Puddle.t) :
  In p (fst (Ground.createPuddles random c w)) -> Ground.Puddle.ripples p = [].
Proof.
  unfold Ground.createPuddles. run_js. cbn [map In].
  intros [<- | [<- | [<- | []]]]; reflexivity.
Qed.

Lemma fresh_ripple_timed (x : Q) (p : Ground.Puddle.t) (r : Ground.Ripple.t) :
  Ground.ripplesFrom x p r -> Ground.timed r.
Proof.
  intros (_ & _ & Hr & Ho & Ht & _). unfold Ground.timed.
  rewrite Hr, Ho, Ht. split; reflexivity.
Qed.

Lemma spread_timed (dt : Q) (r : Ground.Ripple.t) :
  Ground.timed (Ground.spread dt r).
Proof. unfold Ground.timed, Ground.spread. cbn. split; reflexivity. Qed.

Lemma addRipple_timed (p : Ground.Puddle.t) (x y : Q) :
  (forall r, In r (Ground.Puddle.ripples p) -> Ground.timed r) ->
  forall r, In r (Ground.Puddle.ripples (Ground.addRipple p x y)) ->
            Ground.timed r.
Proof.
  intros H r Hin.
  destruct (addRipple_spec p x y) as (r0 & Hr0 & E & _).
  rewrite E in Hin. apply in_app_or in Hin. destruct Hin as [Hin | [<- | []]].
  - apply H. destruct (6 <=? _)%nat; [|exact Hin].
    destruct (Ground.Puddle.ripples p); [exact Hin | right; exact Hin].
  - apply (fresh_ripple_timed x p). exact Hr0.
Qed.

Lemma addSplash_sound (g : Ground.t) (x y : Q) (w : JS.World) :
  Ground.sound g -> Ground.sound (fst (Ground.addSplash random g x y w)).
Proof.
  intros [Hlen Hrip].
  destruct (first_hit (Ground.getGroundY g) x y (Ground.puddles g))
    as [Hmiss | (before & p & after & Ep & Hb & Hp)].
  - destruct (addSplash_miss g x y w Hmiss) as (Epud & _ & _ & Hlow & Hhigh).
    split.
    + destruct (Qlt_le_dec (Ground.getGroundY g) y) as [Hy | Hy].
      * apply (spawned_capped y (Ground.splashes g)). apply Hhigh. exact Hy.
      * rewrite (Hlow Hy). exact Hlen.
    + rewrite Epud. exact Hrip.
  - destruct (addSplash_hit g x y w before after p Ep Hb Hp)
      as (Epud & _ & _ & Hs).
    split.
    + apply (spawned_capped y (Ground.splashes g)). exact Hs.
    + rewrite Epud. intros q r Hq Hr.
      apply in_app_or in Hq. destruct Hq as [Hq | [<- | Hq]].
      * apply (Hrip q r); [rewrite Ep; apply in_or_app; left|]; assumption.
      * revert r Hr. apply addRipple_timed. intros r Hr.
        apply (Hrip p r); [rewrite Ep; apply in_or_app; right; left|]; auto.
      * apply (Hrip q r);
          [rewrite Ep; apply in_or_app; right; right|]; assumption.
Qed.

Lemma update_sound_ground (g : Ground.t) (dt : Q) :
  Ground.sound g -> Ground.sound (Ground.update g dt).
Proof.
  intros [Hlen Hrip]. split.
  - cbn. eapply Nat.le_trans; [apply filter_step_length | exact Hlen].
  - cbn. intros p r Hp Hr. apply in_map_iff in Hp.
    destruct Hp as (p0 & <- & _). cbn in Hr.
    apply filter_step_In in Hr. destruct Hr as (r0 & _ & -> & _).
    apply spread_timed.
Qed.

Lemma reachable_sound_ground (g : Ground.t) :
  Ground.reachable random g -> Ground.sound g.
Proof.
  induction 1 as [c w | g x y w _ IH | g dt _ IH | g c _ IH | g w _ IH].
  - unfold Ground.new. run_js.
    split; [cbn; lia|]. cbn [Ground.puddles]. intros p r Hp Hr.
    rewrite (createPuddles_dry _ _ _ Hp) in Hr. destruct Hr.
  - apply addSplash_sound. exact IH.
  - apply update_sound_ground. exact IH.
  - exact IH.
  - destruct IH as [Hlen _].
    unfold Ground.onCanvasResize. run_js.
    split; [exact Hlen|]. cbn [Ground.puddles]. intros p r Hp Hr.
    rewrite (createPuddles_dry _ _ _ Hp) in Hr. destruct Hr.
Qed.

(** *** Frames *)

(** C7, as the code has it.  In [update(deltaTime)], for any frame time, a
    splash particle stays exactly when, after its physics step, its life is
    positive and its y is at most its impact y; so it is removed exactly
    when its life is at most 0 or its y is greater than its impact y: it
    has sunk below where it struck.  A particle whose y equals its impact y
    stays.  The pool afterwards holds the stepped particles that stay, and
    nothing else. *)
Theorem splash_removal (g : Ground.t) (deltaTime : Q) (s : Ground.Splash.t) :
  In s (Ground.splashes g) ->
  let s1 := Ground.step deltaTime s in
  let pool := Ground.splashes (Ground.update g deltaTime) in
  (In s1 pool <->
   0 < Ground.Splash.life s1 /\
   Ground.Splash.y s1 <= Ground.Splash.impactY s1) /\
  (~ In s1 pool <->
   Ground.Splash.life s1 <= 0 \/
   Ground.Splash.impactY s1 < Ground.Splash.y s1) /\
  Ground.Splash.impactY s1 = Ground.Splash.impactY s /\
  forall s', In s' pool ->
    (exists s0, In s0 (Ground.splashes g) /\ s' = Ground.step deltaTime s0) /\
    0 < Ground.Splash.life s' /\
    Ground.Splash.y s' <= Ground.Splash.impactY s'.
Proof.
  intros Hin s1 pool.
  assert (Hstays : forall a, Ground.stays a = true <->
            0 < Ground.Splash.life a /\
            Ground.Splash.y a <= Ground.Splash.impactY a).
  { intro a. unfold Ground.stays.
    rewrite andb_true_iff, Qltb_lt, Qleb_le. tauto. }
  assert (Hkept : In s1 pool <->
            0 < Ground.Splash.life s1 /\
            Ground.Splash.y s1 <= Ground.Splash.impactY s1).
  { unfold pool. cbn [Ground.update Ground.splashes].
    rewrite filter_step_In, <- Hstays. split.
    - intros (a & _ & _ & Hk). exact Hk.
    - intro Hk. exists s. auto. }
  split; [exact Hkept|]. split; [|split; [reflexivity|]].
  - rewrite Hkept. split.
    + intro Hn.
      destruct (Qlt_le_dec 0 (Ground.Splash.life s1)) as [Hl | Hl];
        [|left; exact Hl].
      destruct (Qlt_le_dec (Ground.Splash.impactY s1) (Ground.Splash.y s1))
        as [Hy | Hy]; [right; exact Hy|].
      exfalso. apply Hn. split; assumption.
    + intros [Hl | Hy] [Hl' Hy']; lra.
  - intros s' Hs'. unfold pool in Hs'.
    cbn [Ground.update Ground.splashes] in Hs'.
    apply filter_step_In in Hs'. destruct Hs' as (a & Ha & E & Hk).
    apply Hstays in Hk. split; [exists a; auto | exact Hk].
Qed.

(** C8.  In [update(deltaTime)] with a frame time that is not negative, on a
    ground that construction, impacts, frames and resizes have led to, every
    ripple of every puddle gets a radius that is at least the old one and
    an opacity that is at most the old one, and keeps its [maxRadius]; it
    is removed in that very update exactly when its new radius has reached
    [maxRadius] or its new opacity has reached 0, and stays otherwise.  The
    ripples of the puddle afterwards are the ones that stay. *)
Theorem ripples_grow_and_fade (g : Ground.t) (deltaTime : Q) (i : nat)
  (p : Ground.Puddle.t) :
  Ground.reachable random g ->
  0 <= deltaTime ->
  nth_error (Ground.puddles g) i = Some p ->
  exists p1,
    nth_error (Ground.puddles (Ground.update g deltaTime)) i = Some p1 /\
    (forall r, In r (Ground.Puddle.ripples p) ->
       let r1 := Ground.spread deltaTime r in
       Ground.Ripple.radius r <= Ground.Ripple.radius r1 /\
       Ground.Ripple.opacity r1 <= Ground.Ripple.opacity r /\
       Ground.Ripple.maxRadius r1 = Ground.Ripple.maxRadius r /\
       (~ In r1 (Ground.Puddle.ripples p1) <->
        Ground.Ripple.maxRadius r1 <= Ground.Ripple.radius r1 \/
        Ground.Ripple.opacity r1 <= 0) /\
       (In r1 (Ground.Puddle.ripples p1) <->
        Ground.Ripple.radius r1 < Ground.Ripple.maxRadius r1 /\
        0 < Ground.Ripple.opacity r1)) /\
    (forall r1, In r1 (Ground.Puddle.ripples p1) ->
       exists r, In r (Ground.Puddle.ripples p) /\
                 r1 = Ground.spread deltaTime r).
Proof.
  intros Hr Hdt Hp.
  destruct (reachable_sound_ground g Hr) as [_ Hrip].
  exists (Ground.updateRipples deltaTime p). split.
  - cbn [Ground.update Ground.puddles]. rewrite nth_error_map, Hp. reflexivity.
  - assert (Hvis : forall a, Ground.visible a = true <->
              Ground.Ripple.radius a < Ground.Ripple.maxRadius a /\
              0 < Ground.Ripple.opacity a).
    { intro a. unfold Ground.visible.
      rewrite andb_true_iff, !Qltb_lt. tauto. }
    split.
    + intros r Hin r1.
      destruct (Hrip p r (nth_error_In _ _ Hp) Hin) as [Hrad Hop].
      assert (Hkept : In r1 (Ground.Puddle.ripples
                               (Ground.updateRipples deltaTime p)) <->
                Ground.Ripple.radius r1 < Ground.Ripple.maxRadius r1 /\
                0 < Ground.Ripple.opacity r1).
      { cbn [Ground.updateRipples Ground.Puddle.ripples].
        rewrite filter_step_In, <- Hvis. split.
        - intros (a & _ & _ & Hk). exact Hk.
        - intro Hk. exists r. auto. }
      split; [|split; [|split; [reflexivity|split; [|exact Hkept]]]].
      * rewrite Hrad. subst r1. cbn. lra.
      * rewrite Hop. subst r1. cbn. apply Q.max_le_compat_l. lra.
      * rewrite Hkept. split.
        -- intro Hn.
           destruct (Qlt_le_dec (Ground.Ripple.radius r1)
                       (Ground.Ripple.maxRadius r1)) as [H1 | H1];
             [|left; exact H1].
           destruct (Qlt_le_dec 0 (Ground.Ripple.opacity r1)) as [H2 | H2];
             [|right; exact H2].
           exfalso. apply Hn. split; assumption.
        -- intros [H1 | H1] [H2 H3]; lra.
    + intros r1 Hin. cbn [Ground.updateRipples Ground.Puddle.ripples] in Hin.
      apply filter_step_In in Hin. destruct Hin as (a & Ha & E & _).
      exists a. auto.
Qed.

(** C6.  After [addSplash] on a ground that construction, impacts, frames
    and resizes have led to, the splash pool has at most 200 entries; it is
    the old pool with the (at most six) new particles pushed, trimmed: left
    as it is up to 200 entries, and cut to the most recent 150 beyond that.
    The same holds of [addSplash] of the first Ground class, which always
    pushes three to six particles. *)
Theorem splash_pool_capped :
  (forall g x y w,
     Ground.reachable random g ->
     let pool := Ground.splashes (fst (Ground.addSplash random g x y w)) in
     (List.length pool <= 200)%nat /\
     exists fresh,
       (List.length fresh <= 6)%nat /\
       trimmed (Ground.splashes g ++ fresh) pool) /\
  (forall g x y w,
     let pool :=
       SimpleGround.splashes (fst (SimpleGround.addSplash random g x y w)) in
     (List.length pool <= 200)%nat /\
     exists fresh,
       (3 <= List.length fresh <= 6)%nat /\
       trimmed (SimpleGround.splashes g ++ fresh) pool).
Proof.
  assert (Htrim : forall A (pushed : list A),
            trimmed pushed
              (if (200 <? List.length pushed)%nat
               then slice_last 150 pushed else pushed) /\
            (List.length (if (200 <? List.length pushed)%nat
                          then slice_last 150 pushed else pushed) <= 200)%nat).
  { intros A pushed. destruct (200 <? _)%nat eqn:E.
    - apply Nat.ltb_lt in E. split; [split|].
      + lia.
      + intros _. split; [rewrite slice_last_length; lia|].
        apply slice_last_suffix.
      + rewrite slice_last_length. lia.
    - apply Nat.ltb_ge in E. split; [split|]; [reflexivity | lia | exact E]. }
  split.
  - intros g x y w Hr pool.
    destruct (reachable_sound_ground g Hr) as [Hlen _].
    assert (Hsp : pool = Ground.splashes g \/
                  Ground.spawned y (Ground.splashes g) pool).
    { destruct (first_hit (Ground.getGroundY g) x y (Ground.puddles g))
        as [Hmiss | (before & p & after & Ep & Hb & Hp)].
      - destruct (addSplash_miss g x y w Hmiss) as (_ & _ & _ & Hlow & Hhigh).
        destruct (Qlt_le_dec (Ground.getGroundY g) y) as [Hy | Hy];
          [right; apply Hhigh; exact Hy | left; apply Hlow; exact Hy].
      - destruct (addSplash_hit g x y w before after p Ep Hb Hp)
          as (_ & _ & _ & Hs).
        right. exact Hs. }
    destruct Hsp as [E | (fresh & Hn & _ & E)].
    + rewrite E. split; [exact Hlen|]. exists []. split; [cbn; lia|].
      rewrite app_nil_r. split; [reflexivity | lia].
    + rewrite E. split; [apply Htrim|]. exists fresh.
      split; [lia | apply Htrim].
  - intros g x y w pool. subst pool.
    unfold SimpleGround.addSplash. cbv zeta. rewrite !bind_run.
    unfold JS.ret. cbn [fst SimpleGround.splashes].
    match goal with
    | |- context [JS.for_push ?c ?f ?b ?a ?w0] =>
        destruct (for_push_run (fun _ => True) b (fun _ _ => I) c f a w0)
          as (fresh & E & Hn & _)
    end.
    rewrite E. split; [apply Htrim|]. exists fresh. split; [|apply Htrim].
    rewrite Hn. apply particleCount_range. apply random_unit.
Qed.

End GroundFacts.

Lemma addSplash_resolution_witness :
  Ground.inPuddle (Ground.getGroundY Sample.ground) 160 521 Sample.medium /\
  Ground.puddles Sample.wetGround
  = [] ++ Ground.addRipple Sample.medium 160 521
          :: tl (Ground.puddles Sample.ground).
Proof.
  assert (Hin : Ground.inPuddle (Ground.getGroundY Sample.ground) 160 521
                  Sample.medium)
    by (apply hits_spec; vm_compute; reflexivity).
  split; [exact Hin|].
  refine (proj1 (proj1 (proj2 (proj2 (proj2 (proj2
            (addSplash_resolution Sample.random sample_random_unit
               Sample.ground 160 521 JS.start)))))
            [] Sample.medium (tl (Ground.puddles Sample.ground)) _ _ Hin)).
  - vm_compute. reflexivity.
  - intros q [].
Defined.

Lemma splash_removal_witness :
  In Sample.particle (Ground.splashes Sample.struckGround) /\
  In (Ground.step 16 Sample.particle)
     (Ground.splashes (Ground.update Sample.struckGround 16)).
Proof.
  assert (Hin : In Sample.particle (Ground.splashes Sample.struckGround))
    by (vm_compute; left; reflexivity).
  split; [exact Hin|].
  apply (proj1 (splash_removal Sample.struckGround 16 Sample.particle Hin)).
  split; vm_compute; [reflexivity | discriminate].
Defined.

(** C7 as stated fails.  After a frame of 0 ms the particle [Sample.particle]
    has life 1 and its y equals its impact y, 521: its y is at its impact
    y, which by the specification removes it, and it is still in the pool. *)
Lemma splash_at_impact_height_stays :
  let s1 := Ground.step 0 Sample.particle in
  Ground.reachable Sample.random Sample.struckGround /\
  In Sample.particle (Ground.splashes Sample.struckGround) /\
  Ground.Splash.y s1 == Ground.Splash.impactY s1 /\
  (Ground.Splash.life s1 <= 0 \/
   Ground.Splash.impactY s1 <= Ground.Splash.y s1) /\
  In s1 (Ground.splashes (Ground.update Sample.struckGround 0)).
Proof.
  split; [apply Ground.reach_addSplash, Ground.reach_new|].
  split; [vm_compute; left; reflexivity|].
  split; [vm_compute; reflexivity|].
  split; [right; vm_compute; discriminate|].
  vm_compute. left. reflexivity.
Qed.

Lemma ripples_grow_and_fade_witness :
  Ground.reachable Sample.random Sample.wetGround /\
  0 <= 16 /\
  nth_error (Ground.puddles Sample.wetGround) 0 = Some Sample.wetMedium /\
  exists p1,
    nth_error (Ground.puddles (Ground.update Sample.wetGround 16)) 0
    = Some p1 /\
    List.length (Ground.Puddle.ripples p1) = 1%nat.
Proof.
  assert (Hr : Ground.reachable Sample.random Sample.wetGround)
    by apply Ground.reach_addSplash, Ground.reach_new.
  assert (Hdt : 0 <= 16) by discriminate.
  assert (Hp : nth_error (Ground.puddles Sample.wetGround) 0
               = Some Sample.wetMedium) by (vm_compute; reflexivity).
  split; [exact Hr|]. split; [exact Hdt|]. split; [exact Hp|].
  destruct (ripples_grow_and_fade Sample.random sample_random_unit
              Sample.wetGround 16 0 Sample.wetMedium Hr Hdt Hp)
    as (p1 & Hp1 & _).
  exists p1. split; [exact Hp1|].
  cbn [Ground.update Ground.puddles] in Hp1.
  rewrite nth_error_map, Hp in Hp1. injection Hp1 as <-.
  vm_compute. reflexivity.
Defined.

Lemma splash_pool_capped_witness :
  Ground.reachable Sample.random Sample.ground /\
  (List.length (Ground.splashes Sample.struckGround) <= 200)%nat /\
  (List.length
     (SimpleGround.splashes
        (fst (SimpleGround.addSplash Sample.random Sample.simpleGround 20 521
                JS.start))) <= 200)%nat.
Proof.
  assert (Hr : Ground.reachable Sample.random Sample.ground)
    by apply Ground.reach_new.
  split; [exact Hr|]. split.
  - exact (proj1 (proj1 (splash_pool_capped Sample.random sample_random_unit)
                    Sample.ground 20 521 JS.start Hr)).
  - exact (proj1 (proj2 (splash_pool_capped Sample.random sample_random_unit)
                    Sample.simpleGround 20 521 JS.start)).
Defined.

(** ** Runs of the model on the sample host *)

Example drop_constructed :
  Raindrop.velocityY Sample.drop == 2 /\
  Raindrop.acceleration Sample.drop == 0.4 /\
  Raindrop.terminalVelocity Sample.drop == 16.
Proof. repeat split; reflexivity. Qed.

Example drop_first_frame :
  Raindrop.velocityY (Raindrop.update Sample.sin Sample.drop 600) == 2.352.
Proof. reflexivity. Qed.

Example flash_at_three_moments :
  Lightning.getFlashIntensity Sample.rising == 0.3 /\
  Lightning.getFlashIntensity Sample.peak == 0.6 /\
  Lightning.getFlashIntensity Sample.fading == 0.3.
Proof. repeat split; reflexivity. Qed.

Example flash_before_any_strike :
  Lightning.getFlashIntensity (fst (Lightning.new Sample.random true JS.start))
  = 0.
Proof. reflexivity. Qed.

Example strike_draws_four_branches :
  map (fun b => List.length (Lightning.segments b))
      (Lightning.branches Sample.struck)
  = [13; 13; 13; 13]%nat.
Proof. vm_compute. reflexivity. Qed.

Example seven_clicks_on_increase :
  let click s := fst (RainScene.increaseIntensity Sample.random s JS.start) in
  let s := Nat.iter 7 click Sample.scene in
  RainScene.rainIntensity s = 500%Z /\
  List.length (RainScene.raindrops s) = 500%nat.
Proof. vm_compute. split; reflexivity. Qed.

Example five_clicks_on_decrease :
  let click s := fst (RainScene.decreaseIntensity Sample.random s JS.start) in
  let s := Nat.iter 5 click Sample.scene in
  RainScene.rainIntensity s = 50%Z /\
  List.length (RainScene.raindrops s) = 50%nat.
Proof. vm_compute. split; reflexivity. Qed.

Example pool_trimmed_at_the_41st_impact :
  let impact g := fst (Ground.addSplash Sample.random g 20 521 JS.start) in
  List.length (Ground.splashes (Nat.iter 40 impact Sample.ground)) = 200%nat /\
  List.length (Ground.splashes (Nat.iter 41 impact Sample.ground)) = 150%nat.
Proof. vm_compute. split; reflexivity. Qed.

Example impact_above_ground_spawns_nothing :
  fst (Ground.addSplash Sample.random Sample.ground 160 520 JS.start)
  = Sample.ground.
Proof. vm_compute. reflexivity. Qed.

Example ripple_after_16_ms :
  Forall (fun r => Ground.Ripple.radius r == 0.32 /\
                   Ground.Ripple.opacity r == 0.9808)
         (Ground.Puddle.ripples (Ground.updateRipples 16 Sample.wetMedium)) /\
  List.length (Ground.Puddle.ripples (Ground.updateRipples 16 Sample.wetMedium))
  = 1%nat.
Proof.
  split; [|vm_compute; reflexivity].
  vm_compute. constructor; [split; reflexivity | constructor].
Qed.

Example ripple_gone_at_its_maxRadius :
  Ground.Puddle.ripples (Ground.updateRipples 499 Sample.wetMedium) <> [] /\
  Ground.Puddle.ripples (Ground.updateRipples 500 Sample.wetMedium) = [].
Proof. vm_compute. split; [discriminate | reflexivity]. Qed.

Example six_ripples_at_most :
  let impact g := fst (Ground.addSplash Sample.random g 160 521 JS.start) in
  map (fun p => List.length (Ground.Puddle.ripples p))
      (Ground.puddles (Nat.iter 8 impact Sample.ground))
  = [6; 0; 0]%nat.
Proof. vm_compute. reflexivity. Qed.

(** ** More on raindrops *)

Section RaindropLifecycle.

Variable random : nat -> Q.
Variable sin : Q -> Q.
Hypothesis random_unit : forall n, 0 <= random n < 1.

Lemma fall_at_least_one (d : Raindrop.t) :
  Raindrop.seeded d -> 1 <= Raindrop.fall d.
Proof.
  intros (Hl & Hw & _ & Ha & Hm & Ht & Hv). unfold Raindrop.fall.
  destruct (Qltb _ _); [|exact Hv]. cbv zeta.
  apply Q.min_glb; [lra|]. rewrite Ht, Hm. nra.
Qed.

Lemma reachable_seeded (d : Raindrop.t) :
  Raindrop.reachable random sin d -> Raindrop.seeded d.
Proof.
  induction 1 as [cw ch w | d ch _ IH | d cw w _ IH];
    unfold Raindrop.seeded in *.
  - cbn.
    pose proof (random_unit (3 + JS.draws w)) as H4.
    pose proof (random_unit (4 + JS.draws w)) as H5.
    pose proof (random_unit (5 + JS.draws w)) as H6.
    pose proof (random_unit (6 + JS.draws w)) as H7.
    pose proof (random_unit (7 + JS.draws w)) as H8.
    cbn in H4, H5, H6, H7, H8.
    repeat split; try lra; reflexivity.
  - pose proof (fall_at_least_one d IH) as Hf.
    destruct IH as (Hl & Hw & Ho & Ha & Hm & Ht & Hv). cbn.
    repeat split; try lra; assumption.
  - destruct IH as (_ & Hw & _). cbn.
    pose proof (random_unit (1 + JS.draws w)) as H2.
    pose proof (random_unit (2 + JS.draws w)) as H3.
    pose proof (random_unit (3 + JS.draws w)) as H4.
    pose proof (random_unit (4 + JS.draws w)) as H5.
    cbn in H2, H3, H4, H5.
    repeat split; try lra; reflexivity.
Qed.

Lemma seeded_terminal (d : Raindrop.t) :
  Raindrop.seeded d ->
  1 <= Raindrop.mass d < 9 /\ 10 <= Raindrop.terminalVelocity d < 26.
Proof.
  intros (Hl & Hw & _ & _ & Hm & Ht & _). rewrite Ht, Hm.
  repeat split; nra.
Qed.

Lemma frames_fall (heights : list Q) (d : Raindrop.t) :
  Raindrop.reachable random sin d ->
  Raindrop.y d + inject_Z (Z.of_nat (List.length heights))
  <= Raindrop.y (Raindrop.frames sin heights d) /\
  Raindrop.length (Raindrop.frames sin heights d) = Raindrop.length d.
Proof.
  revert d. induction heights as [|h rest IH]; intros d Hr.
  - cbn. split; [change (inject_Z 0) with 0; lra | reflexivity].
  - destruct (IH (Raindrop.update sin d h) (Raindrop.reach_update _ _ d h Hr))
      as [Hy Hl].
    pose proof (fall_at_least_one d (reachable_seeded d Hr)) as Hf.
    cbn [Raindrop.frames List.length]. split; [|exact Hl].
    rewrite Nat2Z.inj_succ. unfold Z.succ. rewrite inject_Z_plus.
    change (inject_Z 1) with 1.
    change (Raindrop.y (Raindrop.update sin d h))
      with (Raindrop.y d + Raindrop.fall d) in Hy.
    lra.
Qed.

(** X1.  A raindrop fresh from the constructor, on a canvas of positive
    width and height: it is placed above the canvas, within its width; its
    size, opacity and physics constants are in their ranges (the width and
    the velocity from 1 to 3, the acceleration from 0.3 to 0.5, ends
    included); the terminal velocity, derived from the mass, is between 10
    and 26, and the initial velocity is below it. *)
Theorem constructor_seeds (canvasWidth canvasHeight : Q) (w : JS.World) :
  0 < canvasWidth -> 0 < canvasHeight ->
  let d := fst (Raindrop.new random canvasWidth canvasHeight w) in
  0 <= Raindrop.x d < canvasWidth /\
  - canvasHeight <= Raindrop.y d < 0 /\
  5 <= Raindrop.speed d < 15 /\
  10 <= Raindrop.length d < 30 /\
  0.4 <= Raindrop.opacity d < 1 /\
  1 <= Raindrop.width d <= 3 /\
  1 <= Raindrop.velocityY d <= 3 /\
  0.3 <= Raindrop.acceleration d <= 0.5 /\
  Raindrop.mass d == Raindrop.width d * Raindrop.length d * 0.1 /\
  Raindrop.terminalVelocity d == 8 + Raindrop.mass d * 2 /\
  10 <= Raindrop.terminalVelocity d < 26 /\
  Raindrop.velocityY d < Raindrop.terminalVelocity d.
Proof.
  intros Hcw Hch d. subst d. cbn.
  pose proof (random_unit (JS.draws w)) as H1.
  pose proof (random_unit (1 + JS.draws w)) as H2.
  pose proof (random_unit (2 + JS.draws w)) as H3.
  pose proof (random_unit (3 + JS.draws w)) as H4.
  pose proof (random_unit (4 + JS.draws w)) as H5.
  pose proof (random_unit (5 + JS.draws w)) as H6.
  pose proof (random_unit (6 + JS.draws w)) as H7.
  pose proof (random_unit (7 + JS.draws w)) as H8.
  cbn in H2, H3, H4, H5, H6, H7, H8.
  repeat split; try nra; reflexivity.
Qed.

(** X2.  Through the whole life of a raindrop (constructor, frames, resets)
    its length stays in [10, 30), its width in [1, 3], its opacity in
    [0.4, 1) and its acceleration in [0.3, 0.5]; its mass is
    width * length * 0.1 and its terminal velocity is 8 + 2 * mass, which
    lies in [10, 26); and its velocity is at least 1. *)
Theorem lifecycle_keeps_seed (d : Raindrop.t) :
  Raindrop.reachable random sin d ->
  10 <= Raindrop.length d < 30 /\
  1 <= Raindrop.width d <= 3 /\
  0.4 <= Raindrop.opacity d < 1 /\
  0.3 <= Raindrop.acceleration d <= 0.5 /\
  Raindrop.mass d == Raindrop.width d * Raindrop.length d * 0.1 /\
  Raindrop.terminalVelocity d == 8 + Raindrop.mass d * 2 /\
  10 <= Raindrop.terminalVelocity d < 26 /\
  1 <= Raindrop.velocityY d.
Proof.
  intro Hr. pose proof (reachable_seeded d Hr) as Hs.
  destruct (seeded_terminal d Hs) as [_ Ht].
  destruct Hs as (Hl & Hw & Ho & Ha & Hm & Hv & H1).
  repeat split; try lra; assumption.
Qed.

(** X3.  A frame moves a raindrop down by its new velocity, which is at
    least 1, so [y] grows by at least 1; [speed] is set to the new velocity;
    the size, the opacity and the physics constants are left alone. *)
Theorem update_falls (d : Raindrop.t) (canvasHeight : Q) :
  Raindrop.reachable random sin d ->
  let d1 := Raindrop.update sin d canvasHeight in
  Raindrop.y d1 = Raindrop.y d + Raindrop.velocityY d1 /\
  1 <= Raindrop.velocityY d1 /\
  Raindrop.y d + 1 <= Raindrop.y d1 /\
  Raindrop.speed d1 = Raindrop.velocityY d1 /\
  Raindrop.length d1 = Raindrop.length d /\
  Raindrop.width d1 = Raindrop.width d /\
  Raindrop.opacity d1 = Raindrop.opacity d /\
  Raindrop.acceleration d1 = Raindrop.acceleration d /\
  Raindrop.terminalVelocity d1 = Raindrop.terminalVelocity d /\
  Raindrop.mass d1 = Raindrop.mass d.
Proof.
  intros Hr d1.
  pose proof (fall_at_least_one d (reachable_seeded d Hr)) as Hf.
  subst d1. cbn. repeat split; try reflexivity; lra.
Qed.

(** X4.  Every raindrop leaves the canvas: after more frames than the
    distance from its [y] to canvasHeight + length, [isOutOfBounds] holds. *)
Theorem raindrop_leaves_canvas (d : Raindrop.t) (canvasHeight : Q) (n : nat) :
  Raindrop.reachable random sin d ->
  canvasHeight + Raindrop.length d - Raindrop.y d < inject_Z (Z.of_nat n) ->
  Raindrop.isOutOfBounds
    (Raindrop.frames sin (repeat canvasHeight n) d) canvasHeight = true.
Proof.
  intros Hr Hn.
  destruct (frames_fall (repeat canvasHeight n) d Hr) as [Hy Hl].
  rewrite repeat_length in Hy.
  unfold Raindrop.isOutOfBounds. apply Qltb_lt. rewrite Hl. lra.
Qed.

(** X5.  With a sine between -1 and 1, the wind moves a raindrop
    horizontally by at most 0.5 per frame. *)
Theorem wind_drift_bounded (d : Raindrop.t) (canvasHeight : Q) :
  (forall q, - 1 <= sin q <= 1) ->
  - 0.5 <= Raindrop.x (Raindrop.update sin d canvasHeight) - Raindrop.x d
  <= 0.5.
Proof.
  intro Hsin. cbn.
  set (y1 := Raindrop.y d + Raindrop.fall d).
  pose proof (Hsin (y1 * 0.008)) as H1.
  pose proof (Hsin (y1 * 0.015)) as H2.
  split; lra.
Qed.

(** X6.  [reset] puts a raindrop back in bounds: on a canvas whose height is
    not negative the reset raindrop is not out of bounds.  It keeps its
    width, draws a length in [10, 30) and a velocity in [1, 3], below the
    new terminal velocity, and sets [speed] to that velocity. *)
Theorem reset_reseeds (d : Raindrop.t) (canvasWidth canvasHeight : Q)
  (w : JS.World) :
  Raindrop.reachable random sin d ->
  0 <= canvasHeight ->
  let d1 := fst (Raindrop.reset random d canvasWidth w) in
  Raindrop.isOutOfBounds d1 canvasHeight = false /\
  Raindrop.width d1 = Raindrop.width d /\
  10 <= Raindrop.length d1 < 30 /\
  1 <= Raindrop.velocityY d1 <= 3 /\
  Raindrop.speed d1 = Raindrop.velocityY d1 /\
  Raindrop.velocityY d1 < Raindrop.terminalVelocity d1.
Proof.
  intros Hr Hch d1.
  destruct (reachable_seeded d Hr) as (Hl & Hw & _).
  subst d1. unfold Raindrop.isOutOfBounds. rewrite Qltb_ge. cbn.
  pose proof (random_unit (1 + JS.draws w)) as H2.
  pose proof (random_unit (3 + JS.draws w)) as H4.
  cbn in H2, H4.
  repeat split; try nra; reflexivity.
Qed.

End RaindropLifecycle.

Lemma sample_sin_bounded : forall q, - 1 <= Sample.sin q <= 1.
Proof. intro q. unfold Sample.sin. lra. Qed.

Lemma constructor_seeds_witness :
  0 < 800 /\ 0 < 600 /\
  Raindrop.velocityY Sample.drop < Raindrop.terminalVelocity Sample.drop.
Proof.
  assert (Hw : 0 < 800) by reflexivity.
  assert (Hh : 0 < 600) by reflexivity.
  split; [exact Hw|]. split; [exact Hh|].
  apply (constructor_seeds Sample.random sample_random_unit 800 600 JS.start
           Hw Hh).
Defined.

Lemma lifecycle_keeps_seed_witness :
  Raindrop.reachable Sample.random Sample.sin Sample.drop /\
  10 <= Raindrop.length Sample.drop < 30.
Proof.
  assert (H : Raindrop.reachable Sample.random Sample.sin Sample.drop)
    by apply Raindrop.reach_new.
  split; [exact H|].
  exact (proj1 (lifecycle_keeps_seed Sample.random Sample.sin
                  sample_random_unit Sample.drop H)).
Defined.

Lemma update_falls_witness :
  Raindrop.reachable Sample.random Sample.sin Sample.drop /\
  Raindrop.y Sample.drop + 1
  <= Raindrop.y (Raindrop.update Sample.sin Sample.drop 600).
Proof.
  assert (H : Raindrop.reachable Sample.random Sample.sin Sample.drop)
    by apply Raindrop.reach_new.
  split; [exact H|].
  exact (proj1 (proj2 (proj2 (update_falls Sample.random Sample.sin
                                sample_random_unit Sample.drop 600 H)))).
Defined.

Lemma raindrop_leaves_canvas_witness :
  Raindrop.reachable Sample.random Sample.sin Sample.drop /\
  600 + Raindrop.length Sample.drop - Raindrop.y Sample.drop
  < inject_Z (Z.of_nat 921) /\
  Raindrop.isOutOfBounds
    (Raindrop.frames Sample.sin (repeat 600 921) Sample.drop) 600 = true.
Proof.
  assert (H : Raindrop.reachable Sample.random Sample.sin Sample.drop)
    by apply Raindrop.reach_new.
  assert (Hn : 600 + Raindrop.length Sample.drop - Raindrop.y Sample.drop
               < inject_Z (Z.of_nat 921)) by (vm_compute; reflexivity).
  split; [exact H|]. split; [exact Hn|].
  exact (raindrop_leaves_canvas Sample.random Sample.sin sample_random_unit
           Sample.drop 600 921 H Hn).
Defined.

Lemma wind_drift_bounded_witness :
  (forall q, - 1 <= Sample.sin q <= 1) /\
  Raindrop.x (Raindrop.update Sample.sin Sample.drop 600)
  - Raindrop.x Sample.drop <= 0.5.
Proof.
  split; [exact sample_sin_bounded|].
  exact (proj2 (wind_drift_bounded Sample.sin Sample.drop 600
                  sample_sin_bounded)).
Defined.

Lemma reset_reseeds_witness :
  Raindrop.reachable Sample.random Sample.sin Sample.drop /\
  0 <= 600 /\
  Raindrop.isOutOfBounds
    (fst (Raindrop.reset Sample.random Sample.drop 800 JS.start)) 600 = false.
Proof.
  assert (H : Raindrop.reachable Sample.random Sample.sin Sample.drop)
    by apply Raindrop.reach_new.
  assert (Hh : 0 <= 600) by discriminate.
  split; [exact H|]. split; [exact Hh|].
  exact (proj1 (reset_reseeds Sample.random Sample.sin sample_random_unit
                  Sample.drop 800 600 JS.start H Hh)).
Defined.

(** ** More on loops and on the world *)

Lemma for_push_indexed {A} (P : nat -> A -> Prop) (body : nat -> JS.M A) :
  (forall i w, P i (fst (body i w))) ->
  forall count from arr w,
  exists fresh,
    fst (JS.for_push count from body arr w) = arr ++ fresh /\
    List.length fresh = count /\
    forall k a, nth_error fresh k = Some a -> P (from + k)%nat a.
Proof.
  intro Hbody. induction count as [|c IH]; intros from arr w.
  - exists []. cbn. rewrite app_nil_r. repeat split.
    intros k a H. destruct k; discriminate H.
  - cbn [JS.for_push]. rewrite bind_run.
    destruct (IH (S from) (arr ++ [fst (body from w)]) (snd (body from w)))
      as (fresh & E & Hlen & HP).
    exists (fst (body from w) :: fresh). rewrite E, <- app_assoc. cbn.
    repeat split; [congruence|].
    intros [|k] a H; cbn in H.
    + injection H as <-. rewrite Nat.add_0_r. apply Hbody.
    + rewrite Nat.add_succ_r. apply (HP k a H).
Qed.

Lemma quiet_ret {A} (a : A) : quiet (JS.ret a).
Proof. intro w. split; reflexivity. Qed.

Lemma quiet_random (random : nat -> Q) : quiet (JS.Math_random random).
Proof. intro w. split; reflexivity. Qed.

Lemma quiet_bind {A B} (m : JS.M A) (k : A -> JS.M B) :
  quiet m -> (forall a, quiet (k a)) -> quiet (JS.bind m k).
Proof.
  intros Hm Hk w. rewrite bind_run.
  destruct (Hm w) as [Hr Ht].
  destruct (Hk (fst (m w)) (snd (m w))) as [Hr' Ht'].
  split; congruence.
Qed.

Lemma quiet_for_push {A} (body : nat -> JS.M A) :
  (forall i, quiet (body i)) ->
  forall count from arr, quiet (JS.for_push count from body arr).
Proof.
  intro Hbody. induction count as [|c IH]; intros from arr.
  - apply quiet_ret.
  - cbn [JS.for_push]. apply quiet_bind; [apply Hbody|].
    intro a. apply IH.
Qed.

(** Proves a computation quiet by going through its binds. *)
Ltac quiet_js :=
  repeat first
    [ apply quiet_ret | apply quiet_random
    | apply quiet_for_push; intro
    | apply quiet_bind; [|intro] ].

(** ** More on lightning *)

Section LightningShape.

Variable random : nat -> Q.
Variable clock : nat -> Q.
Hypothesis random_unit : forall n, 0 <= random n < 1.

Lemma quiet_generateLightningPath (sx sy ex ey : Q) :
  quiet (Lightning.generateLightningPath random sx sy ex ey).
Proof. unfold Lightning.generateLightningPath. cbv zeta. quiet_js. Qed.

Lemma quiet_createBranches (cw ch : Q) :
  quiet (Lightning.createBranches random cw ch).
Proof.
  unfold Lightning.createBranches. cbv zeta. quiet_js.
Qed.

Lemma quiet_scheduleNextStrike : quiet (Lightning.scheduleNextStrike random).
Proof. unfold Lightning.scheduleNextStrike. cbv zeta. quiet_js. Qed.

(** The number of points between the ends of a path. *)
Lemma inner_count (r : Q) :
  0 <= r < 1 ->
  (7 <= Lightning.loop_count 1 (8 + r * 8) <= 15)%nat /\
  inject_Z (Z.of_nat (Lightning.loop_count 1 (8 + r * 8))) < 8 + r * 8.
Proof.
  intros [H0 H1]. unfold Lightning.loop_count.
  assert (Hlo : (8 <= Qceiling (8 + r * 8))%Z).
  { rewrite <- (Qceiling_Z 8). apply Qceiling_resp_le.
    change (8 <= 8 + r * 8). lra. }
  assert (Hhi : (Qceiling (8 + r * 8) <= 16)%Z).
  { rewrite <- (Qceiling_Z 16). apply Qceiling_resp_le.
    change (8 + r * 8 <= 16). lra. }
  split; [lia|].
  rewrite Z2Nat.id by lia. apply Qceiling_lt.
Qed.

Lemma generateLightningPath_jagged (sx sy ex ey : Q) (w : JS.World) :
  Lightning.jagged (8 + random (JS.draws w) * 8) sx sy ex ey
    (fst (Lightning.generateLightningPath random sx sy ex ey w)).
Proof.
  pose proof (random_unit (JS.draws w)) as Hr.
  destruct (inner_count _ Hr) as [Hcount Hlast].
  assert (Hns : 8 <= 8 + random (JS.draws w) * 8) by lra.
  unfold Lightning.generateLightningPath. run_js.
  change (fst (JS.Math_random random w)) with (random (JS.draws w)).
  set (ns := 8 + random (JS.draws w) * 8) in *.
  match goal with
  | |- context [JS.for_push ?c ?f ?b ?a ?w0] =>
      destruct (for_push_indexed
                  (fun i pt =>
                     Lightning.py pt
                     == sy + (ey - sy) * (Lightning.of_index i / ns) /\
                     - 25 <= Lightning.px pt
                             - (sx + (ex - sx) * (Lightning.of_index i / ns))
                     <= 25)
                  b) with (count := c) (from := f) (arr := a) (w := w0)
        as (inner & E & Hlen & HP)
  end.
  { intros i w'. cbn.
    pose proof (random_unit (JS.draws w')) as Hr'.
    set (t := Lightning.of_index i / ns). split; [reflexivity | lra]. }
  rewrite E. exists inner. split; [reflexivity|]. split; [lia|].
  intros k pt Hk t.
  assert (Hlt : (k < List.length inner)%nat)
    by (apply nth_error_Some; congruence).
  specialize (HP k pt Hk). cbn [Nat.add] in HP. fold t in HP.
  split; [|exact HP].
  assert (Hi : 0 < Lightning.of_index (S k) < ns).
  { unfold Lightning.of_index. split.
    - change 0 with (inject_Z 0). rewrite <- Zlt_Qlt. lia.
    - eapply Qle_lt_trans; [|exact Hlast]. rewrite <- Zle_Qle. lia. }
  unfold t. split.
  - apply Qlt_shift_div_l; lra.
  - apply Qlt_shift_div_r; lra.
Qed.

Lemma branch_count (r : Q) :
  0 <= r < 1 -> (2 <= Lightning.loop_count 0 (r * 3 + 2) <= 5)%nat.
Proof.
  intros [H0 H1]. unfold Lightning.loop_count.
  assert (Hlo : (2 <= Qceiling (r * 3 + 2))%Z).
  { rewrite <- (Qceiling_Z 2). apply Qceiling_resp_le.
    change (2 <= r * 3 + 2). lra. }
  assert (Hhi : (Qceiling (r * 3 + 2) <= 5)%Z).
  { rewrite <- (Qceiling_Z 5). apply Qceiling_resp_le.
    change (r * 3 + 2 <= 5). lra. }
  lia.
Qed.

Lemma createBranches_branching (cw ch : Q) (w : JS.World) :
  0 < cw -> 0 < ch ->
  (2 <= List.length (fst (Lightning.createBranches random cw ch w)) <= 5)%nat /\
  Forall (Lightning.branching cw ch)
    (fst (Lightning.createBranches random cw ch w)).
Proof.
  intros Hcw Hch. unfold Lightning.createBranches. cbv zeta. rewrite bind_run.
  change (fst (JS.Math_random random w)) with (random (JS.draws w)).
  match goal with
  | |- context [JS.for_push ?c ?f ?b ?a ?w0] =>
      destruct (for_push_run (Lightning.branching cw ch) b)
        with (count := c) (from := f) (arr := a) (w := w0)
        as (fresh & E & Hlen & HP)
  end.
  { intros i w'. rewrite !bind_run. unfold JS.ret. cbn [fst].
    unfold Lightning.branching.
    cbn [Lightning.startY Lightning.startX Lightning.endX Lightning.endY
         Lightning.segments].
    set (w1 := snd (JS.Math_random random w')).
    set (w2 := snd (JS.Math_random random w1)).
    set (w3 := snd (JS.Math_random random w2)).
    change (fst (JS.Math_random random w')) with (random (JS.draws w')).
    change (fst (JS.Math_random random w1)) with (random (JS.draws w1)).
    change (fst (JS.Math_random random w2)) with (random (JS.draws w2)).
    pose proof (random_unit (JS.draws w')) as H1.
    pose proof (random_unit (JS.draws w1)) as H2.
    pose proof (random_unit (JS.draws w2)) as H3.
    pose proof (random_unit (JS.draws w3)) as H4.
    split; [reflexivity|]. split; [nra|]. split; [nra|]. split; [nra|].
    exists (8 + random (JS.draws w3) * 8). split; [lra|].
    apply generateLightningPath_jagged. }
  rewrite E. cbn [app]. split; [|exact HP].
  rewrite Hlen. apply branch_count. apply random_unit.
Qed.

End LightningShape.

Section LightningSchedule.

Variable random : nat -> Q.
Variable clock : nat -> Q.
Hypothesis random_unit : forall n, 0 <= random n < 1.

(** The state and the world that [strike] leaves. *)
Lemma strike_effect (l : Lightning.t) (cw ch : Q) (w : JS.World) :
  let l1 := fst (Lightning.strike random clock l cw ch w) in
  let w1 := snd (Lightning.strike random clock l cw ch w) in
  Lightning.isActive l1 = true /\
  Lightning.duration l1 = 0 /\
  Lightning.maxDuration l1 = Lightning.maxDuration l /\
  0.2 <= Lightning.intensity l1 <= 1 /\
  Lightning.branches l1
  = fst (Lightning.createBranches random cw ch
           (snd (JS.Math_random random w))) /\
  Lightning.lastStrike l1 = clock (JS.reads w) /\
  2000 <= Lightning.nextStrikeDelay l1 <= 10000 /\
  Lightning.onStrikeCallback l1 = Lightning.onStrikeCallback l /\
  JS.reads w1 = S (JS.reads w) /\
  (Lightning.onStrikeCallback l = true ->
   exists delay, 100 <= delay < 400 /\ JS.timers w1 = JS.timers w ++ [delay]) /\
  (Lightning.onStrikeCallback l = false -> JS.timers w1 = JS.timers w).
Proof.
  intros l1 w1. subst l1 w1.
  set (w0 := snd (JS.Math_random random w)).
  set (w2 := snd (Lightning.createBranches random cw ch w0)).
  set (w3 := snd (JS.Date_now clock w2)).
  set (w4 := snd (Lightning.scheduleNextStrike random w3)).
  assert (E : Lightning.strike random clock l cw ch w
              = (Lightning.mk true 0 (Lightning.maxDuration l)
                   (random (JS.draws w) * 0.8 + 0.2)
                   (fst (Lightning.createBranches random cw ch w0))
                   (clock (JS.reads w2))
                   (random (JS.draws w3) * 8000 + 2000)
                   (Lightning.onStrikeCallback l),
                 if Lightning.onStrikeCallback l
                 then JS.mkWorld (S (JS.draws w4)) (JS.reads w4)
                        (JS.timers w4 ++ [100 + random (JS.draws w4) * 300])
                 else w4)).
  { unfold Lightning.strike. cbv zeta. rewrite !bind_run.
    destruct (Lightning.onStrikeCallback l); reflexivity. }
  rewrite E. clear E.
  destruct (quiet_createBranches random cw ch w0) as [Hr2 Ht2].
  fold w2 in Hr2, Ht2.
  destruct (quiet_scheduleNextStrike random w3) as [Hr4 Ht4].
  fold w4 in Hr4, Ht4.
  assert (Hr3 : JS.reads w3 = S (JS.reads w))
    by (cbn; rewrite Hr2; reflexivity).
  assert (Ht3 : JS.timers w3 = JS.timers w)
    by (cbn; rewrite Ht2; reflexivity).
  pose proof (random_unit (JS.draws w)) as Hi.
  pose proof (random_unit (JS.draws w3)) as Hd.
  pose proof (random_unit (JS.draws w4)) as H4.
  cbn [fst snd Lightning.isActive Lightning.duration Lightning.maxDuration
       Lightning.intensity Lightning.branches Lightning.lastStrike
       Lightning.nextStrikeDelay Lightning.onStrikeCallback].
  rewrite Hr2.
  split; [reflexivity|]. split; [reflexivity|]. split; [reflexivity|].
  split; [lra|]. split; [reflexivity|]. split; [reflexivity|].
  split; [lra|]. split; [reflexivity|].
  destruct (Lightning.onStrikeCallback l); cbn [JS.reads JS.timers].
  - split; [congruence|]. split; [|discriminate].
    intros _. exists (100 + random (JS.draws w4) * 300).
    split; [lra|]. rewrite Ht4, Ht3. reflexivity.
  - split; [congruence|]. split; [discriminate|].
    intros _. congruence.
Qed.

Lemma strike_armed (l : Lightning.t) (cw ch : Q) (w : JS.World) :
  Lightning.armed (fst (Lightning.strike random clock l cw ch w)).
Proof.
  destruct (strike_effect l cw ch w) as (_ & _ & _ & _ & Hb & _ & Hd & _).
  cbv zeta in *. split; [exact Hd|]. intros _. rewrite Hb.
  unfold Lightning.createBranches. cbv zeta. rewrite bind_run.
  rewrite for_push_length. cbn [List.length Nat.add].
  apply branch_count. apply random_unit.
Qed.

(** What an [update] of an active lightning does. *)
Lemma update_active (l : Lightning.t) (cw ch dt : Q) (w : JS.World) :
  Lightning.isActive l = true ->
  Lightning.update random clock l cw ch dt w
  = (Lightning.mk
       (negb (Qleb (Lightning.maxDuration l) (Lightning.duration l + dt)))
       (Lightning.duration l + dt) (Lightning.maxDuration l)
       (Lightning.intensity l) (Lightning.branches l) (Lightning.lastStrike l)
       (Lightning.nextStrikeDelay l) (Lightning.onStrikeCallback l), w).
Proof.
  intro Ea. unfold Lightning.update. rewrite Ea. cbv zeta. unfold JS.ret.
  destruct (Qleb _ _); reflexivity.
Qed.

(** What an [update] of an idle lightning does. *)
Lemma update_idle (l : Lightning.t) (cw ch dt : Q) (w : JS.World) :
  Lightning.isActive l = false ->
  let elapsed := clock (JS.reads w) - Lightning.lastStrike l in
  let w1 := snd (JS.Date_now clock w) in
  let w2 := snd (JS.Math_random random w1) in
  (elapsed <= Lightning.nextStrikeDelay l ->
   Lightning.update random clock l cw ch dt w = (l, w1)) /\
  (Lightning.nextStrikeDelay l < elapsed -> 0.3 <= random (JS.draws w) ->
   Lightning.update random clock l cw ch dt w = (l, w2)) /\
  (Lightning.nextStrikeDelay l < elapsed -> random (JS.draws w) < 0.3 ->
   Lightning.update random clock l cw ch dt w
   = Lightning.strike random clock l cw ch w2).
Proof.
  intros Ea elapsed w1 w2. unfold Lightning.update. rewrite Ea. cbv zeta.
  rewrite bind_run.
  change (fst (JS.Date_now clock w)) with (clock (JS.reads w)).
  fold elapsed. fold w1.
  split; [|split].
  - intro H. apply Qltb_ge in H. rewrite H. reflexivity.
  - intros H Hr. apply Qltb_lt in H. rewrite H. rewrite bind_run.
    change (fst (JS.Math_random random w1)) with (random (JS.draws w)).
    apply Qltb_ge in Hr. rewrite Hr. reflexivity.
  - intros H Hr. apply Qltb_lt in H. rewrite H. rewrite bind_run.
    change (fst (JS.Math_random random w1)) with (random (JS.draws w)).
    apply Qltb_lt in Hr. rewrite Hr. reflexivity.
Qed.

Lemma update_armed (l : Lightning.t) (cw ch dt : Q) (w : JS.World) :
  Lightning.armed l ->
  Lightning.armed (fst (Lightning.update random clock l cw ch dt w)).
Proof.
  intros [Hd Hb]. destruct (Lightning.isActive l) eqn:Ea.
  - rewrite (update_active l cw ch dt w Ea). cbn [fst].
    split; [exact Hd|]. intros _. apply Hb. reflexivity.
  - destruct (update_idle l cw ch dt w Ea) as (Hearly & Hskip & Hstrike).
    cbv zeta in *.
    destruct (Qlt_le_dec (Lightning.nextStrikeDelay l)
                (clock (JS.reads w) - Lightning.lastStrike l)) as [Hl | Hl].
    + destruct (Qlt_le_dec (random (JS.draws w)) 0.3) as [Hr | Hr].
      * rewrite (Hstrike Hl Hr). apply strike_armed.
      * rewrite (Hskip Hl Hr). cbn [fst].
        split; [exact Hd|]. rewrite Ea. discriminate.
    + rewrite (Hearly Hl). cbn [fst].
      split; [exact Hd|]. rewrite Ea. discriminate.
Qed.

Lemma reachable_armed (l : Lightning.t) :
  Lightning.reachable random clock l -> Lightning.armed l.
Proof.
  induction 1 as [cb w | l cw ch w _ IH | l cw ch dt w _ IH Hdt].
  - pose proof (random_unit (JS.draws w)) as Hr.
    split; cbn; [lra | discriminate].
  - apply strike_armed.
  - apply update_armed. exact IH.
Qed.

Lemma flash_runs_out (cw ch : Q) (w : JS.World) (dts : list Q) :
  forall l,
  Lightning.isActive l = true ->
  Lightning.duration l < Lightning.maxDuration l ->
  Forall (fun dt => 0 <= dt) dts ->
  Lightning.maxDuration l - Lightning.duration l <= fold_right Qplus 0 dts ->
  exists k,
    (1 <= k <= List.length dts)%nat /\
    let end_ := Lightning.updates random clock cw ch (firstn k dts) l w in
    Lightning.isActive (fst end_) = false /\
    snd end_ = w /\
    Lightning.intensity (fst end_) = Lightning.intensity l /\
    Lightning.branches (fst end_) = Lightning.branches l.
Proof.
  induction dts as [|dt rest IH]; intros l Ea Hlt Hpos Hsum.
  - cbn in Hsum. lra.
  - inversion Hpos as [|? ? Hdt Hrest]; subst. cbn [fold_right] in Hsum.
    pose proof (update_active l cw ch dt w Ea) as Hu.
    destruct (Qleb (Lightning.maxDuration l) (Lightning.duration l + dt))
      eqn:Eend.
    + exists 1%nat. split; [cbn; lia|].
      cbn [firstn Lightning.updates]. rewrite Hu. cbn. auto.
    + apply Qleb_gt in Eend. cbn [negb] in Hu.
      match type of Hu with _ = (?l1, _) =>
        destruct (IH l1) as (k & Hk & Hend)
      end; try (cbn; auto; lra).
      exists (S k). split; [cbn; lia|].
      cbn [firstn Lightning.updates]. rewrite Hu. exact Hend.
Qed.

(** X7.  A lightning path runs from its start point to its end point
    through 7 to 15 points in between (9 to 17 points in all); the k-th of
    them lies at the fraction k / numSegments of the way down, strictly
    between the ends, and at most 25 to the side of the straight line;
    numSegments is between 8 and 16. *)
Theorem lightning_path_shape (startX startY endX endY : Q) (w : JS.World) :
  Lightning.jagged (8 + random (JS.draws w) * 8) startX startY endX endY
    (fst (Lightning.generateLightningPath random startX startY endX endY w)) /\
  8 <= 8 + random (JS.draws w) * 8 <= 16.
Proof.
  split; [apply generateLightningPath_jagged; exact random_unit|].
  pose proof (random_unit (JS.draws w)). lra.
Qed.

(** X8.  On a canvas of positive width and height [createBranches] makes 2
    to 5 branches; each starts on the top edge within the width, ends
    between 20% and 80% of the height and at most 15% of the width to the
    side of its start, and its path runs from its start to its end. *)
Theorem createBranches_shape (canvasWidth canvasHeight : Q) (w : JS.World) :
  0 < canvasWidth -> 0 < canvasHeight ->
  let made :=
    fst (Lightning.createBranches random canvasWidth canvasHeight w) in
  (2 <= List.length made <= 5)%nat /\
  Forall (Lightning.branching canvasWidth canvasHeight) made.
Proof.
  intros Hcw Hch made.
  apply createBranches_branching; assumption.
Qed.

(** X9.  [strike] leaves the lightning active at duration 0 with an
    intensity in [0.2, 1], 2 to 5 new branches, [lastStrike] set to the one
    reading of the clock it takes, and a next delay in [2000, 10000].  When a
    callback was configured it schedules exactly one timer, with a delay in
    [100, 400), and none otherwise. *)
Theorem strike_schedules_thunder (l : Lightning.t)
  (canvasWidth canvasHeight : Q)
  (w : JS.World) :
  let l1 := fst (Lightning.strike random clock l canvasWidth canvasHeight w) in
  let w1 := snd (Lightning.strike random clock l canvasWidth canvasHeight w) in
  Lightning.isActive l1 = true /\
  Lightning.duration l1 = 0 /\
  0.2 <= Lightning.intensity l1 <= 1 /\
  (2 <= List.length (Lightning.branches l1) <= 5)%nat /\
  Lightning.lastStrike l1 = clock (JS.reads w) /\
  JS.reads w1 = S (JS.reads w) /\
  2000 <= Lightning.nextStrikeDelay l1 <= 10000 /\
  Lightning.onStrikeCallback l1 = Lightning.onStrikeCallback l /\
  (Lightning.onStrikeCallback l = true ->
   exists delay, 100 <= delay < 400 /\ JS.timers w1 = JS.timers w ++ [delay]) /\
  (Lightning.onStrikeCallback l = false -> JS.timers w1 = JS.timers w).
Proof.
  intros l1 w1.
  destruct (strike_effect l canvasWidth canvasHeight w)
    as (Ha & Hd & _ & Hi & _ & Hl & Hn & Hc & Hr & Hon & Hoff).
  destruct (strike_armed l canvasWidth canvasHeight w) as [_ Hb].
  cbv zeta in *. fold l1 in Ha, Hd, Hi, Hl, Hn, Hc, Hb.
  repeat split; try lra; try assumption; try (apply Hb; exact Ha).
Qed.

(** X10.  A flash ends.  From an active state that construction, strikes
    and updates have led to, frames that each last at least a whole number
    m >= 1 of milliseconds bring the lightning back to idle once m times
    their number has reached 200: after some of those updates it is no
    longer active.  Until then the updates draw no random number, read no
    clock and schedule no timer, and leave the intensity and the branches
    of the strike alone. *)
Theorem flash_ends (l : Lightning.t) (canvasWidth canvasHeight : Q)
  (w : JS.World) (deltaTimes : list Q) (m : Z) :
  Lightning.reachable random clock l ->
  Lightning.isActive l = true ->
  (1 <= m)%Z ->
  Forall (fun dt => inject_Z m <= dt) deltaTimes ->
  (200 <= m * Z.of_nat (List.length deltaTimes))%Z ->
  exists k,
    (1 <= k <= List.length deltaTimes)%nat /\
    let end_ :=
      Lightning.updates random clock canvasWidth canvasHeight
        (firstn k deltaTimes) l w in
    Lightning.isActive (fst end_) = false /\
    snd end_ = w /\
    Lightning.intensity (fst end_) = Lightning.intensity l /\
    Lightning.branches (fst end_) = Lightning.branches l.
Proof.
  intros Hr Ea Hm Hlong Hmany.
  destruct (reachable_sound random clock random_unit l Hr)
    as (Hmax & _ & Hd & Hact).
  destruct (Hact Ea) as [_ Hlt].
  assert (Hmq : 1 <= inject_Z m)
    by (change 1 with (inject_Z 1); rewrite <- Zle_Qle; exact Hm).
  assert (Hsum : inject_Z m * inject_Z (Z.of_nat (List.length deltaTimes))
                 <= fold_right Qplus 0 deltaTimes).
  { clear Hmany. induction Hlong as [|dt rest Hdt _ IH].
    - cbn [List.length fold_right]. change (inject_Z (Z.of_nat 0)) with 0.
      lra.
    - cbn [List.length fold_right]. rewrite Nat2Z.inj_succ. unfold Z.succ.
      rewrite inject_Z_plus. change (inject_Z 1) with 1. lra. }
  assert (Hq : 200 <= inject_Z m
                      * inject_Z (Z.of_nat (List.length deltaTimes))).
  { rewrite <- inject_Z_mult. change 200 with (inject_Z 200).
    rewrite <- Zle_Qle. exact Hmany. }
  apply flash_runs_out; try assumption.
  - eapply Forall_impl; [|exact Hlong]. intros dt Hdt. cbn beta in Hdt. lra.
  - rewrite Hmax. lra.
Qed.

(** X11.  An idle lightning does not strike on its own before its delay has
    passed: when the clock reads at most [nextStrikeDelay] past
    [lastStrike], [update] leaves it as it is, draws no random number and
    schedules no timer; and in every reachable state that delay is at
    least 2000 and at most 10000.  Once the delay has passed, [update]
    strikes exactly when its next random draw is below 0.3. *)
Theorem autonomous_strike (l : Lightning.t) (canvasWidth canvasHeight dt : Q)
  (w : JS.World) :
  Lightning.reachable random clock l ->
  Lightning.isActive l = false ->
  let elapsed := clock (JS.reads w) - Lightning.lastStrike l in
  let now := Lightning.update random clock l canvasWidth canvasHeight dt w in
  2000 <= Lightning.nextStrikeDelay l <= 10000 /\
  (elapsed <= Lightning.nextStrikeDelay l ->
   fst now = l /\
   JS.draws (snd now) = JS.draws w /\ JS.timers (snd now) = JS.timers w) /\
  (Lightning.nextStrikeDelay l < elapsed -> 0.3 <= random (JS.draws w) ->
   fst now = l /\ JS.timers (snd now) = JS.timers w) /\
  (Lightning.nextStrikeDelay l < elapsed -> random (JS.draws w) < 0.3 ->
   now = Lightning.strike random clock l canvasWidth canvasHeight
           (snd (JS.Math_random random (snd (JS.Date_now clock w)))) /\
   Lightning.isActive (fst now) = true).
Proof.
  intros Hr Ea elapsed now.
  destruct (reachable_armed l Hr) as [Hd _].
  destruct (update_idle l canvasWidth canvasHeight dt w Ea)
    as (Hearly & Hskip & Hstrike).
  cbv zeta in *. fold elapsed in Hearly, Hskip, Hstrike.
  fold now in Hearly, Hskip, Hstrike.
  split; [exact Hd|]. split; [|split].
  - intro H. rewrite (Hearly H). repeat split.
  - intros H Hr'. rewrite (Hskip H Hr'). repeat split.
  - intros H Hr'. rewrite (Hstrike H Hr'). split; [reflexivity|].
    apply strike_effect.
Qed.

End LightningSchedule.

(** ** More on the scene *)

Lemma forEach_Forall {A} (P Q : A -> Prop) (f : A -> JS.M A) :
  (forall a w, P a -> Q (fst (f a w))) ->
  forall arr w, Forall P arr -> Forall Q (fst (JS.forEach f arr w)).
Proof.
  intro Hf. induction arr as [|a rest IH]; intros w HP.
  - constructor.
  - inversion HP as [|? ? Ha Hrest]; subst.
    cbn [JS.forEach]. rewrite !bind_run. unfold JS.ret. cbn [fst].
    constructor; [apply Hf; exact Ha | apply IH; exact Hrest].
Qed.

Lemma Forall_kept {A} (P : A -> Prop) (n : nat) (arr : list A) :
  Forall P arr -> Forall P (firstn n arr).
Proof.
  intro H. revert n. induction H as [|a rest Ha _ IH]; intros [|n]; cbn;
    constructor; auto.
Qed.

Section RainSceneLife.

Variable random : nat -> Q.
Variable clock : nat -> Q.
Variable sin : Q -> Q.
Hypothesis random_unit : forall n, 0 <= random n < 1.

Lemma createRain_reachable (c : Canvas.t) (n : Z) (w : JS.World) :
  Forall (Raindrop.reachable random sin)
    (fst (RainScene.createRain random c n w)).
Proof.
  unfold RainScene.createRain.
  match goal with
  | |- context [JS.for_push ?k ?f ?b ?a ?w0] =>
      destruct (for_push_run (Raindrop.reachable random sin) b)
        with (count := k) (from := f) (arr := a) (w := w0)
        as (fresh & E & _ & HP)
  end.
  { intros i w'. apply Raindrop.reach_new. }
  rewrite E. exact HP.
Qed.


(** The parts of [resizeCanvas], of [changeRainIntensity] and of [update]. *)
Lemma resizeCanvas_parts (s : RainScene.t) (iw ih : Q) (w : JS.World) :
  let s1 := fst (RainScene.resizeCanvas random s iw ih w) in
  RainScene.canvas s1 = Canvas.mk iw ih /\
  RainScene.raindrops s1
  = fst (RainScene.createRain random (Canvas.mk iw ih)
           (RainScene.rainIntensity s)
           (snd (RainScene.createStars random (Canvas.mk iw ih) w))) /\
  RainScene.stars s1 = fst (RainScene.createStars random (Canvas.mk iw ih) w) /\
  RainScene.lightning s1 = RainScene.lightning s /\
  RainScene.lastTime s1 = RainScene.lastTime s.
Proof.
  unfold RainScene.resizeCanvas. run_js. repeat split.
Qed.

Lemma changeRainIntensity_parts (s : RainScene.t) (delta : Z) (w : JS.World) :
  let s1 := fst (RainScene.changeRainIntensity random s delta w) in
  RainScene.canvas s1 = RainScene.canvas s /\
  RainScene.stars s1 = RainScene.stars s /\
  RainScene.lightning s1 = RainScene.lightning s /\
  RainScene.lastTime s1 = RainScene.lastTime s /\
  RainScene.rainEnabled s1 = RainScene.rainEnabled s /\
  RainScene.lightningEnabled s1 = RainScene.lightningEnabled s.
Proof.
  unfold RainScene.changeRainIntensity. cbv zeta. rewrite bind_run.
  unfold JS.ret at 1. cbn [fst]. repeat split.
Qed.

Lemma update_parts (s : RainScene.t) (time : Q) (w : JS.World) :
  let s1 := fst (RainScene.update random clock sin s time w) in
  let step raindrop :=
    let raindrop1 :=
      Raindrop.update sin raindrop (Canvas.height (RainScene.canvas s)) in
    if Raindrop.isOutOfBounds raindrop1 (Canvas.height (RainScene.canvas s))
    then Raindrop.reset random raindrop1 (Canvas.width (RainScene.canvas s))
    else JS.ret raindrop1 in
  RainScene.canvas s1 = RainScene.canvas s /\
  RainScene.stars s1 = RainScene.stars s /\
  RainScene.rainIntensity s1 = RainScene.rainIntensity s /\
  RainScene.rainEnabled s1 = RainScene.rainEnabled s /\
  RainScene.lightningEnabled s1 = RainScene.lightningEnabled s /\
  RainScene.lastTime s1 = time /\
  (RainScene.lightningEnabled s = false ->
   RainScene.lightning s1 = RainScene.lightning s) /\
  (RainScene.lightningEnabled s = true ->
   RainScene.lightning s1
   = fst (Lightning.update random clock (RainScene.lightning s)
            (Canvas.width (RainScene.canvas s))
            (Canvas.height (RainScene.canvas s))
            (time - RainScene.lastTime s) w)) /\
  (RainScene.rainEnabled s = false ->
   RainScene.raindrops s1 = RainScene.raindrops s) /\
  (RainScene.rainEnabled s = true ->
   exists w', RainScene.raindrops s1
              = fst (JS.forEach step (RainScene.raindrops s) w')).
Proof.
  unfold RainScene.update. cbv zeta. rewrite !bind_run.
  unfold JS.ret at 1. cbn [fst].
  cbn [RainScene.canvas RainScene.stars RainScene.rainIntensity
       RainScene.rainEnabled RainScene.lightningEnabled RainScene.lastTime
       RainScene.lightning RainScene.raindrops].
  do 6 (split; [reflexivity|]).
  split; [|split; [|split]]; intro E; rewrite E; try reflexivity.
  eexists. reflexivity.
Qed.

Lemma frame_step_reachable (c : Canvas.t) (d : Raindrop.t) (w : JS.World) :
  Raindrop.reachable random sin d ->
  let d1 := Raindrop.update sin d (Canvas.height c) in
  let d2 := fst ((if Raindrop.isOutOfBounds d1 (Canvas.height c)
                  then Raindrop.reset random d1 (Canvas.width c)
                  else JS.ret d1) w) in
  Raindrop.reachable random sin d2 /\
  (0 <= Canvas.height c -> Raindrop.isOutOfBounds d2 (Canvas.height c) = false).
Proof.
  intros Hr d1 d2.
  assert (H1 : Raindrop.reachable random sin d1)
    by (apply Raindrop.reach_update; exact Hr).
  subst d2. destruct (Raindrop.isOutOfBounds d1 (Canvas.height c)) eqn:E.
  - split; [apply Raindrop.reach_reset; exact H1|]. intro Hh.
    destruct (reachable_seeded random sin random_unit d1 H1) as (Hl & _).
    unfold Raindrop.isOutOfBounds. rewrite Qltb_ge. cbn.
    change (Raindrop.length d1) with (Raindrop.length d) in Hl.
    pose proof (random_unit (1 + JS.draws w)) as H2. cbn in H2. lra.
  - split; [exact H1 | intros _; exact E].
Qed.

Lemma reachable_drops (s : RainScene.t) :
  RainScene.reachable random clock sin s ->
  Forall (Raindrop.reachable random sin) (RainScene.raindrops s) /\
  List.length (RainScene.stars s) = 150%nat.
Proof.
  induction 1 as [iw ih w | s iw ih w _ IH | s _ IH | s _ IH
                  | s w _ IH | s w _ IH | s time w _ IH].
  - unfold RainScene.new. cbv zeta. rewrite !bind_run.
    unfold JS.ret at 1. cbn [fst RainScene.raindrops RainScene.stars].
    split; [apply createRain_reachable|].
    unfold RainScene.createStars. cbv zeta. apply for_push_length.
  - destruct (resizeCanvas_parts s iw ih w) as (_ & Hd & Hs & _).
    cbv zeta in *. rewrite Hd, Hs.
    split; [apply createRain_reachable|].
    unfold RainScene.createStars. cbv zeta. apply for_push_length.
  - exact IH.
  - exact IH.
  - destruct IH as [Hd Hs].
    destruct (changeRainIntensity_parts s 50 w) as (_ & Es & _).
    destruct (changeRainIntensity_result random s 50 w)
      as (_ & Hup & Hdown & Hsame).
    cbv zeta in *. unfold RainScene.increaseIntensity. rewrite Es.
    split; [|exact Hs].
    destruct (Z.lt_total (RainScene.rainIntensity s)
                (RainScene.rainIntensity
                   (fst (RainScene.changeRainIntensity random s 50 w))))
      as [H|[H|H]].
    + destruct (Hup H) as (fresh & E & _ & Hf). rewrite E.
      apply Forall_app. split; [exact Hd|].
      eapply Forall_impl; [|exact Hf].
      intros d (w' & ->). apply Raindrop.reach_new.
    + rewrite (Hsame (eq_sym H)). exact Hd.
    + rewrite (Hdown H). apply Forall_kept. exact Hd.
  - destruct IH as [Hd Hs].
    destruct (changeRainIntensity_parts s (-50) w) as (_ & Es & _).
    destruct (changeRainIntensity_result random s (-50) w)
      as (_ & Hup & Hdown & Hsame).
    cbv zeta in *. unfold RainScene.decreaseIntensity. rewrite Es.
    split; [|exact Hs].
    destruct (Z.lt_total (RainScene.rainIntensity s)
                (RainScene.rainIntensity
                   (fst (RainScene.changeRainIntensity random s (-50) w))))
      as [H|[H|H]].
    + destruct (Hup H) as (fresh & E & _ & Hf). rewrite E.
      apply Forall_app. split; [exact Hd|].
      eapply Forall_impl; [|exact Hf].
      intros d (w' & ->). apply Raindrop.reach_new.
    + rewrite (Hsame (eq_sym H)). exact Hd.
    + rewrite (Hdown H). apply Forall_kept. exact Hd.
  - destruct IH as [Hd Hs].
    destruct (update_parts s time w)
      as (_ & Es & _ & _ & _ & _ & _ & _ & Hoff & Hon).
    cbv zeta in *. rewrite Es. split; [|exact Hs].
    destruct (RainScene.rainEnabled s).
    + destruct (Hon eq_refl) as (w' & E). rewrite E.
      apply (forEach_Forall (Raindrop.reachable random sin)); [|exact Hd].
      intros d w0 Hr.
      apply (frame_step_reachable (RainScene.canvas s) d w0 Hr).
    + rewrite (Hoff eq_refl). exact Hd.
Qed.

End RainSceneLife.

Section RainSceneExtras.

Variable random : nat -> Q.
Variable clock : nat -> Q.
Variable sin : Q -> Q.
Hypothesis random_unit : forall n, 0 <= random n < 1.

Lemma scene_eq (s s1 : RainScene.t) :
  RainScene.canvas s1 = RainScene.canvas s ->
  RainScene.raindrops s1 = RainScene.raindrops s ->
  RainScene.lightning s1 = RainScene.lightning s ->
  RainScene.lastTime s1 = RainScene.lastTime s ->
  RainScene.rainEnabled s1 = RainScene.rainEnabled s ->
  RainScene.lightningEnabled s1 = RainScene.lightningEnabled s ->
  RainScene.rainIntensity s1 = RainScene.rainIntensity s ->
  RainScene.stars s1 = RainScene.stars s ->
  s1 = s.
Proof. destruct s, s1. cbn. intros. subst. reflexivity. Qed.

(** A change of intensity that leaves the number as it is leaves the scene
    as it is. *)
Lemma changeRainIntensity_same (s : RainScene.t) (delta : Z) (w : JS.World) :
  Z.max 50 (Z.min 500 (RainScene.rainIntensity s + delta))
  = RainScene.rainIntensity s ->
  fst (RainScene.changeRainIntensity random s delta w) = s.
Proof.
  intro E.
  destruct (changeRainIntensity_parts random s delta w)
    as (Hc & Hs & Hl & Ht & Hr & Hle).
  destruct (changeRainIntensity_result random s delta w)
    as (Hn & _ & _ & Hsame).
  cbv zeta in *. rewrite E in Hn.
  apply scene_eq; auto.
Qed.

Lemma played_lightning (s : RainScene.t) :
  RainScene.played random clock sin s ->
  Lightning.reachable random clock (RainScene.lightning s).
Proof.
  induction 1 as [iw ih w | s now w _ IH | s time w _ IH Ht | s iw ih w _ IH
                  | s _ IH | s _ IH | s w _ IH | s w _ IH].
  - unfold RainScene.new. cbv zeta. rewrite !bind_run.
    unfold JS.ret at 1. cbn [fst RainScene.lightning].
    match goal with
    | |- context [RainScene.resizeCanvas random ?s0 ?a ?b ?w0] =>
        destruct (resizeCanvas_parts random s0 a b w0) as (_ & _ & _ & El & _)
    end.
    cbv zeta in El. rewrite El. cbn [RainScene.lightning].
    apply Lightning.reach_new.
  - unfold RainScene.start.
    match goal with
    | |- context [RainScene.update random clock sin ?s0 ?t ?w0] =>
        destruct (update_parts random clock sin s0 t w0)
          as (_ & _ & _ & _ & _ & _ & Hoff & Hon & _)
    end.
    cbv zeta in Hoff, Hon. cbn [RainScene.lightningEnabled] in Hoff, Hon.
    destruct (RainScene.lightningEnabled s).
    + rewrite (Hon eq_refl). cbn [RainScene.lightning RainScene.lastTime].
      apply Lightning.reach_update; [exact IH | lra].
    + rewrite (Hoff eq_refl). exact IH.
  - destruct (update_parts random clock sin s time w)
      as (_ & _ & _ & _ & _ & _ & Hoff & Hon & _).
    cbv zeta in Hoff, Hon.
    destruct (RainScene.lightningEnabled s).
    + rewrite (Hon eq_refl). apply Lightning.reach_update; [exact IH | lra].
    + rewrite (Hoff eq_refl). exact IH.
  - destruct (resizeCanvas_parts random s iw ih w) as (_ & _ & _ & El & _).
    cbv zeta in El. rewrite El. exact IH.
  - exact IH.
  - exact IH.
  - destruct (changeRainIntensity_parts random s 50 w) as (_ & _ & El & _).
    cbv zeta in El. unfold RainScene.increaseIntensity. rewrite El. exact IH.
  - destruct (changeRainIntensity_parts random s (-50) w) as (_ & _ & El & _).
    cbv zeta in El. unfold RainScene.decreaseIntensity. rewrite El. exact IH.
Qed.

(** When the flash is positive, for a lightning in a state it can be in. *)
Lemma flash_positive (l : Lightning.t) :
  Lightning.sound l ->
  (0 < Lightning.getFlashIntensity l <->
   Lightning.isActive l = true /\ 0 < Lightning.duration l).
Proof.
  intros (Hm & Hi & Hd & Hact). unfold Lightning.getFlashIntensity.
  destruct (Lightning.isActive l) eqn:Ea; cbn [negb].
  - destruct (Hact eq_refl) as [Hlow Hlt]. cbv zeta.
    unfold Lightning.progress. rewrite Hm in *.
    assert (Hq : Lightning.duration l / 200
                 == (1 # 200) * Lightning.duration l) by field.
    set (p := Lightning.duration l / 200) in *.
    destruct (Qltb p 0.1) eqn:E.
    + rewrite rise_linear. split.
      * intro H. split; [reflexivity|]. nra.
      * intros [_ H]. nra.
    + apply Qltb_ge in E. rewrite fade_linear. split.
      * intro H. split; [reflexivity|]. lra.
      * intros _. nra.
  - split; [lra | intros [H _]; discriminate H].
Qed.

(** X12.  In a scene whose frames come at times that do not go back, a
    frame shows the white overlay of the lightning exactly when the
    lightning is enabled, is active, and some time has passed since the
    strike; its alpha is then above 0 and at most 0.3. *)
Theorem scene_flash_overlay (s : RainScene.t) :
  RainScene.played random clock sin s ->
  match RainScene.render s with
  | Some alpha =>
      0 < alpha <= 0.3 /\
      alpha = Lightning.getFlashIntensity (RainScene.lightning s) * 0.3 /\
      RainScene.lightningEnabled s = true /\
      Lightning.isActive (RainScene.lightning s) = true /\
      0 < Lightning.duration (RainScene.lightning s)
  | None =>
      RainScene.lightningEnabled s = false \/
      Lightning.isActive (RainScene.lightning s) = false \/
      Lightning.duration (RainScene.lightning s) == 0
  end.
Proof.
  intro Hp. pose proof (played_lightning s Hp) as Hr.
  pose proof (reachable_sound random clock random_unit _ Hr) as Hs.
  pose proof (flash_positive _ Hs) as Hpos.
  assert (Hlt : Lightning.getFlashIntensity (RainScene.lightning s) <= 1).
  { destruct Hs as (Hm & Hi & Hd & Hact).
    destruct (Lightning.isActive (RainScene.lightning s)) eqn:Ea.
    - destruct (Hact eq_refl) as [_ Hlt].
      apply flash_in_range; [exact Hi|].
      unfold Lightning.progress. rewrite Hm in *.
      assert (Hq : Lightning.duration (RainScene.lightning s) / 200
                   == (1 # 200) * Lightning.duration (RainScene.lightning s))
        by field.
      rewrite Hq. lra.
    - unfold Lightning.getFlashIntensity. rewrite Ea. cbn. lra. }
  unfold RainScene.render, RainScene.drawLightningFlash. cbv zeta.
  destruct (RainScene.lightningEnabled s); [|left; reflexivity].
  destruct (Qltb 0 _) eqn:E.
  - apply Qltb_lt in E. destruct (proj1 Hpos E) as [Ha Hd].
    repeat split; try lra; assumption.
  - apply Qltb_ge in E. right.
    destruct (Lightning.isActive (RainScene.lightning s)) eqn:Ea;
      [|left; reflexivity].
    right. destruct Hs as (_ & _ & Hd & _).
    destruct (Qlt_le_dec 0 (Lightning.duration (RainScene.lightning s)))
      as [H | H]; [|lra].
    pose proof (proj2 Hpos (conj eq_refl H)). lra.
Qed.

(** X13.  Every raindrop of the scene is within the life of a raindrop
    (constructor, frames, resets), whatever the scene has been through: its
    velocity is at least 1 and at most its terminal velocity, which is
    below 26, and its length is in [10, 30).  And the scene always has 150
    stars. *)
Theorem scene_drops_in_lifecycle (s : RainScene.t) :
  RainScene.reachable random clock sin s ->
  Forall
    (fun d =>
       Raindrop.reachable random sin d /\
       1 <= Raindrop.velocityY d <= Raindrop.terminalVelocity d /\
       Raindrop.terminalVelocity d < 26 /\
       10 <= Raindrop.length d < 30)
    (RainScene.raindrops s) /\
  List.length (RainScene.stars s) = 150%nat.
Proof.
  intro Hr. destruct (reachable_drops random clock sin random_unit s Hr)
    as [Hd Hs].
  split; [|exact Hs]. eapply Forall_impl; [|exact Hd].
  intros d Hrd.
  pose proof (reachable_seeded random sin random_unit d Hrd) as Hseed.
  destruct (seeded_terminal d Hseed) as [_ Ht].
  destruct (reachable_steady random sin random_unit d Hrd) as (_ & Hle & _).
  destruct Hseed as (Hl & _ & _ & _ & _ & _ & H1).
  repeat split; try lra; assumption.
Qed.

(** X14.  A frame of the scene sets [lastTime] to the time of the frame and
    keeps the canvas, the stars and the number of raindrops.  With the rain
    off the raindrops are left alone, and with the lightning off the
    lightning is.  With the rain on and a canvas whose height is not
    negative, no raindrop is out of bounds after the frame: each one that
    left the canvas has been reset. *)
Theorem frame_recycles_drops (s : RainScene.t) (time : Q) (w : JS.World) :
  RainScene.reachable random clock sin s ->
  let s1 := fst (RainScene.update random clock sin s time w) in
  RainScene.lastTime s1 = time /\
  RainScene.canvas s1 = RainScene.canvas s /\
  RainScene.stars s1 = RainScene.stars s /\
  List.length (RainScene.raindrops s1) = List.length (RainScene.raindrops s) /\
  (RainScene.rainEnabled s = false ->
   RainScene.raindrops s1 = RainScene.raindrops s) /\
  (RainScene.lightningEnabled s = false ->
   RainScene.lightning s1 = RainScene.lightning s) /\
  (RainScene.rainEnabled s = true ->
   0 <= Canvas.height (RainScene.canvas s) ->
   Forall
     (fun d =>
        Raindrop.isOutOfBounds d (Canvas.height (RainScene.canvas s)) = false)
     (RainScene.raindrops s1)).
Proof.
  intros Hr s1.
  destruct (reachable_drops random clock sin random_unit s Hr) as [Hd _].
  destruct (update_parts random clock sin s time w)
    as (Hc & Hs & _ & _ & _ & Ht & Hloff & _ & Hoff & Hon).
  destruct (update_population random clock sin s time w) as [_ Hlen].
  cbv zeta in *. fold s1 in Hc, Hs, Ht, Hloff, Hoff, Hon, Hlen.
  repeat split; try assumption.
  intros Hen Hh. destruct (Hon Hen) as (w' & E). rewrite E.
  apply (forEach_Forall (Raindrop.reachable random sin)); [|exact Hd].
  intros d w0 Hrd.
  apply (frame_step_reachable random sin random_unit
           (RainScene.canvas s) d w0 Hrd). exact Hh.
Qed.


(** X16.  The intensity buttons saturate and undo each other.  At 500
    raindrops "more rain" leaves the scene as it is, and at 50 "less rain"
    does.  Below 500, "more rain" followed by "less rain" gives back the
    very scene, raindrop for raindrop; above 50, "less rain" followed by
    "more rain" gives back the number of raindrops. *)
Theorem intensity_buttons_round_trip (s : RainScene.t) (w w' : JS.World) :
  RainScene.reachable random clock sin s ->
  (RainScene.rainIntensity s = 500%Z ->
   fst (RainScene.increaseIntensity random s w) = s) /\
  (RainScene.rainIntensity s = 50%Z ->
   fst (RainScene.decreaseIntensity random s w) = s) /\
  ((RainScene.rainIntensity s < 500)%Z ->
   fst (RainScene.decreaseIntensity random
          (fst (RainScene.increaseIntensity random s w)) w') = s) /\
  ((50 < RainScene.rainIntensity s)%Z ->
   let s2 := fst (RainScene.increaseIntensity random
                    (fst (RainScene.decreaseIntensity random s w)) w') in
   RainScene.rainIntensity s2 = RainScene.rainIntensity s /\
   List.length (RainScene.raindrops s2) = List.length (RainScene.raindrops s)).
Proof.
  intro Hr.
  destruct (reachable_populated random clock sin s Hr)
    as (Hlen & level & Hlevel & Hi).
  unfold RainScene.increaseIntensity, RainScene.decreaseIntensity.
  split; [|split; [|split]].
  - intro E. apply changeRainIntensity_same. lia.
  - intro E. apply changeRainIntensity_same. lia.
  - intro Hlt.
    set (s1 := fst (RainScene.changeRainIntensity random s 50 w)).
    destruct (changeRainIntensity_parts random s 50 w)
      as (Hc & Hs & Hl & Ht & Hre & Hle).
    destruct (changeRainIntensity_result random s 50 w)
      as (Hn & Hup & _ & _).
    destruct (changeRainIntensity_parts random s1 (-50) w')
      as (Hc' & Hs' & Hl' & Ht' & Hre' & Hle').
    destruct (changeRainIntensity_result random s1 (-50) w')
      as (Hn' & _ & Hdown' & _).
    cbv zeta in *. fold s1 in Hc, Hs, Hl, Ht, Hre, Hle, Hn, Hup.
    assert (E1 : RainScene.rainIntensity s1
                 = (RainScene.rainIntensity s + 50)%Z) by lia.
    destruct Hup as (fresh & Ef & _); [lia|].
    apply scene_eq; try congruence; [|lia].
    rewrite Hdown' by lia. rewrite Hn', E1, Ef.
    replace (Z.to_nat (Z.max 50 (Z.min 500
               (RainScene.rainIntensity s + 50 + -50))))
      with (List.length (RainScene.raindrops s) + 0)%nat by lia.
    rewrite firstn_app_2. cbn. apply app_nil_r.
  - intros Hgt.
    set (s2 := fst (RainScene.changeRainIntensity random
                      (fst (RainScene.changeRainIntensity random s (-50) w))
                      50 w')).
    assert (Hpop : RainScene.populated s2).
    { apply changeRainIntensity_populated; [left; reflexivity|].
      apply changeRainIntensity_populated; [right; reflexivity|].
      split; [exact Hlen|]. exists level. auto. }
    destruct Hpop as (Hlen2 & _).
    destruct (changeRainIntensity_result random s (-50) w) as (Hn & _).
    destruct (changeRainIntensity_result random
                (fst (RainScene.changeRainIntensity random s (-50) w)) 50 w')
      as (Hn' & _).
    cbv zeta in *. fold s2 in Hn'.
    assert (E : RainScene.rainIntensity s2 = RainScene.rainIntensity s) by lia.
    split; [exact E | lia].
Qed.

End RainSceneExtras.

(** ** The roadside: guardrails and street lamps *)

Section Roadside.

Variable random : nat -> Q.
Hypothesis random_unit : forall n, 0 <= random n < 1.

(** X17.  The guardrail posts of a canvas whose width is not negative: there
    are ceil(width / 150) + 1 of them; the k-th stands within 10 of
    150 * k - 50, so each stands at least 130 to the right of the one
    before, the first one left of the canvas and the last one at most 60
    short of its right edge.  Each is 50 high and 8 wide, stands on the
    ground line of the Ground classes, and has a weathering in [0.1, 0.4). *)
Theorem guardrails_span_the_canvas (c : Canvas.t) (w : JS.World) :
  0 <= Canvas.width c ->
  let g := fst (Guardrails.new random c w) in
  let n := Z.to_nat (Qceiling (Canvas.width c / 150) + 1) in
  List.length (Guardrails.posts g) = n /\
  (forall k post, nth_error (Guardrails.posts g) k = Some post ->
     - 10 <= Guardrails.x post - (inject_Z (Z.of_nat k) * 150 - 50) <= 10 /\
     Guardrails.y post + Guardrails.height post
     == SimpleGround.getGroundY (SimpleGround.new c) /\
     Guardrails.height post = 50 /\
     Guardrails.width post = 8 /\
     0.1 <= Guardrails.weathering post < 0.4) /\
  (forall k p q,
     nth_error (Guardrails.posts g) k = Some p ->
     nth_error (Guardrails.posts g) (S k) = Some q ->
     Guardrails.x p + 130 <= Guardrails.x q) /\
  exists first last,
    nth_error (Guardrails.posts g) 0 = Some first /\
    nth_error (Guardrails.posts g) (n - 1) = Some last /\
    Guardrails.x first < 0 /\
    Canvas.width c - 60 <= Guardrails.x last.
Proof.
  intros Hw g n.
  assert (Hdiv : Canvas.width c / 150 == (1 # 150) * Canvas.width c)
    by field.
  assert (Hceil : (0 <= Qceiling (Canvas.width c / 150))%Z).
  { rewrite <- (Qceiling_Z 0). apply Qceiling_resp_le.
    change (0 <= Canvas.width c / 150). lra. }
  assert (Hcover : Canvas.width c
                   <= inject_Z (Z.of_nat (n - 1)) * 150).
  { pose proof (Qle_ceiling (Canvas.width c / 150)) as H.
    replace (Z.of_nat (n - 1)) with (Qceiling (Canvas.width c / 150))
      by (unfold n; lia).
    lra. }
  subst g. unfold Guardrails.new, Guardrails.createGuardrails. run_js.
  cbn [Guardrails.posts Guardrails.canvas Guardrails.postSpacing
       Guardrails.railHeight].
  match goal with
  | |- context [JS.for_push ?k ?f ?b ?a ?w0] =>
      destruct (for_push_indexed
                  (fun i post =>
                     - 10 <= Guardrails.x post
                             - (inject_Z (Z.of_nat i) * 150 - 50) <= 10 /\
                     Guardrails.y post + Guardrails.height post
                     == SimpleGround.getGroundY (SimpleGround.new c) /\
                     Guardrails.height post = 50 /\
                     Guardrails.width post = 8 /\
                     0.1 <= Guardrails.weathering post < 0.4)
                  b) with (count := k) (from := f) (arr := a) (w := w0)
        as (posts & E & Hlen & HP)
  end.
  { intros i w'. rewrite !bind_run. unfold JS.ret.
    cbn [fst Guardrails.x Guardrails.y Guardrails.height Guardrails.width
         Guardrails.weathering].
    set (w1 := snd (JS.Math_random random w')).
    change (fst (JS.Math_random random w')) with (random (JS.draws w')).
    change (fst (JS.Math_random random w1)) with (random (JS.draws w1)).
    pose proof (random_unit (JS.draws w')) as H1.
    pose proof (random_unit (JS.draws w1)) as H2.
    unfold SimpleGround.getGroundY, SimpleGround.new.
    cbn [SimpleGround.canvas SimpleGround.groundHeight].
    repeat split; lra. }
  rewrite E. cbn [app]. fold n in Hlen. cbn [Nat.add] in HP.
  split; [exact Hlen|]. split; [exact HP|]. split.
  - intros k p q Hp Hq.
    destruct (HP k p Hp) as (Hxp & _). destruct (HP (S k) q Hq) as (Hxq & _).
    rewrite Nat2Z.inj_succ in Hxq. unfold Z.succ in Hxq.
    rewrite inject_Z_plus in Hxq. change (inject_Z 1) with 1 in Hxq. lra.
  - assert (Hn : (1 <= n)%nat) by (unfold n; lia).
    destruct (nth_error posts 0) as [first|] eqn:E0;
      [|apply nth_error_None in E0; lia].
    destruct (nth_error posts (n - 1)) as [last|] eqn:En;
      [|apply nth_error_None in En; lia].
    exists first, last. split; [reflexivity|]. split; [reflexivity|].
    destruct (HP _ _ E0) as (H0 & _). destruct (HP _ _ En) as (Hl & _).
    change (inject_Z (Z.of_nat 0)) with 0 in H0. split; lra.
Qed.

(** X18.  There are two street lamps, within 10 of 25% and of 75% of the
    width of the canvas, the left one not to the right of the right one on
    a canvas at least 40 wide.  Both are 700 high on poles 24 wide, stand on
    the ground line, shine at 0.9 and light a radius in [400, 480].  A
    resize makes two lamps again. *)
Theorem two_street_lamps (c : Canvas.t) (w w' : JS.World) :
  let s := fst (StreetLamps.new random c w) in
  exists left right,
    StreetLamps.lamps s = [left; right] /\
    - 10 <= StreetLamps.x left - Canvas.width c * 0.25 <= 10 /\
    - 10 <= StreetLamps.x right - Canvas.width c * 0.75 <= 10 /\
    (40 <= Canvas.width c -> StreetLamps.x left <= StreetLamps.x right) /\
    Forall
      (fun lamp =>
         StreetLamps.y lamp + StreetLamps.height lamp
         == SimpleGround.getGroundY (SimpleGround.new c) /\
         StreetLamps.height lamp = 700 /\
         StreetLamps.poleWidth lamp = 24 /\
         StreetLamps.lightIntensity lamp = 0.9 /\
         400 <= StreetLamps.lightRadius lamp <= 480)
      (StreetLamps.lamps s) /\
    List.length
      (StreetLamps.lamps (fst (StreetLamps.onCanvasResize random s w')))
    = 2%nat.
Proof.
  intro s. subst s.
  pose proof (random_unit (JS.draws w)) as H1.
  pose proof (random_unit (1 + JS.draws w)) as H2.
  pose proof (random_unit (2 + JS.draws w)) as H3.
  pose proof (random_unit (3 + JS.draws w)) as H4.
  cbn in H2, H3, H4. cbn.
  do 2 eexists. split; [reflexivity|]. cbn.
  split; [lra|]. split; [lra|]. split; [intro; lra|]. split.
  - unfold SimpleGround.getGroundY. cbn.
    apply Forall_cons; [|apply Forall_cons; [|apply Forall_nil]];
      cbn; (split; [lra|]); repeat split; try reflexivity; lra.
  - reflexivity.
Qed.

End Roadside.

(** ** More on the ground *)

Section GroundLayout.

Variable random : nat -> Q.
Hypothesis random_unit : forall n, 0 <= random n < 1.

Lemma keepOnScreen_sameBasin_but_x (sw : Q) (p : Ground.Puddle.t) :
  Ground.Puddle.width (Ground.keepOnScreen sw p) = Ground.Puddle.width p /\
  Ground.Puddle.height (Ground.keepOnScreen sw p) = Ground.Puddle.height p /\
  Ground.Puddle.compound (Ground.keepOnScreen sw p)
  = Ground.Puddle.compound p /\
  Ground.Puddle.ripples (Ground.keepOnScreen sw p) = Ground.Puddle.ripples p.
Proof. repeat split. Qed.

Lemma keepOnScreen_onScreen (sw : Q) (p : Ground.Puddle.t) :
  Ground.Puddle.width p <= 280 ->
  Ground.onScreen sw (Ground.keepOnScreen sw p) /\
  (10 <= Ground.Puddle.x p ->
   Ground.Puddle.x p + Ground.Puddle.width p <= sw - 10 ->
   Ground.Puddle.x (Ground.keepOnScreen sw p) = Ground.Puddle.x p).
Proof.
  intro Hw. unfold Ground.onScreen, Ground.keepOnScreen. cbv zeta.
  cbn [Ground.Puddle.x Ground.Puddle.width].
  destruct (Qltb (Ground.Puddle.x p) 10) eqn:E1;
    [apply Qltb_lt in E1 | apply Qltb_ge in E1];
    destruct (Qltb (sw - 10) _) eqn:E2;
    [apply Qltb_lt in E2 | apply Qltb_ge in E2
     | apply Qltb_lt in E2 | apply Qltb_ge in E2];
    repeat split; intros; try lra; reflexivity.
Qed.

Lemma createPuddles_layout (c : Canvas.t) (w : JS.World) :
  let puddles := fst (Ground.createPuddles random c w) in
  Ground.laidOut puddles /\
  Forall (Ground.onScreen (Canvas.width c)) puddles /\
  (450 <= Canvas.width c ->
   exists a b d,
     puddles = [a; b; d] /\
     Ground.Puddle.x a + Ground.Puddle.width a / 2 == Canvas.width c * 0.2 /\
     Ground.Puddle.x b + Ground.Puddle.width b / 2 == Canvas.width c * 0.5 /\
     Ground.Puddle.x d + Ground.Puddle.width d / 2 == Canvas.width c * 0.8).
Proof.
  unfold Ground.createPuddles. run_js. cbn [map].
  set (w1 := snd (JS.Math_random random w)).
  set (w2 := snd (JS.Math_random random w1)).
  set (w3 := snd (JS.Math_random random w2)).
  set (w4 := snd (JS.Math_random random w3)).
  set (w5 := snd (JS.Math_random random w4)).
  set (w6 := snd (JS.Math_random random w5)).
  set (w7 := snd (JS.Math_random random w6)).
  change (fst (JS.Math_random random w)) with (random (JS.draws w)).
  change (fst (JS.Math_random random w1)) with (random (JS.draws w1)).
  change (fst (JS.Math_random random w2)) with (random (JS.draws w2)).
  change (fst (JS.Math_random random w3)) with (random (JS.draws w3)).
  change (fst (JS.Math_random random w4)) with (random (JS.draws w4)).
  change (fst (JS.Math_random random w5)) with (random (JS.draws w5)).
  change (fst (JS.Math_random random w6)) with (random (JS.draws w6)).
  change (fst (JS.Math_random random w7)) with (random (JS.draws w7)).
  pose proof (random_unit (JS.draws w)) as H1.
  pose proof (random_unit (JS.draws w1)) as H2.
  pose proof (random_unit (JS.draws w2)) as H3.
  pose proof (random_unit (JS.draws w3)) as H4.
  pose proof (random_unit (JS.draws w4)) as H5.
  pose proof (random_unit (JS.draws w5)) as H6.
  pose proof (random_unit (JS.draws w6)) as H7.
  pose proof (random_unit (JS.draws w7)) as H8.
  set (r1 := random (JS.draws w)) in *.
  set (r2 := random (JS.draws w1)) in *.
  set (r3 := random (JS.draws w2)) in *.
  set (r4 := random (JS.draws w3)) in *.
  set (r5 := random (JS.draws w4)) in *.
  set (r6 := random (JS.draws w5)) in *.
  set (r7 := random (JS.draws w6)) in *.
  set (r8 := random (JS.draws w7)) in *.
  split; [|split].
  - do 3 eexists. split; [reflexivity|].
    unfold Ground.medium, Ground.twofold, Ground.small.
    cbn [Ground.keepOnScreen Ground.Puddle.width Ground.Puddle.height
         Ground.Puddle.compound].
    split; [repeat split; lra|]. split; [|repeat split; lra].
    eexists. split; [reflexivity|].
    cbn [Ground.Puddle.smallerWidth Ground.Puddle.smallerHeight
         Ground.Puddle.overlapOffset].
    repeat split; try lra; reflexivity.
  - repeat (apply Forall_cons; [apply keepOnScreen_onScreen; cbn; lra|]).
    apply Forall_nil.
  - intro Hwide. do 3 eexists. split; [reflexivity|].
    assert (Hm : forall a, a / 2 == a * 0.5) by (intro; field).
    repeat split;
      match goal with
      | |- Ground.Puddle.x (Ground.keepOnScreen ?sw ?p) + _ == _ =>
          change (Ground.Puddle.width (Ground.keepOnScreen sw p))
            with (Ground.Puddle.width p);
          rewrite (proj2 (keepOnScreen_onScreen sw p
                            ltac:(cbn [Ground.Puddle.width]; lra))
                     ltac:(cbn [Ground.Puddle.x]; rewrite Hm; lra)
                     ltac:(cbn [Ground.Puddle.x Ground.Puddle.width];
                           rewrite Hm; lra));
          cbn [Ground.Puddle.x Ground.Puddle.width]; field
      end.
Qed.

Lemma sameBasin_refl (p : Ground.Puddle.t) : Ground.sameBasin p p.
Proof. repeat split. Qed.

Lemma addRipple_sameBasin (p : Ground.Puddle.t) (x y : Q) :
  Ground.sameBasin p (Ground.addRipple p x y).
Proof. repeat split. Qed.

Lemma hitFirst_sameBasin (groundY x y : Q) (puddles : list Ground.Puddle.t) :
  Forall2 Ground.sameBasin puddles (fst (Ground.hitFirst groundY x y puddles)).
Proof.
  induction puddles as [|p rest IH]; cbn.
  - constructor.
  - destruct (Ground.hits groundY x y p).
    + constructor; [apply addRipple_sameBasin|].
      clear IH. induction rest; constructor; auto using sameBasin_refl.
    + destruct (Ground.hitFirst groundY x y rest) as [rest1 hit].
      cbn in *. constructor; [apply sameBasin_refl | exact IH].
Qed.

Lemma updateRipples_sameBasin (dt : Q) (puddles : list Ground.Puddle.t) :
  Forall2 Ground.sameBasin puddles (map (Ground.updateRipples dt) puddles).
Proof.
  induction puddles; cbn; constructor; auto. repeat split.
Qed.

Lemma laidOut_sameBasin (puddles puddles1 : list Ground.Puddle.t) :
  Forall2 Ground.sameBasin puddles puddles1 ->
  Ground.laidOut puddles -> Ground.laidOut puddles1.
Proof.
  intros H (a & b & c & -> & Ha & (cb & Hb) & Hc).
  inversion H as [|? a1 ? l1 (_ & Wa & Ha1 & Ca) H1]; subst.
  inversion H1 as [|? b1 ? l2 (_ & Wb & Hb1 & Cb) H2]; subst.
  inversion H2 as [|? c1 ? l3 (_ & Wc & Hc1 & Cc) H3]; subst.
  inversion H3; subst.
  exists a1, b1, c1. split; [reflexivity|].
  unfold Ground.medium, Ground.twofold, Ground.small in *.
  rewrite Wa, Ha1, Ca, Wc, Hc1, Cc.
  split; [exact Ha|]. split; [|exact Hc].
  exists cb. rewrite Wb, Hb1, Cb. exact Hb.
Qed.

(** In a layout every puddle is wider than it is high. *)
Lemma laidOut_flat (puddles : list Ground.Puddle.t) :
  Ground.laidOut puddles ->
  Forall (fun p => 0 < Ground.Puddle.height p <= Ground.Puddle.width p)
    puddles.
Proof.
  intros (a & b & c & -> & (_ & Wa & Ha) & (cb & _ & Wb & Hb & _)
          & (_ & Wc & Hc)).
  repeat constructor; lra.
Qed.

(** The cap of a ripple on a puddle that is wider than high. *)
Lemma cap_is_height (width height : Q) :
  0 <= height <= width ->
  Qmin (Qmin (width * 0.4) (height * 0.4)) ((width + height) / 2 * 0.6)
  == height * 0.4.
Proof.
  intros [H0 Hw].
  assert (Hq : (width + height) / 2 * 0.6 == 0.3 * (width + height)) by field.
  rewrite Hq.
  destruct (Q.min_spec (width * 0.4) (height * 0.4)) as [[H E] | [H E]];
    rewrite E; [lra | apply Q.min_l; lra].
Qed.

Lemma addRipple_rippling (p : Ground.Puddle.t) (x y : Q) :
  0 < Ground.Puddle.height p <= Ground.Puddle.width p ->
  Ground.rippling p -> Ground.rippling (Ground.addRipple p x y).
Proof.
  intros Hflat [Hlen Hrip].
  destruct (addRipple_spec p x y) as (r & Hr & E & _ & _ & Eh & _).
  unfold Ground.rippling. rewrite E, Eh, length_app. cbn [List.length].
  assert (Hsub : forall r0,
             In r0 (if (6 <=? List.length (Ground.Puddle.ripples p))%nat
                    then tl (Ground.Puddle.ripples p)
                    else Ground.Puddle.ripples p) ->
             In r0 (Ground.Puddle.ripples p)).
  { intros r0 H. destruct (6 <=? _)%nat; [|exact H].
    destruct (Ground.Puddle.ripples p); [exact H | right; exact H]. }
  split.
  - destruct (6 <=? List.length (Ground.Puddle.ripples p))%nat eqn:E6.
    + apply Nat.leb_le in E6.
      destruct (Ground.Puddle.ripples p); cbn in *; lia.
    + apply Nat.leb_gt in E6. lia.
  - intros r0 Hin. apply in_app_or in Hin. destruct Hin as [Hin | [<- | []]].
    + apply Hrip. apply Hsub. exact Hin.
    + destruct Hr as (_ & _ & Hrad & Hop & _ & Hmax).
      rewrite Hmax, Hrad, Hop.
      rewrite (cap_is_height (Ground.Puddle.width p) (Ground.Puddle.height p)
                 ltac:(lra)).
      repeat split; lra.
Qed.

Lemma hitFirst_rippling (groundY x y : Q) (puddles : list Ground.Puddle.t) :
  Forall (fun p => 0 < Ground.Puddle.height p <= Ground.Puddle.width p)
    puddles ->
  Forall Ground.rippling puddles ->
  Forall Ground.rippling (fst (Ground.hitFirst groundY x y puddles)).
Proof.
  induction puddles as [|p rest IH]; intros Hflat Hrip; cbn.
  - constructor.
  - inversion Hflat as [|? ? Hp Hrest]; subst.
    inversion Hrip as [|? ? Rp Rrest]; subst.
    destruct (Ground.hits groundY x y p).
    + constructor; [apply addRipple_rippling; assumption | exact Rrest].
    + specialize (IH Hrest Rrest).
      destruct (Ground.hitFirst groundY x y rest) as [rest1 hit].
      constructor; assumption.
Qed.

Lemma updateRipples_rippling (dt : Q) (p : Ground.Puddle.t) :
  Ground.rippling p -> Ground.rippling (Ground.updateRipples dt p).
Proof.
  intros [Hlen Hrip]. unfold Ground.rippling.
  cbn [Ground.updateRipples Ground.Puddle.ripples Ground.Puddle.height].
  split.
  - eapply Nat.le_trans; [apply filter_step_length | exact Hlen].
  - intros r Hr. apply filter_step_In in Hr.
    destruct Hr as (r0 & Hin & -> & Hvis).
    destruct (Hrip r0 Hin) as (Hmax & _).
    unfold Ground.visible in Hvis. apply andb_true_iff in Hvis.
    destruct Hvis as [Hrad Hop]. apply Qltb_lt in Hrad. apply Qltb_lt in Hop.
    split; [exact Hmax|]. split; assumption.
Qed.

End GroundLayout.

Section GroundPool.

Variable random : nat -> Q.
Hypothesis random_unit : forall n, 0 <= random n < 1.

Lemma launched_alive (x y : Q) (s : Ground.Splash.t) :
  Ground.launched x y s -> Ground.alive s.
Proof.
  intros (_ & Hy & Hi & _ & _ & Hl & Hm & Hs). unfold Ground.alive.
  rewrite Hl, Hy, Hi. repeat split; lra.
Qed.

Lemma createSplashParticles_launched (x y : Q) (pool : list Ground.Splash.t)
  (w : JS.World) :
  exists fresh,
    (3 <= List.length fresh <= 6)%nat /\
    Forall (Ground.launched x y) fresh /\
    fst (Ground.createSplashParticles random x y pool w)
    = Ground.capSplashes (pool ++ fresh).
Proof.
  unfold Ground.createSplashParticles. rewrite bind_run.
  unfold JS.ret. cbn [fst].
  unfold Ground.pushSplashParticles. cbv zeta. rewrite bind_run.
  match goal with
  | |- context [JS.for_push ?c ?f ?b ?a ?w0] =>
      destruct (for_push_run (Ground.launched x y) b) with
        (count := c) (from := f) (arr := a) (w := w0)
        as (fresh & E & Hlen & HP)
  end.
  - intros i w0. run_js.
    set (w1 := snd (JS.Math_random random w0)).
    set (w2 := snd (JS.Math_random random w1)).
    set (w3 := snd (JS.Math_random random w2)).
    set (w4 := snd (JS.Math_random random w3)).
    change (fst (JS.Math_random random w0)) with (random (JS.draws w0)).
    change (fst (JS.Math_random random w1)) with (random (JS.draws w1)).
    change (fst (JS.Math_random random w2)) with (random (JS.draws w2)).
    change (fst (JS.Math_random random w3)) with (random (JS.draws w3)).
    change (fst (JS.Math_random random w4)) with (random (JS.draws w4)).
    pose proof (random_unit (JS.draws w0)) as H1.
    pose proof (random_unit (JS.draws w1)) as H2.
    pose proof (random_unit (JS.draws w2)) as H3.
    pose proof (random_unit (JS.draws w3)) as H4.
    pose proof (random_unit (JS.draws w4)) as H5.
    unfold Ground.launched.
    cbn [Ground.Splash.x Ground.Splash.y Ground.Splash.impactY
         Ground.Splash.velocityX Ground.Splash.velocityY Ground.Splash.life
         Ground.Splash.maxLife Ground.Splash.size].
    repeat split; try lra; reflexivity.
  - exists fresh. split; [|split].
    + rewrite Hlen. apply particleCount_range. apply random_unit.
    + exact HP.
    + rewrite E. reflexivity.
Qed.

Lemma slice_last_Forall {A} (P : A -> Prop) (k : nat) (arr : list A) :
  Forall P arr -> Forall P (slice_last k arr).
Proof.
  intro H. destruct (slice_last_suffix k arr) as (dropped & E).
  rewrite E in H. apply Forall_app in H. apply H.
Qed.

Lemma capSplashes_Forall (P : Ground.Splash.t -> Prop)
  (pool : list Ground.Splash.t) :
  Forall P pool -> Forall P (Ground.capSplashes pool).
Proof.
  intro H. unfold Ground.capSplashes.
  destruct (200 <? _)%nat; [apply slice_last_Forall|]; exact H.
Qed.

Lemma createSplashParticles_alive (x y : Q) (pool : list Ground.Splash.t)
  (w : JS.World) :
  Forall Ground.alive pool ->
  Forall Ground.alive (fst (Ground.createSplashParticles random x y pool w)).
Proof.
  intro H.
  destruct (createSplashParticles_launched x y pool w) as (fresh & _ & Hf & ->).
  apply capSplashes_Forall. apply Forall_app. split; [exact H|].
  eapply Forall_impl; [|exact Hf]. intros s. apply launched_alive.
Qed.

(** What [addSplash] does to the three parts of the ground it touches. *)
Lemma addSplash_parts (g : Ground.t) (x y : Q) (w : JS.World) :
  let g1 := fst (Ground.addSplash random g x y w) in
  Ground.canvas g1 = Ground.canvas g /\
  Ground.groundHeight g1 = Ground.groundHeight g /\
  Ground.puddles g1
  = fst (Ground.hitFirst (Ground.getGroundY g) x y (Ground.puddles g)) /\
  (Ground.splashes g1 = Ground.splashes g \/
   exists w1,
     Ground.splashes g1
     = fst (Ground.createSplashParticles random x y (Ground.splashes g) w1)).
Proof.
  unfold Ground.addSplash. cbv zeta.
  destruct (Ground.hitFirst _ x y _) as [puddles1 hit].
  destruct hit; cbn [negb andb]; [|destruct (Qltb _ y)];
    run_js; cbn [Ground.canvas Ground.groundHeight Ground.puddles
                 Ground.splashes];
    repeat split; eauto.
Qed.

Lemma update_alive (g : Ground.t) (dt : Q) :
  Forall Ground.alive (Ground.splashes g) ->
  Forall Ground.alive (Ground.splashes (Ground.update g dt)).
Proof.
  intro H. cbn [Ground.update Ground.splashes].
  apply Forall_forall. intros s Hs. apply filter_step_In in Hs.
  destruct Hs as (s0 & Hin & -> & Hk).
  rewrite Forall_forall in H. destruct (H s0 Hin) as (_ & _ & Hm & Hz).
  unfold Ground.stays in Hk. apply andb_true_iff in Hk.
  destruct Hk as [Hl Hy]. apply Qltb_lt in Hl. apply Qleb_le in Hy.
  repeat split; first [exact Hl | exact Hy | apply Hm | apply Hz].
Qed.

(** The three invariants of the ground at once. *)
Lemma reachable_tended (g : Ground.t) :
  Ground.reachable random g ->
  Ground.groundHeight g = 80 /\
  Ground.laidOut (Ground.puddles g) /\
  Forall Ground.rippling (Ground.puddles g) /\
  Forall Ground.alive (Ground.splashes g).
Proof.
  assert (Hdry : forall c w,
             Forall Ground.rippling (fst (Ground.createPuddles random c w))).
  { intros c w. apply Forall_forall. intros p Hin.
    pose proof (createPuddles_dry random c w p Hin) as Hp.
    unfold Ground.rippling. rewrite Hp. split; [cbn; lia | intros r []]. }
  induction 1 as [c w | g x y w Hr IH | g dt Hr IH | g c Hr IH | g w Hr IH].
  - unfold Ground.new. run_js.
    cbn [Ground.groundHeight Ground.puddles Ground.splashes].
    split; [reflexivity|]. split; [apply createPuddles_layout; assumption|].
    split; [apply Hdry | constructor].
  - destruct IH as (Hh & Hl & Hp & Ha).
    destruct (addSplash_parts g x y w) as (_ & Eh & Ep & Es).
    rewrite Eh, Ep. split; [exact Hh|]. split; [|split].
    + eapply laidOut_sameBasin; [apply hitFirst_sameBasin | exact Hl].
    + apply hitFirst_rippling; [apply laidOut_flat; exact Hl | exact Hp].
    + destruct Es as [-> | (w1 & ->)];
        [exact Ha | apply createSplashParticles_alive; exact Ha].
  - destruct IH as (Hh & Hl & Hp & Ha).
    split; [exact Hh|]. split; [|split].
    + eapply laidOut_sameBasin; [apply updateRipples_sameBasin | exact Hl].
    + cbn [Ground.update Ground.puddles]. apply Forall_map.
      eapply Forall_impl; [|exact Hp]. intro p. apply updateRipples_rippling.
    + apply update_alive. exact Ha.
  - exact IH.
  - destruct IH as (Hh & Hl & Hp & Ha).
    unfold Ground.onCanvasResize. run_js.
    cbn [Ground.groundHeight Ground.puddles Ground.splashes].
    split; [exact Hh|]. split; [apply createPuddles_layout; assumption|].
    split; [apply Hdry | exact Ha].
Qed.

End GroundPool.

Section GroundExtras.

Variable random : nat -> Q.
Hypothesis random_unit : forall n, 0 <= random n < 1.

(** X19.  [createPuddles] lays out three dry puddles: a medium one (120 to
    160 wide, 20 to 30 high), the compound one (220 to 280 wide, 35 to 50
    high, its smaller part 80 to 110 wide and 18 to 30 high at 70% of the
    main width) and a small one (50 to 80 wide, 12 to 18 high).  The right
    edge of each is at least 10 inside the canvas, and on a canvas at least
    300 wide so is the left edge.  On a canvas at least 450 wide the bounds
    check moves nothing: the puddles are centred at 20%, 50% and 80% of the
    width. *)
Theorem createPuddles_three_puddles (c : Canvas.t) (w : JS.World) :
  let puddles := fst (Ground.createPuddles random c w) in
  Ground.laidOut puddles /\
  Forall (Ground.onScreen (Canvas.width c)) puddles /\
  Forall (fun p => Ground.Puddle.ripples p = []) puddles /\
  (450 <= Canvas.width c ->
   exists a b d,
     puddles = [a; b; d] /\
     Ground.Puddle.x a + Ground.Puddle.width a / 2 == Canvas.width c * 0.2 /\
     Ground.Puddle.x b + Ground.Puddle.width b / 2 == Canvas.width c * 0.5 /\
     Ground.Puddle.x d + Ground.Puddle.width d / 2 == Canvas.width c * 0.8).
Proof.
  intro puddles.
  destruct (createPuddles_layout random random_unit c w) as (Hl & Hs & Hc).
  split; [exact Hl|]. split; [exact Hs|]. split; [|exact Hc].
  apply Forall_forall. intros p Hp.
  exact (createPuddles_dry random c w p Hp).
Qed.

(** X20.  A resize of the ground replaces the puddles by three fresh ones,
    laid out for the current canvas and without ripples, whatever ripples
    there were; the splash particles, the canvas and the ground height are
    kept, and eight random numbers are drawn. *)
Theorem onCanvasResize_relays (g : Ground.t) (w : JS.World) :
  let g1 := fst (Ground.onCanvasResize random g w) in
  Ground.canvas g1 = Ground.canvas g /\
  Ground.groundHeight g1 = Ground.groundHeight g /\
  Ground.splashes g1 = Ground.splashes g /\
  Ground.laidOut (Ground.puddles g1) /\
  Forall (Ground.onScreen (Canvas.width (Ground.canvas g)))
    (Ground.puddles g1) /\
  Forall (fun p => Ground.Puddle.ripples p = []) (Ground.puddles g1) /\
  JS.draws (snd (Ground.onCanvasResize random g w)) = (JS.draws w + 8)%nat.
Proof.
  intro g1.
  destruct (createPuddles_layout random random_unit (Ground.canvas g) w)
    as (Hl & Hs & _).
  subst g1. unfold Ground.onCanvasResize. run_js.
  cbn [Ground.canvas Ground.groundHeight Ground.splashes Ground.puddles].
  repeat split; try assumption.
  - apply Forall_forall. intros p Hp.
    exact (createPuddles_dry random (Ground.canvas g) w p Hp).
  - unfold Ground.createPuddles. run_js. cbn. lia.
Qed.

(** X21.  However the ground is used after its construction, the ground
    height is 80 and the puddles are the three kinds in their order, with
    their sizes in range; every puddle carries six ripples at most, and
    each ripple is capped at 0.4 times the height of its puddle, is smaller
    than its cap and is not yet transparent. *)
Theorem ground_keeps_its_puddles (g : Ground.t) :
  Ground.reachable random g ->
  Ground.groundHeight g = 80 /\
  Ground.laidOut (Ground.puddles g) /\
  Forall Ground.rippling (Ground.puddles g).
Proof.
  intro Hr. destruct (reachable_tended random random_unit g Hr)
    as (Hh & Hl & Hp & _).
  auto.
Qed.

(** X22.  [getMaxPuddleHeight] of a ground in use is the height of the
    compound puddle, between 35 and 50, and no puddle is higher. *)
Theorem max_puddle_height_is_compound (g : Ground.t) :
  Ground.reachable random g ->
  exists a b c,
    Ground.puddles g = [a; b; c] /\
    Ground.getMaxPuddleHeight g == Ground.Puddle.height b /\
    35 <= Ground.getMaxPuddleHeight g <= 50 /\
    Forall (fun p => Ground.Puddle.height p <= Ground.getMaxPuddleHeight g)
      (Ground.puddles g).
Proof.
  intro Hr. destruct (reachable_tended random random_unit g Hr)
    as (_ & (a & b & c & E & (_ & _ & Ha) & (cb & _ & _ & Hb & _)
             & (_ & _ & Hc)) & _).
  exists a, b, c. split; [exact E|].
  unfold Ground.getMaxPuddleHeight. rewrite E. cbn [fold_left].
  assert (E1 : Qmax (Ground.Puddle.height a) (Ground.Puddle.height b)
               == Ground.Puddle.height b) by (apply Q.max_r; lra).
  assert (E2 : Qmax (Qmax (Ground.Puddle.height a) (Ground.Puddle.height b))
                 (Ground.Puddle.height c)
               == Ground.Puddle.height b)
    by (rewrite E1; apply Q.max_l; lra).
  split; [exact E2|]. rewrite E2. split; [lra|].
  repeat constructor; lra.
Qed.




End GroundExtras.


(** ** The first Ground class *)

Section SimpleGroundFacts.

Variable random : nat -> Q.
Hypothesis random_unit : forall n, 0 <= random n < 1.


End SimpleGroundFacts.

(** X28.  [update] of the first Ground class keeps exactly the particles
    that, after their frame, have life left and are less than 10 below the
    ground line (a particle exactly 10 below is removed); the pool never
    grows, and the canvas and the ground height are kept. *)
Theorem simple_update_removal (g : SimpleGround.t) (dt : Q) :
  let g1 := SimpleGround.update g dt in
  (forall s, In s (SimpleGround.splashes g1) <->
     exists s0, In s0 (SimpleGround.splashes g) /\
       s = SimpleGround.step dt s0 /\
       0 < SimpleGround.Splash.life s /\
       SimpleGround.Splash.y s < SimpleGround.getGroundY g + 10) /\
  (List.length (SimpleGround.splashes g1)
   <= List.length (SimpleGround.splashes g))%nat /\
  SimpleGround.canvas g1 = SimpleGround.canvas g /\
  SimpleGround.groundHeight g1 = SimpleGround.groundHeight g.
Proof.
  intro g1. subst g1. unfold SimpleGround.update.
  cbn [SimpleGround.splashes SimpleGround.canvas SimpleGround.groundHeight].
  split; [|split; [apply filter_step_length | split; reflexivity]].
  intro s. rewrite filter_step_In.
  split; intros (s0 & Hin & E & H); exists s0; (split; [exact Hin|]);
    (split; [exact E|]).
  - apply andb_true_iff in H. destruct H as [Hl Hy].
    apply Qltb_lt in Hl. apply Qltb_lt in Hy. auto.
  - destruct H as [Hl Hy]. apply andb_true_iff.
    split; apply Qltb_lt; assumption.
Qed.

(** ** The variant with sound *)

Lemma settled_kept (a a1 : AudioManager.t) (level : Z) :
  AudioManager.nodes a1 = AudioManager.nodes a ->
  AudioManager.masterVolume a1 = AudioManager.masterVolume a ->
  AudioManager.rainVolume a1 = AudioManager.rainVolume a ->
  AudioManager.settled a level -> AudioManager.settled a1 level.
Proof.
  intros En Em Er (Hrv & Hmv & Hn). unfold AudioManager.settled.
  unfold AudioManager.tuned in *. rewrite En, Em, Er.
  split; [exact Hrv|]. split; [exact Hmv | exact Hn].
Qed.

Lemma startRain_settled (a : AudioManager.t) (started : bool) (level : Z) :
  AudioManager.settled a level ->
  AudioManager.settled (AudioManager.startRain a started) level.
Proof.
  apply settled_kept; unfold AudioManager.startRain;
    destruct (_ || _); try reflexivity; destruct started; reflexivity.
Qed.

Lemma stopRain_settled (a : AudioManager.t) (stopped : bool) (level : Z) :
  AudioManager.settled a level ->
  AudioManager.settled (AudioManager.stopRain a stopped) level.
Proof.
  apply settled_kept; unfold AudioManager.stopRain;
    destruct (_ && _); reflexivity.
Qed.

Lemma toggleAudio_settled (a : AudioManager.t) (stopped : bool) (level : Z) :
  AudioManager.settled a level ->
  AudioManager.settled (AudioManager.toggleAudio a stopped) level.
Proof.
  intro H. unfold AudioManager.toggleAudio. cbv zeta.
  set (a1 := AudioManager.mk _ _ _ _ _ _).
  assert (H1 : AudioManager.settled a1 level)
    by (revert H; apply settled_kept; reflexivity).
  destruct (negb (AudioManager.isEnabled a1));
    [apply stopRain_settled|]; exact H1.
Qed.

Lemma playThunder_same (random : nat -> Q) (a : AudioManager.t)
  (w : JS.World) :
  fst (AudioManager.playThunder random a w) = a.
Proof.
  unfold AudioManager.playThunder. destruct (_ || _); [reflexivity|].
  rewrite bind_run. reflexivity.
Qed.

Lemma new_settled (supported : bool) (level : Z) :
  AudioManager.settled (AudioManager.new supported) level.
Proof.
  unfold AudioManager.settled, AudioManager.new. cbv zeta.
  cbn [AudioManager.rainVolume AudioManager.masterVolume AudioManager.nodes].
  split; [reflexivity|]. split; [lra|].
  intros n En. destruct supported; [|discriminate].
  injection En as <-. split; [reflexivity|]. left. split; reflexivity.
Qed.

Lemma setMasterVolume_settled (a : AudioManager.t) (volume : Q) (level : Z) :
  AudioManager.settled a level ->
  AudioManager.settled (AudioManager.setMasterVolume a volume) level.
Proof.
  intros (Hrv & Hmv & Hn).
  unfold AudioManager.settled, AudioManager.setMasterVolume. cbv zeta.
  cbn [AudioManager.rainVolume AudioManager.masterVolume AudioManager.nodes].
  split; [exact Hrv|]. split.
  - split; [apply Q.le_max_l|].
    apply Q.max_lub; [lra | apply Q.le_min_l].
  - intros n1 E1.
    destruct (AudioManager.nodes a) as [n0|]; [|discriminate].
    injection E1 as <-.
    cbn [AudioManager.masterGain AudioManager.rainGain
         AudioManager.filterFrequency].
    split; [reflexivity|].
    destruct (Hn n0 eq_refl) as (_ & [H | H]); [left; exact H|].
    right. exact H.
Qed.

Lemma updateRainIntensity_settled (a : AudioManager.t) (level level1 : Z) :
  AudioManager.settled a level ->
  AudioManager.settled
    (AudioManager.updateRainIntensity a (inject_Z level1)) level1.
Proof.
  intros (Hrv & Hmv & Hn).
  unfold AudioManager.settled, AudioManager.updateRainIntensity.
  destruct (AudioManager.nodes a) as [n0|] eqn:En.
  - cbv zeta.
    cbn [AudioManager.rainVolume AudioManager.masterVolume
         AudioManager.nodes].
    split; [exact Hrv|]. split; [exact Hmv|].
    intros n1 E1. injection E1 as <-.
    cbn [AudioManager.masterGain AudioManager.rainGain
         AudioManager.filterFrequency].
    split; [apply (Hn n0 eq_refl)|]. right.
    unfold AudioManager.tuned.
    cbn [AudioManager.rainGain AudioManager.filterFrequency
         AudioManager.rainVolume].
    split; [|reflexivity].
    assert (Eq : inject_Z level1 / 10 * 1.5 == inject_Z level1 * 0.15)
      by field.
    rewrite Eq. reflexivity.
  - split; [exact Hrv|]. split; [exact Hmv|].
    intros n1 E1. rewrite En in E1. discriminate.
Qed.

Section SoundSceneFacts.

Variable random : nat -> Q.
Variable clock : nat -> Q.
Variable sin : Q -> Q.

Lemma sound_changeIntensityLevel_result (s : SoundScene.t) (delta : Z)
  (w : JS.World) :
  let newLevel := Z.max 1 (Z.min 10 (SoundScene.intensityLevel s + delta)) in
  let s1 := fst (SoundScene.changeIntensityLevel random s delta w) in
  SoundScene.intensityLevel s1 = newLevel /\
  SoundScene.baseRainCount s1 = SoundScene.baseRainCount s /\
  (newLevel = SoundScene.intensityLevel s ->
   SoundScene.changeIntensityLevel random s delta w = (s, w)) /\
  (newLevel <> SoundScene.intensityLevel s ->
   let newIntensity := (SoundScene.baseRainCount s * newLevel)%Z in
   SoundScene.rainIntensity s1 = newIntensity /\
   SoundScene.audioManager s1
   = AudioManager.updateRainIntensity (SoundScene.audioManager s)
       (inject_Z newLevel) /\
   ((SoundScene.rainIntensity s < newIntensity)%Z ->
    exists fresh,
      SoundScene.raindrops s1 = SoundScene.raindrops s ++ fresh /\
      List.length fresh
      = Z.to_nat (newIntensity - SoundScene.rainIntensity s)) /\
   ((newIntensity < SoundScene.rainIntensity s)%Z ->
    SoundScene.raindrops s1
    = firstn (Z.to_nat newIntensity) (SoundScene.raindrops s)) /\
   (newIntensity = SoundScene.rainIntensity s ->
    SoundScene.raindrops s1 = SoundScene.raindrops s)).
Proof.
  unfold SoundScene.changeIntensityLevel. cbv zeta.
  set (n := Z.max 1 (Z.min 10 (SoundScene.intensityLevel s + delta))).
  destruct (n =? SoundScene.intensityLevel s)%Z eqn:En; cbn [negb].
  - apply Z.eqb_eq in En. unfold JS.ret. cbn [fst].
    split; [symmetry; exact En|]. split; [reflexivity|].
    split; [reflexivity | intro H; contradiction].
  - apply Z.eqb_neq in En. rewrite bind_run.
    destruct (SoundScene.rainIntensity s
              <? SoundScene.baseRainCount s * n)%Z eqn:Eup;
      [|destruct (SoundScene.baseRainCount s * n
                  <? SoundScene.rainIntensity s)%Z eqn:Edown];
      unfold JS.ret;
      cbn [fst SoundScene.intensityLevel SoundScene.baseRainCount
           SoundScene.rainIntensity SoundScene.audioManager
           SoundScene.raindrops];
      (split; [reflexivity|]); (split; [reflexivity|]);
      (split; [intro H; contradiction|]); intros _;
      (split; [reflexivity|]); (split; [reflexivity|]).
    + apply Z.ltb_lt in Eup. split; [|split]; [|lia|lia].
      intros _.
      match goal with
      | |- context [JS.for_push ?c ?f ?b ?a ?w0] =>
          destruct (for_push_run (fun _ => True) b (fun _ _ => I) c f a w0)
            as (fresh & E & Hlen & _)
      end.
      exists fresh. split; [exact E | exact Hlen].
    + apply Z.ltb_lt in Edown. split; [lia|]. split; [reflexivity | lia].
    + apply Z.ltb_ge in Eup. apply Z.ltb_ge in Edown.
      split; [lia|]. split; [lia | reflexivity].
Qed.

Lemma sound_resizeCanvas_result (s : SoundScene.t) (iw ih : Q)
  (w : JS.World) :
  let s1 := fst (SoundScene.resizeCanvas random s iw ih w) in
  SoundScene.intensityLevel s1 = SoundScene.intensityLevel s /\
  SoundScene.baseRainCount s1 = SoundScene.baseRainCount s /\
  SoundScene.rainIntensity s1 = SoundScene.rainIntensity s /\
  SoundScene.audioManager s1 = SoundScene.audioManager s /\
  SoundScene.rainEnabled s1 = SoundScene.rainEnabled s /\
  List.length (SoundScene.raindrops s1)
  = Z.to_nat (SoundScene.rainIntensity s).
Proof.
  unfold SoundScene.resizeCanvas. cbv zeta. rewrite !bind_run.
  unfold JS.ret.
  cbn [fst SoundScene.intensityLevel SoundScene.baseRainCount
       SoundScene.rainIntensity SoundScene.audioManager
       SoundScene.rainEnabled SoundScene.raindrops].
  split; [reflexivity|]. split; [reflexivity|]. split; [reflexivity|].
  split; [reflexivity|]. split; [reflexivity|]. apply createRain_length.
Qed.

(** A frame moves the raindrops and the lightning and nothing else. *)
Lemma sound_update_result (s : SoundScene.t) (time : Q) (w : JS.World) :
  let s1 := fst (SoundScene.update random clock sin s time w) in
  SoundScene.intensityLevel s1 = SoundScene.intensityLevel s /\
  SoundScene.baseRainCount s1 = SoundScene.baseRainCount s /\
  SoundScene.rainIntensity s1 = SoundScene.rainIntensity s /\
  SoundScene.audioManager s1 = SoundScene.audioManager s /\
  SoundScene.rainEnabled s1 = SoundScene.rainEnabled s /\
  SoundScene.lightningEnabled s1 = SoundScene.lightningEnabled s /\
  SoundScene.canvas s1 = SoundScene.canvas s /\
  SoundScene.lastTime s1 = time /\
  List.length (SoundScene.raindrops s1)
  = List.length (SoundScene.raindrops s).
Proof.
  unfold SoundScene.update. cbv zeta. rewrite !bind_run. unfold JS.ret.
  cbn [fst SoundScene.intensityLevel SoundScene.baseRainCount
       SoundScene.rainIntensity SoundScene.audioManager
       SoundScene.rainEnabled SoundScene.lightningEnabled SoundScene.canvas
       SoundScene.lastTime SoundScene.raindrops].
  repeat (split; [reflexivity|]).
  destruct (SoundScene.rainEnabled s); [apply forEach_length | reflexivity].
Qed.

Lemma sound_new_result (supported : bool) (iw ih : Q) (started : bool)
  (w : JS.World) :
  let s :=
    fst (SoundScene.new random (AudioManager.new supported) iw ih started w) in
  SoundScene.intensityLevel s = 1%Z /\
  SoundScene.baseRainCount s = 100%Z /\
  SoundScene.rainIntensity s = 100%Z /\
  SoundScene.audioManager s
  = AudioManager.startRain (AudioManager.new supported) started /\
  List.length (SoundScene.raindrops s) = 100%nat.
Proof.
  unfold SoundScene.new. cbv zeta. rewrite !bind_run.
  set (l := fst (Lightning.new random true w)).
  set (w1 := snd (Lightning.new random true w)).
  set (s0 := SoundScene.mk _ [] _ _ _ _ _ _ _ _ []).
  destruct (sound_resizeCanvas_result s0 iw ih w1)
    as (E1 & E2 & E3 & E4 & E5 & _).
  set (s1 := fst (SoundScene.resizeCanvas random s0 iw ih w1)) in *.
  unfold JS.ret.
  cbn [fst SoundScene.intensityLevel SoundScene.baseRainCount
       SoundScene.rainIntensity SoundScene.audioManager
       SoundScene.raindrops].
  rewrite E1, E2, E3, E4, E5.
  split; [reflexivity|]. split; [reflexivity|]. split; [reflexivity|].
  split; [reflexivity|]. rewrite createRain_length. reflexivity.
Qed.

(** The level, the number of raindrops and the settings of the sound,
    through frames, resizes and every control. *)
Lemma sound_reachable_leveled (s : SoundScene.t) :
  SoundScene.reachable random clock sin s ->
  SoundScene.leveled s /\
  AudioManager.settled (SoundScene.audioManager s)
    (SoundScene.intensityLevel s).
Proof.
  assert (Hframe : forall s time w,
            SoundScene.leveled s /\
            AudioManager.settled (SoundScene.audioManager s)
              (SoundScene.intensityLevel s) ->
            SoundScene.leveled
              (fst (SoundScene.update random clock sin s time w)) /\
            AudioManager.settled
              (SoundScene.audioManager
                 (fst (SoundScene.update random clock sin s time w)))
              (SoundScene.intensityLevel
                 (fst (SoundScene.update random clock sin s time w)))).
  { clear s. intros s time w [(Hl & Hb & Hi & Hlen) Ha].
    destruct (sound_update_result s time w)
      as (E1 & E2 & E3 & E4 & _ & _ & _ & _ & E5).
    cbv zeta in *. unfold SoundScene.leveled. rewrite E1, E2, E3, E4, E5.
    auto. }
  assert (Hclick : forall s delta w,
            SoundScene.leveled s /\
            AudioManager.settled (SoundScene.audioManager s)
              (SoundScene.intensityLevel s) ->
            SoundScene.leveled
              (fst (SoundScene.changeIntensityLevel random s delta w)) /\
            AudioManager.settled
              (SoundScene.audioManager
                 (fst (SoundScene.changeIntensityLevel random s delta w)))
              (SoundScene.intensityLevel
                 (fst (SoundScene.changeIntensityLevel random s delta w)))).
  { clear s. intros s delta w IH.
    destruct (sound_changeIntensityLevel_result s delta w)
      as (El & Eb & Hsame & Hnew).
    cbv zeta in *.
    set (n := Z.max 1 (Z.min 10 (SoundScene.intensityLevel s + delta))) in *.
    destruct (Z.eq_dec n (SoundScene.intensityLevel s)) as [E | E].
    - rewrite (Hsame E). exact IH.
    - destruct IH as [(Hl & Hb & Hi & Hlen) Ha].
      destruct (Hnew E) as (Ei & Ea & Hup & Hdown & Hkeep).
      rewrite Hb in Ei, Hup, Hdown, Hkeep.
      unfold SoundScene.leveled. rewrite El, Eb, Ei, Ea.
      split; [|eapply updateRainIntensity_settled; exact Ha].
      split; [lia|]. split; [exact Hb|]. split; [reflexivity|].
      destruct (Z.lt_trichotomy (SoundScene.rainIntensity s) (100 * n))
        as [H | [H | H]].
      + destruct (Hup H) as (fresh & -> & Hf).
        rewrite length_app, Hf. lia.
      + rewrite (Hkeep (eq_sym H)). lia.
      + rewrite (Hdown H), length_firstn. lia. }
  induction 1 as [supported iw ih started w | s now w Hr IH | s time w Hr IH
                  | s iw ih w Hr IH | s started Hr IH | s ok Hr IH | s Hr IH
                  | s w Hr IH | s w Hr IH | s stopped Hr IH | s volume Hr IH
                  | s w Hr IH].
  - destruct (sound_new_result supported iw ih started w)
      as (E1 & E2 & E3 & E4 & E5).
    cbv zeta in *. unfold SoundScene.leveled. rewrite E1, E2, E3, E4, E5.
    split; [repeat split; lia|].
    apply startRain_settled, new_settled.
  - unfold SoundScene.start. apply Hframe. exact IH.
  - apply Hframe. exact IH.
  - destruct (sound_resizeCanvas_result s iw ih w)
      as (E1 & E2 & E3 & E4 & _ & E5).
    destruct IH as [(Hl & Hb & Hi & Hlen) Ha].
    cbv zeta in *. unfold SoundScene.leveled. rewrite E1, E2, E3, E4, E5.
    split; [|exact Ha].
    split; [exact Hl|]. split; [exact Hb|]. split; [exact Hi | lia].
  - destruct IH as [Hl Ha]. unfold SoundScene.enableAudioAndStartRain.
    destruct (_ && _); [|split; assumption].
    split; [exact Hl|]. apply startRain_settled. exact Ha.
  - destruct IH as [Hl Ha]. split; [exact Hl|].
    unfold SoundScene.toggleRain. cbv zeta.
    cbn [SoundScene.audioManager SoundScene.intensityLevel].
    destruct (negb (SoundScene.rainEnabled s));
      [apply startRain_settled | apply stopRain_settled]; exact Ha.
  - exact IH.
  - apply Hclick. exact IH.
  - apply Hclick. exact IH.
  - destruct IH as [Hl Ha]. split; [exact Hl|].
    apply toggleAudio_settled. exact Ha.
  - destruct IH as [Hl Ha]. split; [exact Hl|].
    apply setMasterVolume_settled. exact Ha.
  - unfold SoundScene.playThunder. rewrite bind_run. unfold JS.ret.
    cbn [fst]. rewrite playThunder_same.
    destruct IH as [Hl Ha]. split; [exact Hl | exact Ha].
Qed.

(** X29.  In the variant with sound, whatever frames, resizes, controls
    and thunder the scene has been through, the intensity level is between
    1 and 10 and the scene holds 100 raindrops per level.  A click on the
    increase button at level 10, or on the decrease button at level 1,
    changes nothing and draws no random number.  Otherwise the level moves
    by one: a hundred fresh raindrops are appended to the ones there are,
    or the last hundred are dropped.  A frame keeps the level and the
    number of raindrops. *)
Theorem sound_scene_population (s : SoundScene.t) (time : Q) (w : JS.World) :
  SoundScene.reachable random clock sin s ->
  let up := fst (SoundScene.changeIntensityLevel random s 1 w) in
  let down := fst (SoundScene.changeIntensityLevel random s (-1) w) in
  let frame := fst (SoundScene.update random clock sin s time w) in
  (1 <= SoundScene.intensityLevel s <= 10)%Z /\
  SoundScene.rainIntensity s = (100 * SoundScene.intensityLevel s)%Z /\
  Z.of_nat (List.length (SoundScene.raindrops s))
  = SoundScene.rainIntensity s /\
  (SoundScene.intensityLevel s = 10%Z ->
   SoundScene.changeIntensityLevel random s 1 w = (s, w)) /\
  (SoundScene.intensityLevel s = 1%Z ->
   SoundScene.changeIntensityLevel random s (-1) w = (s, w)) /\
  ((SoundScene.intensityLevel s < 10)%Z ->
   SoundScene.intensityLevel up = (SoundScene.intensityLevel s + 1)%Z /\
   exists fresh,
     List.length fresh = 100%nat /\
     SoundScene.raindrops up = SoundScene.raindrops s ++ fresh) /\
  ((1 < SoundScene.intensityLevel s)%Z ->
   SoundScene.intensityLevel down = (SoundScene.intensityLevel s - 1)%Z /\
   exists dropped,
     List.length dropped = 100%nat /\
     SoundScene.raindrops s = SoundScene.raindrops down ++ dropped) /\
  SoundScene.intensityLevel frame = SoundScene.intensityLevel s /\
  List.length (SoundScene.raindrops frame)
  = List.length (SoundScene.raindrops s).
Proof.
  intros Hr up down frame.
  destruct (sound_reachable_leveled s Hr) as ((Hl & Hb & Hi & Hlen) & _).
  split; [exact Hl|]. split; [exact Hi|]. split; [exact Hlen|].
  destruct (sound_changeIntensityLevel_result s 1 w)
    as (El & _ & Hsame & Hnew).
  destruct (sound_changeIntensityLevel_result s (-1) w)
    as (El' & _ & Hsame' & Hnew').
  fold up in El, Hnew. fold down in El', Hnew'.
  rewrite Hb in Hnew, Hnew'.
  split; [intro H; apply Hsame; lia|].
  split; [intro H; apply Hsame'; lia|].
  split; [|split].
  - intro H. split; [lia|].
    destruct Hnew as (_ & _ & Hup & _); [lia|].
    destruct Hup as (fresh & E & Hf); [lia|].
    exists fresh. split; [lia | exact E].
  - intro H. split; [lia|].
    destruct Hnew' as (_ & _ & _ & Hdown & _); [lia|].
    exists (skipn (Z.to_nat
                     (100 * Z.max 1 (Z.min 10
                                       (SoundScene.intensityLevel s + -1))))
              (SoundScene.raindrops s)).
    rewrite Hdown by lia. split; [|symmetry; apply firstn_skipn].
    rewrite length_skipn. lia.
  - destruct (sound_update_result s time w)
      as (E1 & _ & _ & _ & _ & _ & _ & _ & E5).
    split; [exact E1 | exact E5].
Qed.

(** X30.  The settings of the sound in the variant with sound, whatever
    frames, resizes, controls and thunder the scene has been through.  The
    master volume stays within 0 and 1 wherever the slider is put, and the
    master gain equals it.  The gain of the rain and the frequency of its
    filter are either as constructed (0.5 and 2000 Hz, which no level
    gives) or the ones of the current level: 0.5 times the smaller of 1
    and 0.15 times the level, and 1000 + 300 times the level.  So the gain
    lies within 0.075 and 0.5, it is 0.5 from level 7 on, and the frequency
    lies within 1300 and 4000 Hz.  After a click that changes the level
    they are the ones of the new level. *)
Theorem sound_follows_level (s : SoundScene.t) (delta : Z) (w : JS.World)
  (n : AudioManager.Nodes) :
  SoundScene.reachable random clock sin s ->
  AudioManager.nodes (SoundScene.audioManager s) = Some n ->
  let s1 := fst (SoundScene.changeIntensityLevel random s delta w) in
  0 <= AudioManager.masterVolume (SoundScene.audioManager s) <= 1 /\
  AudioManager.masterGain n
  = AudioManager.masterVolume (SoundScene.audioManager s) /\
  ((AudioManager.rainGain n = 0.5 /\ AudioManager.filterFrequency n = 2000) \/
   AudioManager.tuned (SoundScene.audioManager s)
     (SoundScene.intensityLevel s) n) /\
  0.075 <= AudioManager.rainGain n <= 0.5 /\
  1300 <= AudioManager.filterFrequency n <= 4000 /\
  (AudioManager.tuned (SoundScene.audioManager s)
     (SoundScene.intensityLevel s) n ->
   (7 <= SoundScene.intensityLevel s)%Z -> AudioManager.rainGain n == 0.5) /\
  (forall level,
     ~ AudioManager.tuned (SoundScene.audioManager s) level
         (AudioManager.mkNodes 0.7 0.5 2000)) /\
  (SoundScene.intensityLevel s1 <> SoundScene.intensityLevel s ->
   exists n1,
     AudioManager.nodes (SoundScene.audioManager s1) = Some n1 /\
     AudioManager.tuned (SoundScene.audioManager s1)
       (SoundScene.intensityLevel s1) n1).
Proof.
  intros Hr En s1.
  destruct (sound_reachable_leveled s Hr)
    as ((Hl & Hb & Hi & Hlen) & (Hrv & Hmv & Hn)).
  destruct (Hn n En) as (Hg & Ht).
  assert (Hlq : 1 <= inject_Z (SoundScene.intensityLevel s) <= 10).
  { split; [change 1 with (inject_Z 1) | change 10 with (inject_Z 10)];
      rewrite <- Zle_Qle; lia. }
  assert (Hrange : AudioManager.tuned (SoundScene.audioManager s)
                     (SoundScene.intensityLevel s) n ->
                   0.075 <= AudioManager.rainGain n <= 0.5 /\
                   1300 <= AudioManager.filterFrequency n <= 4000).
  { intros (Hgain & Hfreq). rewrite Hgain, Hfreq, Hrv.
    destruct (Q.min_spec 1 (inject_Z (SoundScene.intensityLevel s) * 0.15))
      as [[Hc E] | [Hc E]]; rewrite E; repeat split; lra. }
  split; [exact Hmv|]. split; [exact Hg|]. split; [exact Ht|].
  assert (Hin : 0.075 <= AudioManager.rainGain n <= 0.5 /\
                1300 <= AudioManager.filterFrequency n <= 4000).
  { destruct Ht as [[-> ->] | Ht]; [repeat split; lra | exact (Hrange Ht)]. }
  split; [apply Hin|]. split; [apply Hin|]. split; [|split].
  - intros (Hgain & _) H7. rewrite Hgain, Hrv.
    assert (H7q : 7 <= inject_Z (SoundScene.intensityLevel s)).
    { change 7 with (inject_Z 7). rewrite <- Zle_Qle. exact H7. }
    rewrite Q.min_l by lra. lra.
  - intros level (Hgain & Hfreq).
    cbn [AudioManager.rainGain AudioManager.filterFrequency] in Hgain, Hfreq.
    rewrite Hrv in Hgain.
    assert (Hlev : inject_Z level * 0.15 == 0.5) by lra.
    rewrite Hlev in Hgain. rewrite Q.min_r in Hgain by lra. lra.
  - intro Hne.
    destruct (sound_changeIntensityLevel_result s delta w)
      as (El & _ & _ & Hnew).
    fold s1 in El, Hnew.
    destruct Hnew as (_ & Ea & _); [rewrite <- El; exact Hne|].
    rewrite Ea, El. unfold AudioManager.updateRainIntensity. rewrite En.
    cbv zeta. eexists. split; [reflexivity|].
    unfold AudioManager.tuned.
    cbn [AudioManager.rainGain AudioManager.filterFrequency
         AudioManager.rainVolume].
    split; [|reflexivity].
    assert (Eq : forall q, q / 10 * 1.5 == q * 0.15) by (intro; field).
    rewrite Eq. reflexivity.
Qed.

End SoundSceneFacts.

Lemma sound_scene_population_witness :
  SoundScene.reachable Sample.random Sample.clock Sample.sin
    Sample.soundScene /\
  SoundScene.rainIntensity Sample.soundScene
  = (100 * SoundScene.intensityLevel Sample.soundScene)%Z.
Proof.
  assert (Hr : SoundScene.reachable Sample.random Sample.clock Sample.sin
                 Sample.soundScene)
    by apply SoundScene.reach_new.
  split; [exact Hr|].
  exact (proj1 (proj2 (sound_scene_population Sample.random Sample.clock
                         Sample.sin Sample.soundScene 16 JS.start Hr))).
Defined.

Lemma sound_follows_level_witness :
  SoundScene.reachable Sample.random Sample.clock Sample.sin
    Sample.soundScene /\
  AudioManager.nodes (SoundScene.audioManager Sample.soundScene)
  = Some (AudioManager.mkNodes 0.7 0.5 2000) /\
  1300 <= AudioManager.filterFrequency (AudioManager.mkNodes 0.7 0.5 2000)
  <= 4000.
Proof.
  assert (Hr : SoundScene.reachable Sample.random Sample.clock Sample.sin
                 Sample.soundScene)
    by apply SoundScene.reach_new.
  assert (En : AudioManager.nodes (SoundScene.audioManager Sample.soundScene)
               = Some (AudioManager.mkNodes 0.7 0.5 2000))
    by (vm_compute; reflexivity).
  split; [exact Hr|]. split; [exact En|].
  exact (proj1 (proj2 (proj2 (proj2 (proj2
           (sound_follows_level Sample.random Sample.clock Sample.sin
              Sample.soundScene 1 JS.start _ Hr En)))))).
Defined.

(** ** The properties above on the sample host *)

Lemma lightning_path_shape_witness :
  8 <= 8 + Sample.random (JS.draws JS.start) * 8 <= 16.
Proof.
  exact (proj2 (lightning_path_shape Sample.random sample_random_unit
                  400 0 400 420 JS.start)).
Defined.

Lemma createBranches_shape_witness :
  0 < 800 /\ 0 < 600 /\
  (2 <= List.length
          (fst (Lightning.createBranches Sample.random 800 600 JS.start))
   <= 5)%nat.
Proof.
  assert (Hw : 0 < 800) by reflexivity.
  assert (Hh : 0 < 600) by reflexivity.
  split; [exact Hw|]. split; [exact Hh|].
  exact (proj1 (createBranches_shape Sample.random sample_random_unit
                  800 600 JS.start Hw Hh)).
Defined.

Lemma strike_schedules_thunder_witness :
  Lightning.isActive Sample.struck = true /\
  Lightning.duration Sample.struck = 0.
Proof.
  pose proof (strike_schedules_thunder Sample.random Sample.clock
                sample_random_unit
                (fst (Lightning.new Sample.random false JS.start))
                800 600 JS.start) as H.
  split; [exact (proj1 H) | exact (proj1 (proj2 H))].
Defined.

Lemma flash_ends_witness :
  Lightning.reachable Sample.random Sample.clock Sample.struck /\
  Lightning.isActive Sample.struck = true /\
  (1 <= 100)%Z /\
  Forall (fun dt => inject_Z 100 <= dt) [100; 100] /\
  (200 <= 100 * Z.of_nat (List.length [100; 100]))%Z /\
  exists k,
    (1 <= k <= 2)%nat /\
    Lightning.isActive
      (fst (Lightning.updates Sample.random Sample.clock 800 600
              (firstn k [100; 100]) Sample.struck JS.start)) = false.
Proof.
  assert (Hr : Lightning.reachable Sample.random Sample.clock Sample.struck)
    by (apply Lightning.reach_strike, Lightning.reach_new).
  assert (Ha : Lightning.isActive Sample.struck = true) by reflexivity.
  assert (Hm : (1 <= 100)%Z) by discriminate.
  assert (Hd : Forall (fun dt => inject_Z 100 <= dt) [100; 100])
    by (repeat constructor; discriminate).
  assert (Hs : (200 <= 100 * Z.of_nat (List.length [100; 100]))%Z)
    by discriminate.
  split; [exact Hr|]. split; [exact Ha|]. split; [exact Hm|].
  split; [exact Hd|]. split; [exact Hs|].
  destruct (flash_ends Sample.random Sample.clock sample_random_unit
              Sample.struck 800 600 JS.start [100; 100] 100 Hr Ha Hm Hd Hs)
    as (k & Hk & Hend & _).
  exists k. split; [exact Hk | exact Hend].
Defined.

Lemma autonomous_strike_witness :
  Lightning.reachable Sample.random Sample.clock
    (fst (Lightning.new Sample.random false JS.start)) /\
  Lightning.isActive (fst (Lightning.new Sample.random false JS.start))
  = false /\
  2000 <= Lightning.nextStrikeDelay
            (fst (Lightning.new Sample.random false JS.start)) <= 10000.
Proof.
  assert (Hr : Lightning.reachable Sample.random Sample.clock
                 (fst (Lightning.new Sample.random false JS.start)))
    by apply Lightning.reach_new.
  assert (Ha : Lightning.isActive
                 (fst (Lightning.new Sample.random false JS.start)) = false)
    by reflexivity.
  split; [exact Hr|]. split; [exact Ha|].
  exact (proj1 (autonomous_strike Sample.random Sample.clock
                  sample_random_unit
                  (fst (Lightning.new Sample.random false JS.start))
                  800 600 16 JS.start Hr Ha)).
Defined.

Lemma scene_flash_overlay_witness :
  RainScene.played Sample.random Sample.clock Sample.sin Sample.scene /\
  match RainScene.render Sample.scene with
  | Some alpha => 0 < alpha <= 0.3
  | None =>
      RainScene.lightningEnabled Sample.scene = false \/
      Lightning.isActive (RainScene.lightning Sample.scene) = false \/
      Lightning.duration (RainScene.lightning Sample.scene) == 0
  end.
Proof.
  assert (Hp : RainScene.played Sample.random Sample.clock Sample.sin
                 Sample.scene) by apply RainScene.played_new.
  split; [exact Hp|].
  pose proof (scene_flash_overlay Sample.random Sample.clock Sample.sin
                sample_random_unit Sample.scene Hp) as H.
  destruct (RainScene.render Sample.scene);
    [exact (proj1 H) | exact H].
Defined.

Lemma scene_drops_in_lifecycle_witness :
  RainScene.reachable Sample.random Sample.clock Sample.sin Sample.scene /\
  List.length (RainScene.stars Sample.scene) = 150%nat.
Proof.
  assert (H : RainScene.reachable Sample.random Sample.clock Sample.sin
                Sample.scene) by apply RainScene.reach_new.
  split; [exact H|].
  exact (proj2 (scene_drops_in_lifecycle Sample.random Sample.clock
                  Sample.sin sample_random_unit Sample.scene H)).
Defined.

Lemma frame_recycles_drops_witness :
  RainScene.reachable Sample.random Sample.clock Sample.sin Sample.scene /\
  RainScene.lastTime
    (fst (RainScene.update Sample.random Sample.clock Sample.sin
            Sample.scene 16 JS.start)) = 16.
Proof.
  assert (H : RainScene.reachable Sample.random Sample.clock Sample.sin
                Sample.scene) by apply RainScene.reach_new.
  split; [exact H|].
  exact (proj1 (frame_recycles_drops Sample.random Sample.clock Sample.sin
                  sample_random_unit Sample.scene 16 JS.start H)).
Defined.


Lemma intensity_buttons_round_trip_witness :
  RainScene.reachable Sample.random Sample.clock Sample.sin Sample.scene /\
  ((RainScene.rainIntensity Sample.scene < 500)%Z ->
   fst (RainScene.decreaseIntensity Sample.random
          (fst (RainScene.increaseIntensity Sample.random Sample.scene
                  JS.start)) JS.start) = Sample.scene).
Proof.
  assert (H : RainScene.reachable Sample.random Sample.clock Sample.sin
                Sample.scene) by apply RainScene.reach_new.
  split; [exact H|].
  exact (proj1 (proj2 (proj2
           (intensity_buttons_round_trip Sample.random Sample.clock
              Sample.sin Sample.scene JS.start JS.start H)))).
Defined.

Lemma guardrails_span_the_canvas_witness :
  0 <= Canvas.width (Canvas.mk 800 600) /\
  List.length
    (Guardrails.posts
       (fst (Guardrails.new Sample.random (Canvas.mk 800 600) JS.start)))
  = 7%nat.
Proof.
  assert (Hw : 0 <= Canvas.width (Canvas.mk 800 600)) by discriminate.
  split; [exact Hw|].
  exact (proj1 (guardrails_span_the_canvas Sample.random sample_random_unit
                  (Canvas.mk 800 600) JS.start Hw)).
Defined.

Lemma two_street_lamps_witness :
  exists left right,
    StreetLamps.lamps
      (fst (StreetLamps.new Sample.random (Canvas.mk 800 600) JS.start))
    = [left; right].
Proof.
  destruct (two_street_lamps Sample.random sample_random_unit
              (Canvas.mk 800 600) JS.start JS.start)
    as (left & right & E & _).
  exists left, right. exact E.
Defined.

Lemma createPuddles_three_puddles_witness :
  Ground.laidOut
    (fst (Ground.createPuddles Sample.random (Canvas.mk 800 600) JS.start)).
Proof.
  exact (proj1 (createPuddles_three_puddles Sample.random sample_random_unit
                  (Canvas.mk 800 600) JS.start)).
Defined.

Lemma onCanvasResize_relays_witness :
  Ground.splashes
    (fst (Ground.onCanvasResize Sample.random Sample.struckGround JS.start))
  = Ground.splashes Sample.struckGround.
Proof.
  exact (proj1 (proj2 (proj2
           (onCanvasResize_relays Sample.random sample_random_unit
              Sample.struckGround JS.start)))).
Defined.

Lemma ground_keeps_its_puddles_witness :
  Ground.reachable Sample.random Sample.wetGround /\
  Ground.groundHeight Sample.wetGround = 80.
Proof.
  assert (Hr : Ground.reachable Sample.random Sample.wetGround)
    by apply Ground.reach_addSplash, Ground.reach_new.
  split; [exact Hr|].
  exact (proj1 (ground_keeps_its_puddles Sample.random sample_random_unit
                  Sample.wetGround Hr)).
Defined.

Lemma max_puddle_height_is_compound_witness :
  Ground.reachable Sample.random Sample.ground /\
  exists a b c,
    Ground.puddles Sample.ground = [a; b; c] /\
    Ground.getMaxPuddleHeight Sample.ground == Ground.Puddle.height b.
Proof.
  assert (Hr : Ground.reachable Sample.random Sample.ground)
    by apply Ground.reach_new.
  split; [exact Hr|].
  destruct (max_puddle_height_is_compound Sample.random sample_random_unit
              Sample.ground Hr) as (a & b & c & E & Hm & _).
  exists a, b, c. split; [exact E | exact Hm].
Defined.






